(** * nada-sousou-piano-companion: score timeline, MIDI accuracy, metronome

    A shallow embedding of the hooks [useMusicXML], [useMIDI], [useMetronome]
    and [useYouTube] and of the components that show their state, with the
    theorems that relate them to the written specification.

    JavaScript numbers are doubles.  [JS.num] holds their values: the
    rationals (every finite double is one), [NaN] and the two infinities;
    the sign of zero is not kept.  The operations [+ - * /] are given twice.
    [JS] computes them exactly.  [Binary64] rounds every result to the
    nearest double, as the machine does; the parser's running clock and the
    aggregates of the accuracy log are read with it, in [InDoubles], because
    there the rounding decides what the program answers.  The statements
    made over [JS] are about what the code compares, copies and counts,
    about whole numbers, and about bounds that rounding to nearest keeps. *)

From Stdlib Require Import ZArith QArith Qround Qabs Qreduction Qpower.
From Stdlib Require PrimFloat FloatOps SpecFloat Uint63.
From Stdlib Require Import Bool List String Ascii DecimalString.
From Stdlib Require Import Lia Lqa Setoid Morphisms.
Import ListNotations.

Local Open Scope Q_scope.

(* ================================================================== *)
(** ** JavaScript numbers *)
(* ================================================================== *)

Module JS.

Inductive num : Type :=
| NaN : num
| Inf (neg : bool) : num          (* [Inf false] is +Infinity *)
| Fin (q : Q) : num.

Definition of_Z (z : Z) : num := Fin (inject_Z z).
Definition of_nat (n : nat) : num := of_Z (Z.of_nat n).

(** [parseInt] yields an integer or [NaN]. *)
Definition of_int (r : option Z) : num :=
  match r with
  | Some z => of_Z z
  | None => NaN
  end.

Definition Qltb (a b : Q) : bool := negb (Qle_bool b a).
Definition Qis_zero (q : Q) : bool := Qeq_bool q 0.
Definition Qneg (q : Q) : bool := Qltb q 0.

Definition add (a b : num) : num :=
  match a, b with
  | NaN, _ | _, NaN => NaN
  | Inf s, Inf s' => if Bool.eqb s s' then Inf s else NaN
  | Inf s, Fin _ | Fin _, Inf s => Inf s
  | Fin x, Fin y => Fin (Qred (x + y))
  end.

Definition opp (a : num) : num :=
  match a with
  | NaN => NaN
  | Inf s => Inf (negb s)
  | Fin x => Fin (Qred (- x))
  end.

Definition sub (a b : num) : num := add a (opp b).

Definition mul (a b : num) : num :=
  match a, b with
  | NaN, _ | _, NaN => NaN
  | Inf s, Inf s' => Inf (xorb s s')
  | Inf s, Fin q | Fin q, Inf s =>
      if Qis_zero q then NaN else Inf (xorb s (Qneg q))
  | Fin x, Fin y => Fin (Qred (x * y))
  end.

Definition div (a b : num) : num :=
  match a, b with
  | NaN, _ | _, NaN => NaN
  | Inf _, Inf _ => NaN
  | Inf s, Fin q => Inf (xorb s (Qneg q))
  | Fin _, Inf _ => Fin 0
  | Fin x, Fin y =>
      if Qis_zero y
      then (if Qis_zero x then NaN else Inf (Qneg x))
      else Fin (Qred (x / y))
  end.

(** [Math.abs] *)
Definition abs (a : num) : num :=
  match a with
  | NaN => NaN
  | Inf _ => Inf false
  | Fin x => Fin (Qabs x)
  end.

(** [Math.round]: the nearest integer, halves towards +Infinity. *)
Definition round (a : num) : num :=
  match a with
  | Fin x => of_Z (Qfloor (x + (1 # 2)))
  | _ => a
  end.

(** [a <= b], [a < b], [a === b]; each is false when a side is [NaN]. *)
Definition leb (a b : num) : bool :=
  match a, b with
  | NaN, _ | _, NaN => false
  | Inf true, _ => true
  | _, Inf false => true
  | Inf false, _ => false
  | _, Inf true => false
  | Fin x, Fin y => Qle_bool x y
  end.

Definition ltb (a b : num) : bool :=
  match a, b with
  | NaN, _ | _, NaN => false
  | Inf s, Inf s' => s && negb s'
  | Inf s, Fin _ => s
  | Fin _, Inf s => negb s
  | Fin x, Fin y => Qltb x y
  end.

Definition eqb (a b : num) : bool :=
  match a, b with
  | Inf s, Inf s' => Bool.eqb s s'
  | Fin x, Fin y => Qeq_bool x y
  | _, _ => false
  end.

(** [a >= b] is [b <= a] on numbers. *)
Definition geb (a b : num) : bool := leb b a.

(** A number used as a condition: [0] and [NaN] are falsy. *)
Definition truthy (a : num) : bool :=
  match a with
  | NaN => false
  | Inf _ => true
  | Fin x => negb (Qis_zero x)
  end.

Definition finite (a : num) : Prop :=
  match a with Fin _ => True | _ => False end.

(** Equality of the numbers denoted (a fraction has many spellings). *)
Definition equiv (a b : num) : Prop :=
  match a, b with
  | NaN, NaN => True
  | Inf s, Inf s' => s = s'
  | Fin x, Fin y => x == y
  | _, _ => False
  end.

End JS.

Import JS.

(* ================================================================== *)
(** ** Doubles: the result of an operation, rounded *)
(* ================================================================== *)

(** A JavaScript number is an IEEE 754 binary64 value, and [+ - * /] give
    the double nearest to the exact result.  [Binary64] adds that rounding
    to the operations of [JS]; comparisons, [Math.abs] and [Math.round] are
    exact on doubles and stay as they are. *)
Module Binary64.

Definition pow2 (e : Z) : Q := 2 ^ e.

(** [floor (log2 a)] for a positive [a]. *)
Definition ilog2 (a : Q) : Z :=
  let e0 := (Z.log2 (Qnum a) - Z.log2 (Z.pos (Qden a)))%Z in
  if Qle_bool (pow2 e0) a then e0 else (e0 - 1)%Z.

(** The nearest integer, a tie going to the even one. *)
Definition nearest_even (q : Q) : Z :=
  let f := Qfloor q in
  match Qcompare (q - inject_Z f)%Q (1 # 2)%Q with
  | Lt => f
  | Gt => (f + 1)%Z
  | Eq => if Z.even f then f else (f + 1)%Z
  end.

(** The double nearest to [q], ties to even: 53 significant bits, exponents
    from -1022 (below that the spacing stays 2^-1074), and an infinity once
    the rounded value reaches 2^1024. *)
Definition round64 (q : Q) : num :=
  let q := Qred q in
  if Qis_zero q then Fin 0
  else
    let a := Qabs q in
    let e := Z.max (ilog2 a) (-1022) in
    let ulp := pow2 (e - 52) in
    let r := inject_Z (nearest_even (a / ulp)) * ulp in
    if Qle_bool (pow2 1024) r then Inf (Qneg q)
    else Fin (Qred (if Qneg q then - r else r)).

Definition rnd (a : num) : num :=
  match a with
  | Fin q => round64 q
  | _ => a
  end.

Definition add (a b : num) : num := rnd (JS.add a b).
Definition sub (a b : num) : num := rnd (JS.sub a b).
Definition mul (a b : num) : num := rnd (JS.mul a b).
Definition div (a b : num) : num := rnd (JS.div a b).

(** [parseInt] yields the double nearest to the integer it reads, or [NaN]. *)
Definition of_int (r : option Z) : num := rnd (JS.of_int r).

(** A double as the kernel's primitive floats show it: sign, mantissa and
    exponent. *)
Definition of_spec_float (f : SpecFloat.spec_float) : num :=
  match f with
  | SpecFloat.S754_zero _ => Fin 0
  | SpecFloat.S754_infinity s => Inf s
  | SpecFloat.S754_nan => NaN
  | SpecFloat.S754_finite s m e =>
      Fin (Qred (((if s then Z.neg m else Z.pos m) # 1) * pow2 e))
  end.

End Binary64.

(** Doubles to try the rounding on, for the comparison with the kernel's
    binary64 floats: pseudo-random mantissas, signs and exponents. *)
Module Binary64Sample.

Definition next (x : Z) : Z :=
  ((x * 6364136223846793005 + 1442695040888963407) mod 2 ^ 64)%Z.

(** A double with 53 random bits, a random sign and an exponent between
    [low] and [low + spread - 1]. *)
Definition double_of (low spread x : Z) : PrimFloat.float :=
  let mantissa := (x mod 2 ^ 53)%Z in
  let exponent := ((x / 2 ^ 53) mod spread + low)%Z in
  let f := FloatOps.Z.ldexp (PrimFloat.of_uint63 (Uint63.of_Z mantissa)) exponent in
  if ((x / 2 ^ 62) mod 2 =? 0)%Z then f else PrimFloat.opp f.

Definition same (a b : num) : bool :=
  match a, b with
  | NaN, NaN => true
  | Inf s, Inf s' => Bool.eqb s s'
  | Fin x, Fin y => Qeq_bool x y
  | _, _ => false
  end.

Definition value (f : PrimFloat.float) : num :=
  Binary64.of_spec_float (FloatOps.Prim2SF f).

(** The four operations agree on [a] and [b]. *)
Definition agree (a b : PrimFloat.float) : bool :=
  same (value (PrimFloat.add a b)) (Binary64.add (value a) (value b))
  && same (value (PrimFloat.sub a b)) (Binary64.sub (value a) (value b))
  && same (value (PrimFloat.mul a b)) (Binary64.mul (value a) (value b))
  && same (value (PrimFloat.div a b)) (Binary64.div (value a) (value b)).

(** The number of pairs, out of [n], on which they do not. *)
Fixpoint disagreements (n : nat) (low spread x : Z) : nat :=
  match n with
  | O => O
  | S k =>
      let x1 := next x in
      let x2 := next x1 in
      ((if agree (double_of low spread x1) (double_of low spread x2) then 0 else 1)
       + disagreements k low spread x2)%nat
  end.

End Binary64Sample.


Declare Scope num_scope.
Delimit Scope num_scope with num.
Bind Scope num_scope with num.
Infix "+" := JS.add : num_scope.
Infix "-" := JS.sub : num_scope.
Infix "*" := JS.mul : num_scope.
Infix "/" := JS.div : num_scope.
Infix "<=?" := JS.leb (at level 70) : num_scope.
Infix "<?" := JS.ltb (at level 70) : num_scope.
Infix "=?" := JS.eqb (at level 70) : num_scope.
Infix ">=?" := JS.geb (at level 70) : num_scope.
Infix "~=" := JS.equiv (at level 70) : num_scope.

(** The rounded operations, written as in the literature on floating
    point. *)
Infix "⊕" := Binary64.add (at level 50, left associativity) : num_scope.
Infix "⊖" := Binary64.sub (at level 50, left associativity) : num_scope.
Infix "⊗" := Binary64.mul (at level 40, left associativity) : num_scope.
Infix "⊘" := Binary64.div (at level 40, left associativity) : num_scope.

(* ================================================================== *)
(** ** Strings: [parseInt(s, 10)], template literals, truthiness *)
(* ================================================================== *)

Local Open Scope string_scope.

Definition is_white (c : ascii) : bool :=
  match nat_of_ascii c with
  | 9%nat | 10%nat | 11%nat | 12%nat | 13%nat | 32%nat => true
  | _ => false
  end.

Definition digit_of (c : ascii) : option Z :=
  let n := Z.of_nat (nat_of_ascii c) in
  if ((48 <=? n) && (n <=? 57))%Z then Some (n - 48)%Z else None.

Fixpoint skip_white (s : string) : string :=
  match s with
  | String c r => if is_white c then skip_white r else s
  | EmptyString => s
  end.

(** The longest prefix of decimal digits, read left to right; [acc] is the
    value of the digits read so far, [None] before the first one. *)
Fixpoint read_digits (s : string) (acc : option Z) : option Z :=
  match s with
  | String c r =>
      match digit_of c with
      | Some d =>
          read_digits r (Some (10 * match acc with Some a => a | None => 0 end + d)%Z)
      | None => acc
      end
  | EmptyString => acc
  end.

(** [parseInt(s, 10)]: leading white space, an optional sign, then digits;
    [None] stands for [NaN].  The strings here hold ASCII characters, so the
    white space is the ASCII one (the language also skips spaces such as
    U+00A0).  The result is the integer read; as a number it is the double
    nearest to it, which [Binary64.of_int] makes of it. *)
Definition parseInt (s : string) : option Z :=
  match skip_white s with
  | String "-" r => option_map Z.opp (read_digits r None)
  | String "+" r => read_digits r None
  | r => read_digits r None
  end.

(** A string used as a condition: only the empty string is falsy. *)
Definition nonempty (s : string) : bool :=
  match s with
  | EmptyString => false
  | _ => true
  end.

(** [x || d] for a possibly absent string. *)
Definition or_default (x : option string) (d : string) : string :=
  match x with
  | Some s => if nonempty s then s else d
  | None => d
  end.

Definition string_of_Z (z : Z) : string := NilZero.string_of_int (Z.to_int z).

(** An integer-or-NaN inside a template literal: all its digits, as the
    language prints a whole number up to 2^53 (beyond it prints the digits
    of the nearest double, and an exponent from 10^21 on). *)
Definition string_of_int (r : option Z) : string :=
  match r with
  | Some z => string_of_Z z
  | None => "NaN"
  end.

(* ================================================================== *)
(** ** useMusicXML: data model *)
(* ================================================================== *)

Local Open Scope num_scope.

Inductive Hand : Type := left | right | both.

Definition Hand_eqb (a b : Hand) : bool :=
  match a, b with
  | left, left | right, right | both, both => true
  | _, _ => false
  end.

Module Note.
Record t : Type := mk {
  id : string;
  pitch : num;
  start : num;
  end_ : num;
  duration : num;
  measure : num;
  hand : Hand;
  finger : option num
}.
End Note.

Module MeasureTimestamp.
Record t : Type := mk {
  measure : num;
  start : num;
  end_ : num
}.
End MeasureTimestamp.

Module MusicData.
Record t : Type := mk {
  notes : list Note.t;
  measures : list MeasureTimestamp.t;
  title : string;
  composer : string;
  tempo : num
}.
End MusicData.

(** What the DOM queries of the parser see of the document.  An absent
    element is [None]; [textContent] of a present one is a string. *)
Record NoteEl : Type := {
  el_rest : bool;                    (* querySelector('rest') is non-null *)
  el_step : option string;
  el_octave : option string;
  el_alter : option string;
  el_duration : option string;
  el_fingering : option string       (* 'technical > fingering' *)
}.

Record MeasureEl : Type := {
  el_number : option string;         (* getAttribute('number') *)
  el_divisions : option string;
  el_notes : list NoteEl
}.

Record XmlDoc : Type := {
  el_work_title : option string;
  el_composer : option string;       (* creator[type="composer"] *)
  el_sound_tempo : option string;    (* tempo attribute of the first sound[tempo] *)
  el_measures : list MeasureEl
}.

(* ================================================================== *)
(** ** useMusicXML: fetchAndParseMusicXML *)
(* ================================================================== *)

(** [pitchMap[step]] for the seven keys of the table.  Any other step is
    read as a missing key ([undefined], which turns the sum into [NaN]);
    that is what the code does unless the step names a property every
    object inherits ([toString], [constructor], ...), where the sum is a
    string: such steps are outside this model. *)
Definition pitchMap (step : string) : option Z :=
  if String.eqb step "C" then Some 0%Z
  else if String.eqb step "D" then Some 2%Z
  else if String.eqb step "E" then Some 4%Z
  else if String.eqb step "F" then Some 5%Z
  else if String.eqb step "G" then Some 7%Z
  else if String.eqb step "A" then Some 9%Z
  else if String.eqb step "B" then Some 11%Z
  else None.

(** [tempoElement ? parseInt(tempoElement.getAttribute('tempo') || '74', 10) : 74] *)
Definition extract_tempo (tempoElement : option string) : num :=
  match tempoElement with
  | Some attr => of_int (parseInt (if nonempty attr then attr else "74"))
  | None => of_Z 74
  end.

(** [divisionsElement ? parseInt(divisionsElement.textContent || '4', 10) : 4] *)
Definition extract_divisions (divisionsElement : option string) : num :=
  match divisionsElement with
  | Some txt => of_int (parseInt (if nonempty txt then txt else "4"))
  | None => of_Z 4
  end.

(** [durationInQuarters * (60 / tempo)] with
    [durationInQuarters = durationInDivisions / divisions]. *)
Definition durationInSeconds (tempo divisions : num) (durationText : string) : num :=
  let durationInDivisions := of_int (parseInt durationText) in
  let durationInQuarters := durationInDivisions / divisions in
  durationInQuarters * (of_Z 60 / tempo).

(** The variables the two [forEach] loops assign. *)
Record Parser : Type := {
  currentTime : num;
  measureStartTime : num;
  notes : list Note.t;
  measures : list MeasureTimestamp.t
}.

Definition truthy_text (x : option string) : option string :=
  match x with
  | Some s => if nonempty s then Some s else None
  | None => None
  end.

(** The body of [noteElements.forEach((noteEl, noteIndex) => ...)]. *)
Definition process_note (tempo : num) (measureNumber : option Z) (divisions : num)
    (p : Parser) (noteEl : NoteEl) (noteIndex : nat) : Parser :=
  if el_rest noteEl then p
  else
    match truthy_text (el_step noteEl), truthy_text (el_octave noteEl) with
    | Some step, Some octave =>
        let baseNote := of_int (pitchMap step) + of_int (parseInt octave) * of_Z 12 in
        let alterValue :=
          match truthy_text (el_alter noteEl) with
          | Some alter => of_int (parseInt alter)
          | None => of_Z 0
          end in
        let pitch := baseNote + alterValue in
        match truthy_text (el_duration noteEl) with
        | None => p
        | Some durationText =>
            let seconds := durationInSeconds tempo divisions durationText in
            let finger :=
              match truthy_text (el_fingering noteEl) with
              | Some f => Some (of_int (parseInt f))
              | None => None
              end in
            let hand := if pitch <? of_Z 60 then left else right in
            let note :=
              Note.mk
                ("note-" ++ string_of_int measureNumber ++ "-"
                   ++ string_of_Z (Z.of_nat noteIndex))
                pitch
                (currentTime p)
                (currentTime p + seconds)
                seconds
                (of_int measureNumber)
                hand
                finger in
            {| currentTime := currentTime p + seconds;
               measureStartTime := measureStartTime p;
               notes := notes p ++ [note];
               measures := measures p |}
        end
    | _, _ => p
    end.

(** [xs.forEach((x, i) => ...)], the index starting at [i]. *)
Fixpoint forEach_from {A S : Type} (f : S -> A -> nat -> S) (xs : list A) (i : nat) (s : S) : S :=
  match xs with
  | [] => s
  | x :: rest => forEach_from f rest (Datatypes.S i) (f s x i)
  end.

(** The body of [measureElements.forEach((measureEl) => ...)]. *)
Definition process_measure (tempo : num) (p : Parser) (measureEl : MeasureEl) : Parser :=
  let measureNumber := parseInt (or_default (el_number measureEl) "1") in
  let p1 :=
    {| currentTime := currentTime p;
       measureStartTime := currentTime p;
       notes := notes p;
       measures := measures p |} in
  let divisions := extract_divisions (el_divisions measureEl) in
  let p2 :=
    forEach_from (process_note tempo measureNumber divisions) (el_notes measureEl) 0 p1 in
  {| currentTime := currentTime p2;
     measureStartTime := measureStartTime p2;
     notes := notes p2;
     measures :=
       measures p2
         ++ [MeasureTimestamp.mk (of_int measureNumber) (measureStartTime p2) (currentTime p2)] |}.

Definition parser_init : Parser :=
  {| currentTime := of_Z 0; measureStartTime := of_Z 0; notes := []; measures := [] |}.

Definition process_measures (tempo : num) (els : list MeasureEl) (p : Parser) : Parser :=
  fold_left (process_measure tempo) els p.

(** The document to [MusicData], from [parseFromString] to [setMusicData]. *)
Definition parseMusicXML (xmlDoc : XmlDoc) : MusicData.t :=
  let title := or_default (el_work_title xmlDoc) "Untitled" in
  let composer := or_default (el_composer xmlDoc) "Unknown" in
  let tempo := extract_tempo (el_sound_tempo xmlDoc) in
  let p := process_measures tempo (el_measures xmlDoc) parser_init in
  MusicData.mk (notes p) (measures p) title composer tempo.

(** What [fetch] gave: a rejection, or a response with its [ok] flag. *)
Inductive FetchResult : Type :=
| Rejected (message : string)
| Response (ok : bool) (statusText : string) (body : XmlDoc).

(** The hook's state: [loading], [error], [musicData]. *)
Record MusicXMLState : Type := {
  loading : bool;
  error : option string;
  musicData : option MusicData.t
}.

Definition useMusicXML_init : MusicXMLState :=
  {| loading := true; error := None; musicData := None |}.

(** One run of [fetchAndParseMusicXML]: [try] / [catch] / [finally]. *)
Definition fetchAndParseMusicXML (st : MusicXMLState) (r : FetchResult) : MusicXMLState :=
  match r with
  | Rejected message =>
      {| loading := false; error := Some message; musicData := musicData st |}
  | Response false statusText _ =>
      {| loading := false;
         error := Some ("Failed to fetch MusicXML: " ++ statusText);
         musicData := musicData st |}
  | Response true _ body =>
      {| loading := false; error := None; musicData := Some (parseMusicXML body) |}
  end.

(* ================================================================== *)
(** ** useMusicXML: queries *)
(* ================================================================== *)

Definition getActiveNotesAtTime (musicData : option MusicData.t) (time : num) : list Note.t :=
  match musicData with
  | None => []
  | Some d =>
      filter (fun note => (time >=? Note.start note) && (time <=? Note.end_ note))
             (MusicData.notes d)
  end.

(** [currentMeasure?.measure || 1] *)
Definition getCurrentMeasureAtTime (musicData : option MusicData.t) (time : num) : num :=
  match musicData with
  | None => of_Z 1
  | Some d =>
      match find (fun m => (time >=? MeasureTimestamp.start m)
                           && (time <=? MeasureTimestamp.end_ m))
                 (MusicData.measures d) with
      | Some currentMeasure =>
          if truthy (MeasureTimestamp.measure currentMeasure)
          then MeasureTimestamp.measure currentMeasure
          else of_Z 1
      | None => of_Z 1
      end
  end.

Definition getNotesByHand (musicData : option MusicData.t) (hand : Hand) : list Note.t :=
  match musicData with
  | None => []
  | Some d =>
      match hand with
      | both => MusicData.notes d
      | _ => filter (fun note => Hand_eqb (Note.hand note) hand) (MusicData.notes d)
      end
  end.

(** The measure lookup in the sheet viewer (its effect on [currentMeasure]):
    [if (measure) setCurrentMeasure(measure.measure)]. *)
Definition SheetViewer_currentMeasure (musicData : option MusicData.t) (currentTime : num)
    (currentMeasure : num) : num :=
  match musicData with
  | None => currentMeasure
  | Some d =>
      match find (fun m => (currentTime >=? MeasureTimestamp.start m)
                           && (currentTime <=? MeasureTimestamp.end_ m))
                 (MusicData.measures d) with
      | Some measure => MeasureTimestamp.measure measure
      | None => currentMeasure
      end
  end.

(** The scenario of the specification: tempo 72, one quarter note of pitch 60. *)
Definition quarter_60 : NoteEl :=
  {| el_rest := false; el_step := Some "C"; el_octave := Some "5"; el_alter := None;
     el_duration := Some "4"; el_fingering := None |}.

Definition a_rest : NoteEl :=
  {| el_rest := true; el_step := None; el_octave := None; el_alter := None;
     el_duration := Some "4"; el_fingering := None |}.

Definition scenario_doc : XmlDoc :=
  {| el_work_title := Some "Nada Sousou"; el_composer := None;
     el_sound_tempo := Some "72";
     el_measures :=
       [ {| el_number := Some "1"; el_divisions := Some "4";
            el_notes := [quarter_60] |} ] |}.

(* ================================================================== *)
(** ** useMIDI *)
(* ================================================================== *)

Module MIDINote.
Record t : Type := mk {
  note : Z;
  velocity : Z;
  timestamp : num
}.
End MIDINote.

Record MIDIAccuracy : Type := {
  noteId : string;
  expectedNote : num;
  actualNote : num;
  timingOffset : num;               (* in milliseconds *)
  isCorrect : bool
}.

(** An entry of [options.expectedNotes]. *)
Module Expected.
Record t : Type := mk {
  id : string;
  pitch : num;
  start : num;
  end_ : num
}.
End Expected.

Record UseMIDIOptions : Type := {
  expectedNotes : option (list Expected.t);
  opt_currentTime : option num
}.

(** A MIDI input port, as far as the hook looks at it. *)
Record MIDIInput : Type := { input_id : string }.

(** The [useState] cells of the hook. *)
Record MIDIState : Type := {
  midiSupported : bool;
  midiAccess : option (list MIDIInput);
  midiInputs : list MIDIInput;
  selectedInput : option MIDIInput;
  activeNotes : list MIDINote.t;
  accuracy : list MIDIAccuracy;
  errorMessage : option string
}.

Definition useMIDI_init : MIDIState :=
  {| midiSupported := false; midiAccess := None; midiInputs := [];
     selectedInput := None; activeNotes := []; accuracy := []; errorMessage := None |}.

Definition setActiveNotes (f : list MIDINote.t -> list MIDINote.t) (st : MIDIState) : MIDIState :=
  {| midiSupported := midiSupported st; midiAccess := midiAccess st;
     midiInputs := midiInputs st; selectedInput := selectedInput st;
     activeNotes := f (activeNotes st); accuracy := accuracy st;
     errorMessage := errorMessage st |}.

Definition setAccuracy (f : list MIDIAccuracy -> list MIDIAccuracy) (st : MIDIState) : MIDIState :=
  {| midiSupported := midiSupported st; midiAccess := midiAccess st;
     midiInputs := midiInputs st; selectedInput := selectedInput st;
     activeNotes := activeNotes st; accuracy := f (accuracy st);
     errorMessage := errorMessage st |}.

(** [accuracy.filter(a => a.isCorrect).length] *)
Definition correctCount (log : list MIDIAccuracy) : nat :=
  List.length (filter isCorrect log).

Definition accuracyPercentage (log : list MIDIAccuracy) : num :=
  if (0 <? List.length log)%nat
  then round (of_nat (correctCount log) / of_nat (List.length log) * of_Z 100)
  else of_Z 0.

Definition averageTimingOffset (log : list MIDIAccuracy) : num :=
  if (0 <? List.length log)%nat
  then round (fold_left (fun sum a => sum + abs (timingOffset a)) log (of_Z 0)
              / of_nat (List.length log))
  else of_Z 0.

(** The predicate given to [options.expectedNotes.find]. *)
Definition matches (currentTime : num) (pressed : Z) (n : Expected.t) : bool :=
  (abs (Expected.start n - currentTime) <? of_Z 1) && (Expected.pitch n =? of_Z pressed).

Definition in_range (lo hi x : Z) : bool := ((lo <=? x) && (x <=? hi))%Z.

(** The record pushed for a press, matched or not. *)
Definition press_record (expected : list Expected.t) (currentTime : num)
    (pressed : Z) (timestamp : num) (dateNow : Z) : MIDIAccuracy :=
  match find (matches currentTime pressed) expected with
  | Some expectedNote =>
      {| noteId := Expected.id expectedNote;
         expectedNote := Expected.pitch expectedNote;
         actualNote := of_Z pressed;
         timingOffset := round ((timestamp - Expected.start expectedNote) * of_Z 1000);
         isCorrect := true |}
  | None =>
      {| noteId := "wrong-" ++ string_of_Z dateNow;
         expectedNote := of_Z (-1);
         actualNote := of_Z pressed;
         timingOffset := of_Z 0;
         isCorrect := false |}
  end.

(** [handleMIDIMessage]: [data] is [message.data]; [now] and [dateNow] are
    what [performance.now()] and [Date.now()] return during the call. *)
Definition handleMIDIMessage (options : UseMIDIOptions) (now : num) (dateNow : Z)
    (data : list Z) (st : MIDIState) : MIDIState :=
  match data with
  | command :: note :: velocity :: _ =>
      if in_range 144 159 command && (0 <? velocity)%Z then
        let st1 :=
          setActiveNotes
            (fun prev => (prev ++ [MIDINote.mk note velocity now])%list)
            st in
        match expectedNotes options, opt_currentTime options with
        | Some expected, Some currentTime =>
            setAccuracy
              (fun prev => (prev ++ [press_record expected currentTime note now dateNow])%list)
              st1
        | _, _ => st1
        end
      else if in_range 128 143 command || (in_range 144 159 command && (velocity =? 0)%Z) then
        setActiveNotes (filter (fun n => negb (MIDINote.note n =? note)%Z)) st
      else st
  | [command; note] =>
      (* velocity is undefined: only the note-off range can apply *)
      if in_range 128 143 command
      then setActiveNotes (filter (fun n => negb (MIDINote.note n =? note)%Z)) st
      else st
  | [command] =>
      (* note is undefined: the filter of the note-off branch keeps everything *)
      if in_range 128 143 command then setActiveNotes (filter (fun _ => true)) st else st
  | [] => st
  end.

Definition resetStats (st : MIDIState) : MIDIState :=
  setAccuracy (fun _ => []) st.

(* ================================================================== *)
(** ** useMetronome *)
(* ================================================================== *)

Module useMetronome.

(** What the hook does to the outside on a tick. *)
Inductive Effect : Type :=
| PlayClick                        (* clickSound.play() *)
| OnTick (beat : Z).               (* options.onTick(beat) *)

(** The callback handed to [setInterval]: its period and the variables
    of the render it closes over. *)
Record Interval : Type := {
  period : num;
  closed_currentBeat : Z;
  closed_onTick : bool             (* options.onTick is supplied *)
}.

(** The [useState] cells and refs of the hook. *)
Record t : Type := {
  isPlaying : bool;
  bpm : num;
  currentBeat : Z;
  audioRef : option string;
  intervalRef : option Interval;
  lastTickTimeRef : num
}.

(** The hook once mounted: the audio element is there and the effect on
    [options.tempo] has run [setBpm(options.tempo)], so [bpm] is the tempo
    given, also when it is 0 or [NaN] ([options.tempo || 74] is its value
    during the first render only).  [options.enabled] is left undefined. *)
Definition init (tempo : num) (audioSrc : string) : t :=
  {| isPlaying := false;
     bpm := tempo;
     currentBeat := 0;
     audioRef := Some audioSrc;
     intervalRef := None;
     lastTickTimeRef := of_Z 0 |}.

Definition calculateInterval (tempo : num) : num := of_Z 60000 / tempo.

(** [start], called from the render whose state is [m]. *)
Definition start (onTick : bool) (now : num) (m : t) : t :=
  if isPlaying m || match audioRef m with Some _ => false | None => true end then m
  else
    {| isPlaying := true;
       bpm := bpm m;
       currentBeat := 0;
       audioRef := audioRef m;
       intervalRef :=
         Some {| period := calculateInterval (bpm m);
                 closed_currentBeat := currentBeat m;
                 closed_onTick := onTick |};
       lastTickTimeRef := now |}.

(** One run of the interval callback. *)
Definition tick (iv : Interval) (now : num) (m : t) : t * list Effect :=
  match audioRef m with
  | None => (m, [])
  | Some _ =>
      ({| isPlaying := isPlaying m;
          bpm := bpm m;
          currentBeat := Z.rem (currentBeat m + 1) 4;
          audioRef := audioRef m;
          intervalRef := intervalRef m;
          lastTickTimeRef := now |},
       PlayClick :: (if closed_onTick iv then [OnTick (closed_currentBeat iv)] else []))
  end.

(** The timer fires: the installed callback runs, if there is one. *)
Definition fire (now : num) (m : t) : t * list Effect :=
  match intervalRef m with
  | Some iv => tick iv now m
  | None => (m, [])
  end.

Definition stop (m : t) : t :=
  if negb (isPlaying m) then m
  else
    {| isPlaying := false;
       bpm := bpm m;
       currentBeat := currentBeat m;
       audioRef := audioRef m;
       intervalRef := None;
       lastTickTimeRef := lastTickTimeRef m |}.

(** [n] firings in a row, the effects in order. *)
Fixpoint fires (n : nat) (now : num) (m : t) : t * list Effect :=
  match n with
  | O => (m, [])
  | S k =>
      let '(m1, e1) := fire now m in
      let '(m2, e2) := fires k now m1 in
      (m2, (e1 ++ e2)%list)
  end.

(** The beat the specification asks for. *)
Definition spec_next_beat (beatsPerMeasure beat : Z) : Z :=
  (Z.rem beat beatsPerMeasure + 1)%Z.

End useMetronome.

(* ================================================================== *)
(** ** Vocabulary of the specification *)
(* ================================================================== *)

(** The measures tile the span [from .. to]: each starts where the one
    before it ends. *)
Fixpoint contiguous (from : num) (ms : list MeasureTimestamp.t) (to : num) : Prop :=
  match ms with
  | [] => from = to
  | m :: rest => MeasureTimestamp.start m = from /\ contiguous (MeasureTimestamp.end_ m) rest to
  end.

(** The same for notes laid end to end by the running clock. *)
Fixpoint note_chain (from : num) (ns : list Note.t) (to : num) : Prop :=
  match ns with
  | [] => from = to
  | n :: rest => Note.start n = from /\ note_chain (Note.end_ n) rest to
  end.

(** A note whose duration is the conversion of some duration text at the
    score's tempo. *)
Definition converted (tempo : num) (n : Note.t) : Prop :=
  exists divisions durationText,
    Note.duration n = durationInSeconds tempo divisions durationText /\
    Note.end_ n = Note.start n + Note.duration n.

(** A note pushed while the measure numbered [measureNumber], with
    [divisions] per quarter, was being read. *)
Definition emitted_by (tempo : num) (measureNumber : option Z) (divisions : num)
    (n : Note.t) : Prop :=
  (exists durationText,
     Note.duration n = durationInSeconds tempo divisions durationText) /\
  Note.end_ n = Note.start n + Note.duration n /\
  Note.measure n = of_int measureNumber.

(** [p'] is [p] after some note entries: the notes [ns], each with the
    property [P], were pushed and the clock went over them one by one. *)
Definition advances (P : Note.t -> Prop) (p : Parser) (ns : list Note.t) (p' : Parser) : Prop :=
  notes p' = (notes p ++ ns)%list /\
  measures p' = measures p /\
  measureStartTime p' = measureStartTime p /\
  note_chain (currentTime p) ns (currentTime p') /\
  currentTime p' = fold_left (fun c n => c + Note.duration n) ns (currentTime p) /\
  Forall P ns.

(** The number a measure element is given. *)
Definition measure_number (el : MeasureEl) : option Z :=
  parseInt (or_default (el_number el) "1").



(** The number of entries with [isCorrect = true]. *)
Fixpoint number_correct (log : list MIDIAccuracy) : nat :=
  match log with
  | [] => 0
  | a :: rest => if isCorrect a then S (number_correct rest) else number_correct rest
  end.

(** The sum of [|timingOffset|] over all entries. *)
Fixpoint sum_abs_offsets (log : list MIDIAccuracy) : num :=
  match log with
  | [] => of_Z 0
  | a :: rest => abs (timingOffset a) + sum_abs_offsets rest
  end.

(** The states the hook can be in: it mounts with an empty log, and the log
    changes only through [handleMIDIMessage] and [resetStats]. *)
Inductive reachable : MIDIState -> Prop :=
| reach_mount st : accuracy st = [] -> reachable st
| reach_message options now dateNow data st :
    reachable st -> reachable (handleMIDIMessage options now dateNow data st)
| reach_reset st : reachable st -> reachable (resetStats st).

(* ================================================================== *)
(** ** Concrete scores *)
(* ================================================================== *)

Definition note_el (step octave durationText : string) : NoteEl :=
  {| el_rest := false; el_step := Some step; el_octave := Some octave; el_alter := None;
     el_duration := Some durationText; el_fingering := None |}.

Definition measure_el (number : string) (els : list NoteEl) : MeasureEl :=
  {| el_number := Some number; el_divisions := Some "4"; el_notes := els |}.

Definition score (tempoElement : option string) (els : list MeasureEl) : XmlDoc :=
  {| el_work_title := None; el_composer := None;
     el_sound_tempo := tempoElement; el_measures := els |}.

(** Two measures at tempo 60: two quarters, then a half note. *)
Definition two_measures : XmlDoc :=
  score (Some "60")
    [measure_el "1" [note_el "C" "5" "4"; note_el "E" "5" "4"];
     measure_el "2" [note_el "G" "4" "8"]].

(** A duration of -4 divisions: the clock runs backwards over the second note. *)
Definition backwards : XmlDoc :=
  score (Some "60") [measure_el "1" [note_el "C" "5" "4"; note_el "D" "5" "-4"]].

(** [<sound tempo="abc"/>] *)
Definition tempo_abc : XmlDoc :=
  score (Some "abc") [measure_el "1" [note_el "C" "5" "4"]].

(** A pickup measure carries the number 0. *)
Definition pickup : XmlDoc :=
  score (Some "60") [measure_el "0" [note_el "G" "4" "4"]; measure_el "1" [note_el "C" "5" "4"]].

(* ================================================================== *)
(** ** Concrete sessions *)
(* ================================================================== *)

(** The one expected note of the scenario, and the options of a press at
    transport time 0. *)
Definition expected_60 : Expected.t := Expected.mk "note-1-0" (Fin 60) (Fin 0) (Fin (5 # 6)).

Definition at_start : UseMIDIOptions :=
  {| expectedNotes := Some [expected_60]; opt_currentTime := Some (Fin 0) |}.

(** Note-on, channel 1, pitch 60 and pitch 61. *)
Definition press_60 : list Z := [144; 60; 100]%Z.
Definition press_61 : list Z := [144; 61; 100]%Z.

(* ================================================================== *)
(** ** More vocabulary: where a note comes from *)
(* ================================================================== *)

(** The note entry [e], read as entry number [i] of a measure while the
    clock shows [c], makes the parser push exactly the note [n]. *)
Definition emits (tempo : num) (measureNumber : option Z) (divisions : num)
    (e : NoteEl) (i : nat) (c : num) (n : Note.t) : Prop :=
  notes (process_note tempo measureNumber divisions
           {| currentTime := c; measureStartTime := c; notes := []; measures := [] |} e i)
  = [n].

(** The element is there and its text is not empty. *)
Definition present (x : option string) : bool :=
  match truthy_text x with
  | Some _ => true
  | None => false
  end.

(** A note entry that is no rest and has a step, an octave and a duration. *)
Definition complete (e : NoteEl) : bool :=
  negb (el_rest e) && present (el_step e) && present (el_octave e)
  && present (el_duration e).

(** All note entries of the document, measure after measure. *)
Definition all_note_entries (xmlDoc : XmlDoc) : list NoteEl :=
  List.concat (map el_notes (el_measures xmlDoc)).

(** Loads one after the other, [fetchAndParseMusicXML] run on each result. *)
Definition loads (results : list FetchResult) (st : MusicXMLState) : MusicXMLState :=
  fold_left fetchAndParseMusicXML results st.

(** The score of the last response with [ok] set, if there is one. *)
Fixpoint last_ok (results : list FetchResult) (acc : option MusicData.t) : option MusicData.t :=
  match results with
  | [] => acc
  | Response true _ body :: rest => last_ok rest (Some (parseMusicXML body))
  | _ :: rest => last_ok rest acc
  end.

(* ================================================================== *)
(** ** useMIDI: selectInput *)
(* ================================================================== *)

Definition setSelectedInput (input : option MIDIInput) (st : MIDIState) : MIDIState :=
  {| midiSupported := midiSupported st; midiAccess := midiAccess st;
     midiInputs := midiInputs st; selectedInput := input;
     activeNotes := activeNotes st; accuracy := accuracy st;
     errorMessage := errorMessage st |}.

(** [midiInputs.find(input => input.id === inputId)], then
    [setSelectedInput] if there is one. *)
Definition selectInput (inputId : string) (st : MIDIState) : MIDIState :=
  match find (fun input => String.eqb (input_id input) inputId) (midiInputs st) with
  | Some input => setSelectedInput (Some input) st
  | None => st
  end.

(* ================================================================== *)
(** ** useMetronome: setTempo, and runs of the hook *)
(* ================================================================== *)

Module MetronomeRun.

Import useMetronome.

(** [setTempo], called from the render whose state is [m]. *)
Definition setTempo (onTick : bool) (newTempo : num) (now : num) (m : t) : t :=
  if isPlaying m && match intervalRef m with Some _ => true | None => false end then
    {| isPlaying := isPlaying m;
       bpm := newTempo;
       currentBeat := currentBeat m;
       audioRef := audioRef m;
       intervalRef :=
         Some {| period := calculateInterval newTempo;
                 closed_currentBeat := currentBeat m;
                 closed_onTick := onTick |};
       lastTickTimeRef := now |}
  else
    {| isPlaying := isPlaying m;
       bpm := newTempo;
       currentBeat := currentBeat m;
       audioRef := audioRef m;
       intervalRef := intervalRef m;
       lastTickTimeRef := lastTickTimeRef m |}.

(** What can happen to a mounted metronome. *)
Inductive Op : Type :=
| Start (onTick : bool) (now : num)
| Stop
| SetTempo (onTick : bool) (newTempo : num) (now : num)
| Fire (now : num).

Definition step (m : t) (op : Op) : t :=
  match op with
  | Start onTick now => start onTick now m
  | Stop => stop m
  | SetTempo onTick newTempo now => setTempo onTick newTempo now m
  | Fire now => fst (fire now m)
  end.

Definition run (ops : list Op) (m : t) : t := fold_left step ops m.

(** The effects of one callback run: a click, then the callback if there
    is one, given the beat the timer closed over. *)
Definition tick_effects (iv : Interval) : list Effect :=
  PlayClick :: (if closed_onTick iv then [OnTick (closed_currentBeat iv)] else []).

End MetronomeRun.

(* ================================================================== *)
(** ** useYouTube *)
(* ================================================================== *)

Module useYouTube.

(** Calls on the YouTube player object. *)
Inductive Command : Type :=
| PlayVideo
| PauseVideo
| SeekTo (seconds : num) (allowSeekAhead : bool)
| SetPlaybackRate (rate : num)
| Mute
| UnMute
| SetVolume (value : num)
| LoadVideoById (videoId : string)
| Destroy.

(** What the hook does to the outside. *)
Inductive Effect : Type :=
| ToPlayer (c : Command)
| OnReady
| OnStateChange (state : num)
| OnTimeUpdate (time : num)
| OnError
| SetInterval (id : nat)           (* window.setInterval(poll, 100) gave [id] *)
| ClearInterval (id : nat).

(** Which optional callbacks [options] carries. *)
Record Options : Type := {
  has_onStateChange : bool;
  has_onReady : bool;
  has_onTimeUpdate : bool;
  has_onError : bool
}.

(** The [useState] cells and refs of the hook, and of the window the
    polling timers the hook has set and not cleared ([live]) and the id the
    next [setInterval] returns ([next]). *)
Record t : Type := {
  player : bool;                     (* the player state cell is set *)
  playerState : option num;
  currentTime : num;
  duration : num;
  isReady : bool;
  isMuted : bool;
  volume : num;
  timeUpdateInterval : option nat;
  playerRef : bool;                  (* playerRef.current is set *)
  live : list nat;
  next : nat
}.

Definition init (next : nat) : t :=
  {| player := false; playerState := None; currentTime := of_Z 0; duration := of_Z 0;
     isReady := false; isMuted := false; volume := of_Z 100;
     timeUpdateInterval := None; playerRef := false; live := []; next := next |}.

(** [if (timeUpdateInterval.current)]: the id a truthy ref holds. *)
Definition truthy_ref (r : option nat) : option nat :=
  match r with
  | Some (S k) => Some (S k)
  | _ => None
  end.

Definition clear (id : nat) (timers : list nat) : list nat :=
  filter (fun i => negb (Nat.eqb i id)) timers.

Definition when (b : bool) (e : Effect) : list Effect := if b then [e] else [].

Section Hook.

(** [window.YT.PlayerState.PLAYING], a constant of the player API. *)
Variable PLAYING : Z.
Variable options : Options.

(** [new window.YT.Player(...)] succeeded. *)
Definition created (y : t) : t :=
  {| player := player y; playerState := playerState y; currentTime := currentTime y;
     duration := duration y; isReady := isReady y; isMuted := isMuted y;
     volume := volume y; timeUpdateInterval := timeUpdateInterval y;
     playerRef := true; live := live y; next := next y |}.

(** [events.onReady]; [d] is what [getDuration()] returns.  Without a
    player in the ref the call of [getDuration] throws, after the first two
    state updates. *)
Definition onReady (d : num) (y : t) : t * list Effect :=
  if playerRef y then
    ({| player := true; playerState := playerState y; currentTime := currentTime y;
        duration := d; isReady := true; isMuted := isMuted y;
        volume := volume y; timeUpdateInterval := timeUpdateInterval y;
        playerRef := playerRef y; live := live y; next := next y |},
     when (has_onReady options) OnReady)
  else
    ({| player := false; playerState := playerState y; currentTime := currentTime y;
        duration := duration y; isReady := true; isMuted := isMuted y;
        volume := volume y; timeUpdateInterval := timeUpdateInterval y;
        playerRef := playerRef y; live := live y; next := next y |},
     []).

(** [events.onStateChange], [data] being [event.data]. *)
Definition onStateChange (data : num) (y : t) : t * list Effect :=
  let notify := when (has_onStateChange options) (OnStateChange data) in
  if data =? of_Z PLAYING then
    let cleared :=
      match truthy_ref (timeUpdateInterval y) with
      | Some old => (clear old (live y), [ClearInterval old])
      | None => (live y, [])
      end in
    ({| player := player y; playerState := Some data; currentTime := currentTime y;
        duration := duration y; isReady := isReady y; isMuted := isMuted y;
        volume := volume y; timeUpdateInterval := Some (next y);
        playerRef := playerRef y; live := next y :: fst cleared; next := S (next y) |},
     (notify ++ snd cleared ++ [SetInterval (next y)])%list)
  else
    match truthy_ref (timeUpdateInterval y) with
    | Some old =>
        ({| player := player y; playerState := Some data; currentTime := currentTime y;
            duration := duration y; isReady := isReady y; isMuted := isMuted y;
            volume := volume y; timeUpdateInterval := None;
            playerRef := playerRef y; live := clear old (live y); next := next y |},
         (notify ++ [ClearInterval old])%list)
    | None =>
        ({| player := player y; playerState := Some data; currentTime := currentTime y;
            duration := duration y; isReady := isReady y; isMuted := isMuted y;
            volume := volume y; timeUpdateInterval := timeUpdateInterval y;
            playerRef := playerRef y; live := live y; next := next y |},
         notify)
    end.

Definition setCurrentTime (time : num) (y : t) : t :=
  {| player := player y; playerState := playerState y; currentTime := time;
     duration := duration y; isReady := isReady y; isMuted := isMuted y;
     volume := volume y; timeUpdateInterval := timeUpdateInterval y;
     playerRef := playerRef y; live := live y; next := next y |}.

(** The timer [id] fires; [time] is what [getCurrentTime()] returns.  A
    timer that was cleared does not fire, and without a player in the ref
    the callback throws at once. *)
Definition poll (id : nat) (time : num) (y : t) : t * list Effect :=
  if existsb (Nat.eqb id) (live y) && playerRef y
  then (setCurrentTime time y, when (has_onTimeUpdate options) (OnTimeUpdate time))
  else (y, []).

Definition onError (y : t) : t * list Effect := (y, when (has_onError options) OnError).

Definition playVideo (y : t) : t * list Effect :=
  if playerRef y then (y, [ToPlayer PlayVideo]) else (y, []).

Definition pauseVideo (y : t) : t * list Effect :=
  if playerRef y then (y, [ToPlayer PauseVideo]) else (y, []).

Definition seekTo (seconds : num) (y : t) : t * list Effect :=
  if playerRef y
  then (setCurrentTime seconds y,
        ToPlayer (SeekTo seconds true) :: when (has_onTimeUpdate options) (OnTimeUpdate seconds))
  else (y, []).

Definition setPlaybackRate (rate : num) (y : t) : t * list Effect :=
  if playerRef y then (y, [ToPlayer (SetPlaybackRate rate)]) else (y, []).

Definition setIsMuted (b : bool) (y : t) : t :=
  {| player := player y; playerState := playerState y; currentTime := currentTime y;
     duration := duration y; isReady := isReady y; isMuted := b;
     volume := volume y; timeUpdateInterval := timeUpdateInterval y;
     playerRef := playerRef y; live := live y; next := next y |}.

Definition toggleMute (y : t) : t * list Effect :=
  if playerRef y then
    if isMuted y
    then (setIsMuted false y, [ToPlayer UnMute])
    else (setIsMuted true y, [ToPlayer Mute])
  else (y, []).

Definition setVolume (value : num) (y : t) : t * list Effect :=
  if playerRef y
  then ({| player := player y; playerState := playerState y; currentTime := currentTime y;
           duration := duration y; isReady := isReady y; isMuted := isMuted y;
           volume := value; timeUpdateInterval := timeUpdateInterval y;
           playerRef := playerRef y; live := live y; next := next y |},
        [ToPlayer (SetVolume value)])
  else (y, []).

Definition loadVideoById (videoId : string) (y : t) : t * list Effect :=
  if playerRef y then (y, [ToPlayer (LoadVideoById videoId)]) else (y, []).

(** The cleanup of the player effect: the timer is cleared, the ref keeps
    its id; the player, if there is one, is destroyed. *)
Definition cleanup (y : t) : t * list Effect :=
  let cleared :=
    match truthy_ref (timeUpdateInterval y) with
    | Some old => (clear old (live y), [ClearInterval old])
    | None => (live y, [])
    end in
  ({| player := player y; playerState := playerState y; currentTime := currentTime y;
      duration := duration y; isReady := isReady y; isMuted := isMuted y;
      volume := volume y; timeUpdateInterval := timeUpdateInterval y;
      playerRef := playerRef y; live := fst cleared; next := next y |},
   (snd cleared ++ (if playerRef y then [ToPlayer Destroy] else []))%list).

(** What can happen to the hook. *)
Inductive Event : Type :=
| Created
| Ready (d : num)
| StateChange (data : num)
| Poll (id : nat) (time : num)
| Failed
| CallPlay
| CallPause
| CallSeek (seconds : num)
| CallRate (rate : num)
| CallToggleMute
| CallVolume (value : num)
| CallLoad (videoId : string)
| Cleanup.

Definition step (y : t) (e : Event) : t * list Effect :=
  match e with
  | Created => (created y, [])
  | Ready d => onReady d y
  | StateChange data => onStateChange data y
  | Poll id time => poll id time y
  | Failed => onError y
  | CallPlay => playVideo y
  | CallPause => pauseVideo y
  | CallSeek seconds => seekTo seconds y
  | CallRate rate => setPlaybackRate rate y
  | CallToggleMute => toggleMute y
  | CallVolume value => setVolume value y
  | CallLoad videoId => loadVideoById videoId y
  | Cleanup => cleanup y
  end.

Fixpoint run (events : list Event) (y : t) : t * list Effect :=
  match events with
  | [] => (y, [])
  | e :: rest =>
      let '(y1, out1) := step y e in
      let '(y2, out2) := run rest y1 in
      (y2, (out1 ++ out2)%list)
  end.

End Hook.

(** The calls a component makes on the hook. *)
Definition is_call (e : Event) : bool :=
  match e with
  | CallPlay | CallPause | CallSeek _ | CallRate _ | CallToggleMute
  | CallVolume _ | CallLoad _ => true
  | _ => false
  end.

(** At most one polling timer is alive, and the ref holds it; ids are
    positive and below the next one the window hands out. *)
Definition one_poller (y : t) : Prop :=
  (live y = [] \/ exists id, timeUpdateInterval y = Some id /\ live y = [id]) /\
  (1 <= next y)%nat /\
  (forall id, timeUpdateInterval y = Some id -> (1 <= id < next y)%nat).

End useYouTube.

(* ================================================================== *)
(** ** More of [Math] and of the number operators *)
(* ================================================================== *)

Module JSMath.

(** [Math.floor] *)
Definition floor (a : num) : num :=
  match a with
  | Fin x => of_Z (Qfloor x)
  | _ => a
  end.

(** [Math.max(a, b)] and [Math.min(a, b)]: [NaN] as soon as a side is. *)
Definition max (a b : num) : num :=
  match a, b with
  | NaN, _ | _, NaN => NaN
  | _, _ => if a <=? b then b else a
  end.

Definition min (a b : num) : num :=
  match a, b with
  | NaN, _ | _, NaN => NaN
  | _, _ => if a <=? b then a else b
  end.

(** The integer part, towards zero. *)
Definition Qtrunc (x : Q) : Z := if Qneg x then Qceiling x else Qfloor x.

(** [a % b]: the remainder has the sign of [a]. *)
Definition rem (a b : num) : num :=
  match a, b with
  | NaN, _ | _, NaN => NaN
  | Inf _, _ => NaN
  | Fin x, Inf _ => Fin x
  | Fin x, Fin y =>
      if Qis_zero y then NaN
      else Fin (Qred (x - y * inject_Z (Qtrunc (x / y))))
  end.

(** A whole number inside a template literal; used on results of
    [Math.floor] only. *)
Definition string_of_whole (a : num) : string :=
  match a with
  | NaN => "NaN"
  | Inf false => "Infinity"
  | Inf true => "-Infinity"
  | Fin x => string_of_Z (Qfloor x)
  end.

End JSMath.

(* ================================================================== *)
(** ** YouTubePlayer: keyboard, time display, progress bar *)
(* ================================================================== *)

Module YouTubePlayer.

(** [handleKeyDown]: the hook call a key leads to, if any.
    [focusElsewhere] says that some element outside the player has the
    focus; [PLAYING] is [window.YT.PlayerState.PLAYING]. *)
Definition handleKeyDown (PLAYING : Z) (focusElsewhere : bool) (key : string)
    (playerState : option num) (currentTime duration : num) : list useYouTube.Event :=
  if focusElsewhere then []
  else if String.eqb key " " then
    match playerState with
    | Some s => if s =? of_Z PLAYING then [useYouTube.CallPause] else [useYouTube.CallPlay]
    | None => [useYouTube.CallPlay]
    end
  else if String.eqb key "ArrowLeft" then
    [useYouTube.CallSeek (JSMath.max (of_Z 0) (currentTime - of_Z 5))]
  else if String.eqb key "ArrowRight" then
    [useYouTube.CallSeek (JSMath.min duration (currentTime + of_Z 5))]
  else [].

(** A key press on a mounted player: the handler reads the hook's state and
    the call it makes runs on it. *)
Definition keyDown (PLAYING : Z) (options : useYouTube.Options) (focusElsewhere : bool)
    (key : string) (y : useYouTube.t) : useYouTube.t * list useYouTube.Effect :=
  useYouTube.run PLAYING options
    (handleKeyDown PLAYING focusElsewhere key (useYouTube.playerState y)
       (useYouTube.currentTime y) (useYouTube.duration y))
    y.

(** [formatTime]: seconds as [M:SS]. *)
Definition formatTime (seconds : num) : string :=
  let mins := JSMath.floor (seconds / of_Z 60) in
  let secs := JSMath.floor (JSMath.rem seconds (of_Z 60)) in
  JSMath.string_of_whole mins ++ ":" ++ (if secs <? of_Z 10 then "0" else "")
    ++ JSMath.string_of_whole secs.

(** [duration > 0 ? (currentTime / duration) * 100 : 0] *)
Definition progressPercentage (currentTime duration : num) : num :=
  if of_Z 0 <? duration then currentTime / duration * of_Z 100 else of_Z 0.

End YouTubePlayer.

(** PracticeControls: [(currentTime / duration) * 100], without a guard. *)
Definition PracticeControls_currentPercent (currentTime duration : num) : num :=
  currentTime / duration * of_Z 100.

(* ================================================================== *)
(** ** StatsPanel *)
(* ================================================================== *)

Module StatsPanel.

Definition getAccuracyColor (accuracy : num) : string :=
  if accuracy >=? of_Z 90 then "text-green-500"
  else if accuracy >=? of_Z 70 then "text-yellow-500"
  else "text-red-500".

Definition getTimingColor (timingOffset : num) : string :=
  let absOffset := abs timingOffset in
  if absOffset <=? of_Z 50 then "text-green-500"
  else if absOffset <=? of_Z 100 then "text-yellow-500"
  else "text-red-500".

(** The three texts of [getTimingDescription]: "(Perfect)",
    "<|offset|>ms ... (Early)" and "<offset>ms ... (Late)". *)
Inductive TimingDescription : Type :=
| Perfect
| Early (ms : num)
| Late (ms : num).

Definition getTimingDescription (timingOffset : num) : TimingDescription :=
  if timingOffset =? of_Z 0 then Perfect
  else if timingOffset <? of_Z 0 then Early (abs timingOffset)
  else Late timingOffset.

(** The four list items of the tips box, in the order they are rendered:
    practise slowly; you are late, play a little earlier; you are early,
    relax; well done, raise the tempo. *)
Inductive Tip : Type := PracticeSlowly | PlayEarlier | Relax | RaiseTempo.

Definition tips (isConnected : bool) (notesPlayed accuracy timingOffset : num) : list Tip :=
  if isConnected && (of_Z 10 <? notesPlayed) then
    ((if accuracy <? of_Z 80 then [PracticeSlowly] else [])
     ++ (if (of_Z 50 <? abs timingOffset) && (of_Z 0 <? timingOffset)
         then [PlayEarlier] else [])
     ++ (if (of_Z 50 <? abs timingOffset) && (timingOffset <? of_Z 0)
         then [Relax] else [])
     ++ (if (of_Z 90 <? accuracy) && (abs timingOffset <=? of_Z 50)
         then [RaiseTempo] else []))%list
  else [].

End StatsPanel.

(* ================================================================== *)
(** ** PianoKeyboard *)
(* ================================================================== *)

Module PianoKeyboard.

Definition WHITE_KEY_WIDTH : Z := 24.

Definition noteNames : list string :=
  ["C"; "C#"; "D"; "D#"; "E"; "F"; "F#"; "G"; "G#"; "A"; "A#"; "B"].

(** [s.includes('#')] *)
Fixpoint includes_sharp (s : string) : bool :=
  match s with
  | EmptyString => false
  | String c rest => Ascii.eqb c "#" || includes_sharp rest
  end.

Record Key : Type := {
  note : Z;
  noteName : string;
  isBlackKey : bool
}.

(** One turn of the loop that builds [keys].  [note % 12] is negative for
    a negative note, [noteNames] has nothing there, and [includes] on
    [undefined] throws: [None]. *)
Definition key_of (note : Z) : option Key :=
  if (Z.rem note 12 <? 0)%Z then None
  else
    match nth_error noteNames (Z.to_nat (Z.rem note 12)) with
    | Some name =>
        let octave := (note / 12 - 1)%Z in
        Some {| note := note;
                noteName := name ++ string_of_Z octave;
                isBlackKey := includes_sharp name |}
    | None => None
    end.

(** [for (let note = startNote; note <= endNote; note++)], [count] turns
    from [note] on. *)
Fixpoint keys_from (note : Z) (count : nat) : option (list Key) :=
  match count with
  | O => Some []
  | S k =>
      match key_of note, keys_from (note + 1) k with
      | Some key, Some rest => Some (key :: rest)
      | _, _ => None
      end
  end.

Definition keys (startNote endNote : Z) : option (list Key) :=
  keys_from startNote (Z.to_nat (endNote - startNote + 1)).

Definition whiteKeys (ks : list Key) : list Key :=
  filter (fun key => negb (isBlackKey key)) ks.

(** [whiteKeyCount * WHITE_KEY_WIDTH] *)
Definition totalWidth (ks : list Key) : Z :=
  (Z.of_nat (List.length (whiteKeys ks)) * WHITE_KEY_WIDTH)%Z.

(** The [left] of a white key:
    [keys.filter(k => !k.isBlackKey && k.note < key.note).length * WHITE_KEY_WIDTH]. *)
Definition whiteKeyLeft (ks : list Key) (key : Key) : Z :=
  (Z.of_nat
     (List.length
        (filter (fun k => negb (isBlackKey k) && (note k <? note key)%Z) ks))
   * WHITE_KEY_WIDTH)%Z.

End PianoKeyboard.

(* ================================================================== *)
(** ** SheetViewer: staves and duration symbols *)
(* ================================================================== *)

Module SheetViewer.

(** The VexFlow duration of a note, chosen by its length in seconds. *)
Definition vexDuration (duration : num) : string :=
  if duration >=? of_Z 1 then "w"
  else if duration >=? Fin (1 # 2) then "h"
  else if duration >=? Fin (1 # 4) then "q"
  else if duration >=? Fin (1 # 8) then "8"
  else "16".

Definition measuresPerLine : nat := 4.

(** [Math.ceil(totalMeasures / measuresPerLine)] *)
Definition lines (totalMeasures : nat) : nat :=
  ((totalMeasures + (measuresPerLine - 1)) / measuresPerLine)%nat.

(** A stave that is drawn: its measure number, its line, its place in the
    line. *)
Record Stave : Type := {
  measureNumber : nat;
  line : nat;
  column : nat
}.

(** The inner loop over [i], with its [break]. *)
Fixpoint staves_of_line (totalMeasures line : nat) (columns : list nat) : list Stave :=
  match columns with
  | [] => []
  | i :: rest =>
      let measureIndex := (line * measuresPerLine + i)%nat in
      let measureNumber := (measureIndex + 1)%nat in
      if (totalMeasures <? measureNumber)%nat then []
      else {| measureNumber := measureNumber; line := line; column := i |}
             :: staves_of_line totalMeasures line rest
  end.

(** The two loops that draw the staves. *)
Definition staves (totalMeasures : nat) : list Stave :=
  flat_map (fun line => staves_of_line totalMeasures line (seq 0 measuresPerLine))
           (seq 0 (lines totalMeasures)).

End SheetViewer.


(* ================================================================== *)
(** ** The parser and the aggregates in double arithmetic *)
(* ================================================================== *)

(** The same code as above, read with the rounding of [Binary64]: the
    running clock of the parser and the two aggregates of the accuracy log
    are where rounding shows. *)
Module InDoubles.

Definition accuracyPercentage (log : list MIDIAccuracy) : num :=
  if (0 <? List.length log)%nat
  then round (of_nat (correctCount log) ⊘ of_nat (List.length log) ⊗ of_Z 100)
  else of_Z 0.

Definition averageTimingOffset (log : list MIDIAccuracy) : num :=
  if (0 <? List.length log)%nat
  then round (fold_left (fun sum a => sum ⊕ abs (timingOffset a)) log (of_Z 0)
              ⊘ of_nat (List.length log))
  else of_Z 0.

(** [tempoElement ? parseInt(tempoElement.getAttribute('tempo') || '74', 10) : 74] *)
Definition extract_tempo (tempoElement : option string) : num :=
  match tempoElement with
  | Some attr => Binary64.of_int (parseInt (if nonempty attr then attr else "74"))
  | None => of_Z 74
  end.

(** [divisionsElement ? parseInt(divisionsElement.textContent || '4', 10) : 4] *)
Definition extract_divisions (divisionsElement : option string) : num :=
  match divisionsElement with
  | Some txt => Binary64.of_int (parseInt (if nonempty txt then txt else "4"))
  | None => of_Z 4
  end.

Definition durationInSeconds (tempo divisions : num) (durationText : string) : num :=
  let durationInDivisions := Binary64.of_int (parseInt durationText) in
  let durationInQuarters := durationInDivisions ⊘ divisions in
  durationInQuarters ⊗ (of_Z 60 ⊘ tempo).

(** The body of [noteElements.forEach((noteEl, noteIndex) => ...)]. *)
Definition process_note (tempo : num) (measureNumber : option Z) (divisions : num)
    (p : Parser) (noteEl : NoteEl) (noteIndex : nat) : Parser :=
  if el_rest noteEl then p
  else
    match truthy_text (el_step noteEl), truthy_text (el_octave noteEl) with
    | Some step, Some octave =>
        let baseNote :=
          of_int (pitchMap step) ⊕ Binary64.of_int (parseInt octave) ⊗ of_Z 12 in
        let alterValue :=
          match truthy_text (el_alter noteEl) with
          | Some alter => Binary64.of_int (parseInt alter)
          | None => of_Z 0
          end in
        let pitch := baseNote ⊕ alterValue in
        match truthy_text (el_duration noteEl) with
        | None => p
        | Some durationText =>
            let seconds := durationInSeconds tempo divisions durationText in
            let finger :=
              match truthy_text (el_fingering noteEl) with
              | Some f => Some (Binary64.of_int (parseInt f))
              | None => None
              end in
            let hand := if pitch <? of_Z 60 then left else right in
            let note :=
              Note.mk
                ("note-" ++ string_of_int measureNumber ++ "-"
                   ++ string_of_Z (Z.of_nat noteIndex))
                pitch
                (currentTime p)
                (currentTime p ⊕ seconds)
                seconds
                (Binary64.of_int measureNumber)
                hand
                finger in
            {| currentTime := currentTime p ⊕ seconds;
               measureStartTime := measureStartTime p;
               notes := (notes p ++ [note])%list;
               measures := measures p |}
        end
    | _, _ => p
    end.

(** The body of [measureElements.forEach((measureEl) => ...)]. *)
Definition process_measure (tempo : num) (p : Parser) (measureEl : MeasureEl) : Parser :=
  let measureNumber := parseInt (or_default (el_number measureEl) "1") in
  let p1 :=
    {| currentTime := currentTime p;
       measureStartTime := currentTime p;
       notes := notes p;
       measures := measures p |} in
  let divisions := extract_divisions (el_divisions measureEl) in
  let p2 :=
    forEach_from (process_note tempo measureNumber divisions) (el_notes measureEl) 0 p1 in
  {| currentTime := currentTime p2;
     measureStartTime := measureStartTime p2;
     notes := notes p2;
     measures :=
       (measures p2
          ++ [MeasureTimestamp.mk (Binary64.of_int measureNumber)
                (measureStartTime p2) (currentTime p2)])%list |}.

Definition process_measures (tempo : num) (els : list MeasureEl) (p : Parser) : Parser :=
  fold_left (process_measure tempo) els p.

Definition parseMusicXML (xmlDoc : XmlDoc) : MusicData.t :=
  let title := or_default (el_work_title xmlDoc) "Untitled" in
  let composer := or_default (el_composer xmlDoc) "Unknown" in
  let tempo := extract_tempo (el_sound_tempo xmlDoc) in
  let p := process_measures tempo (el_measures xmlDoc) parser_init in
  MusicData.mk (notes p) (measures p) title composer tempo.


(** What a pushed note owes to the entry [e] it was pushed for, read in a
    measure numbered [measureNumber] with [divisions] per quarter: its
    duration is the conversion of the entry's duration text at the tempo
    [tempo], it ends its duration after it starts, and it is filed under
    that number. *)
Definition from_entry (tempo : num) (measureNumber : option Z) (divisions : num)
    (e : NoteEl) (n : Note.t) : Prop :=
  el_rest e = false /\
  exists durationText,
    truthy_text (el_duration e) = Some durationText /\
    Note.duration n = durationInSeconds tempo divisions durationText /\
    Note.end_ n = Note.start n ⊕ Note.duration n /\
    Note.measure n = Binary64.of_int measureNumber.

(** The same for an entry [e] of the measure element [el], with the number
    and the divisions of [el]. *)
Definition converted_from (tempo : num) (el : MeasureEl) (e : NoteEl) (n : Note.t) : Prop :=
  In e (el_notes el) /\
  from_entry tempo (measure_number el) (extract_divisions (el_divisions el)) e n.

End InDoubles.

(** Two measures at tempo 150, one sixteenth and one eighth: a tenth and a
    fifth of a second. *)
Definition tenths : XmlDoc :=
  score (Some "150") [measure_el "1" [note_el "C" "5" "1"]; measure_el "2" [note_el "D" "5" "2"]].


(** The same message [n] times over, each handled at page time 5000 with
    the options of [at_start]. *)
Definition presses (n : nat) (data : list Z) (st : MIDIState) : MIDIState :=
  Nat.iter n (handleMIDIMessage at_start (Fin 5000) 1700000000000 data) st.

(** Twenty-three presses of the expected pitch, then seventeen of another. *)
Definition session_23_of_40 : MIDIState :=
  presses 17 press_61 (presses 23 press_60 useMIDI_init).

(** One press of the expected pitch, then two of another. *)
Definition session_1_of_3 : MIDIState :=
  presses 2 press_61 (presses 1 press_60 useMIDI_init).

(* ================================================================== *)
(** ** useMIDI: a session *)
(* ================================================================== *)

(** What happens to the hook from outside: a MIDI message arrives (handled
    by the [handleMIDIMessage] of the current render, with what the clocks
    read during the call), or [resetStats] is called. *)
Inductive MIDIEvent : Type :=
| Message (options : UseMIDIOptions) (now : num) (dateNow : Z) (data : list Z)
| ResetStats.

Definition midi_step (st : MIDIState) (ev : MIDIEvent) : MIDIState :=
  match ev with
  | Message options now dateNow data => handleMIDIMessage options now dateNow data st
  | ResetStats => resetStats st
  end.

Definition midi_run (evs : list MIDIEvent) (st : MIDIState) : MIDIState :=
  fold_left midi_step evs st.

(** The pitch byte of an event that is a scored press: a note-on with a
    positive velocity, handled while expected notes and a current time are
    given. *)
Definition scored_press (ev : MIDIEvent) : option Z :=
  match ev with
  | Message options _ _ (command :: note :: velocity :: _) =>
      if in_range 144 159 command && (0 <? velocity)%Z then
        match expectedNotes options, opt_currentTime options with
        | Some _, Some _ => Some note
        | _, _ => None
        end
      else None
  | _ => None
  end.

(** The pitch bytes of the scored presses since the last reset, oldest
    first; [acc] holds those seen so far. *)
Fixpoint scored_since_reset (evs : list MIDIEvent) (acc : list Z) : list Z :=
  match evs with
  | [] => acc
  | ResetStats :: rest => scored_since_reset rest []
  | ev :: rest =>
      scored_since_reset rest
        (match scored_press ev with
         | Some pressed => (acc ++ [pressed])%list
         | None => acc
         end)
  end.

(** A press of 60 that is scored, one of 61, a release, a reset, a press of 62. *)
Definition a_session : list MIDIEvent :=
  [Message at_start (Fin 5000) 1700000000000 press_60;
   Message at_start (Fin 5200) 1700000000200 press_61;
   Message at_start (Fin 5300) 1700000000300 [128; 60; 0]%Z;
   ResetStats;
   Message at_start (Fin 6000) 1700000001000 [144; 62; 90]%Z].

(* ================================================================== *)
(** ** SheetViewer: drawing, and what stops it *)
(* ================================================================== *)

(** The whole drawing runs inside one [try]: the first exception ends it,
    and what was drawn before stays.  The calls into VexFlow and the DOM are
    outside this repository; whether they return is left to parameters.
    Inside the repository one expression throws: [noteName.includes('#')]
    when [noteNames[note.pitch % 12]] is [undefined]. *)
Module SheetRender.

(** [noteNames[pitch % 12]] is defined: the remainder is a whole number
    from 0 to 11. *)
Definition nameable (pitch : num) : bool :=
  match JSMath.rem pitch (of_Z 12) with
  | Fin r => Qeq_bool r (inject_Z (Qfloor r)) && Qle_bool 0 r && Qle_bool r 11
  | _ => false
  end.

(** The hand filter of the grouping loop. *)
Definition shown (activeHand : Hand) (note : Note.t) : bool :=
  Hand_eqb activeHand both || Hand_eqb (Note.hand note) activeHand.

(** [notesByMeasure[measureNumber] || []]: the shown notes filed under the
    key of that number. *)
Definition notesByMeasure (notes : list Note.t) (activeHand : Hand) (measureNumber : nat)
    : list Note.t :=
  filter (fun note => shown activeHand note && (Note.measure note =? of_nat measureNumber))
         notes.

Section Drawing.

(** The calls that set up the renderer return. *)
Variable setup_ok : bool.
(** The calls that build and draw the stave of a measure return. *)
Variable stave_ok : nat -> bool.
(** The calls into VexFlow and the DOM for the notes of a measure return. *)
Variable notes_ok : nat -> bool.
Variables (notes : list Note.t) (activeHand : Hand).

(** The block [if (notes.length > 0) { ... }] of a measure runs to its end. *)
Definition block_completes (measureNumber : nat) : bool :=
  match notesByMeasure notes activeHand measureNumber with
  | [] => true
  | ns => forallb (fun note => nameable (Note.pitch note)) ns && notes_ok measureNumber
  end.

(** The turns of the two loops, run until one throws: the staves that are
    drawn.  The stave of a measure is drawn before its notes are. *)
Fixpoint draw (turns : list SheetViewer.Stave) : list SheetViewer.Stave :=
  match turns with
  | [] => []
  | s :: rest =>
      if stave_ok (SheetViewer.measureNumber s) then
        s :: (if block_completes (SheetViewer.measureNumber s) then draw rest else [])
      else []
  end.

Definition drawn (totalMeasures : nat) : list SheetViewer.Stave :=
  if setup_ok then draw (SheetViewer.staves totalMeasures) else [].

End Drawing.

End SheetRender.

(** Three measures; the only note of the second has a pitch that is not a
    number. *)
Definition a_note (measureNumber : Z) (pitch : num) : Note.t :=
  Note.mk "note" pitch (Fin 0) (Fin 1) (Fin 1) (of_Z measureNumber) right None.

Definition three_measure_notes : list Note.t :=
  [a_note 1 (Fin 60); a_note 2 NaN; a_note 3 (Fin 64)].

(* ================================================================== *)
(** ** The model on small inputs *)
(* ================================================================== *)

Example parseInt_74 : parseInt "74" = Some 74%Z.
Proof. reflexivity. Qed.

Example parseInt_prefix : parseInt "  -12px" = Some (-12)%Z.
Proof. reflexivity. Qed.

Example parseInt_abc : parseInt "abc" = None.
Proof. reflexivity. Qed.

Example string_of_Z_1700 : string_of_Z 1700 = "1700".
Proof. reflexivity. Qed.

Example scenario_parse :
  parseMusicXML scenario_doc =
  MusicData.mk
    [Note.mk "note-1-0" (Fin 60) (Fin 0) (Fin (5 # 6)) (Fin (5 # 6)) (Fin 1) right None]
    [MeasureTimestamp.mk (Fin 1) (Fin 0) (Fin (5 # 6))]
    "Nada Sousou" "Unknown" (Fin 72).
Proof. vm_compute. reflexivity. Qed.

Example press_60_when_page_clock_reads_zero :
  accuracy (handleMIDIMessage at_start (Fin 0) 1700000000000 press_60 useMIDI_init) =
  [{| noteId := "note-1-0"; expectedNote := Fin 60; actualNote := Fin 60;
      timingOffset := Fin 0; isCorrect := true |}].
Proof. reflexivity. Qed.

Example scenario_press_61 :
  accuracy (handleMIDIMessage at_start (Fin 0) 1700000000000 press_61 useMIDI_init) =
  [{| noteId := "wrong-1700000000000"; expectedNote := Fin (-1); actualNote := Fin 61;
      timingOffset := Fin 0; isCorrect := false |}].
Proof. reflexivity. Qed.

Example release_60 :
  activeNotes
    (handleMIDIMessage at_start (Fin 9) 1700000000000 [128; 60; 0]%Z
       (handleMIDIMessage at_start (Fin 0) 1700000000000 press_60 useMIDI_init)) = [].
Proof. reflexivity. Qed.

(* ================================================================== *)
(** ** Facts about numbers *)
(* ================================================================== *)

Module NumFacts.

Lemma Qltb_iff (a b : Q) : Qltb a b = true <-> (a < b)%Q.
Proof.
  unfold Qltb. rewrite negb_true_iff, <- not_true_iff_false, Qle_bool_iff.
  split; [apply Qnot_le_lt | apply Qlt_not_le].
Qed.

Lemma Qis_zero_iff (q : Q) : Qis_zero q = true <-> (q == 0)%Q.
Proof. unfold Qis_zero. apply Qeq_bool_iff. Qed.

Lemma leb_refl (a : num) : a <> NaN -> (a <=? a) = true.
Proof.
  destruct a as [|[]|x]; simpl; try easy.
  intros _. apply Qle_bool_iff, Qle_refl.
Qed.

Lemma leb_not_NaN_l (a b : num) : (a <=? b) = true -> a <> NaN.
Proof. destruct a; simpl; easy. Qed.

Lemma leb_not_NaN_r (a b : num) : (a <=? b) = true -> b <> NaN.
Proof. destruct a as [|[]|x], b as [|[]|y]; simpl; easy. Qed.

Lemma leb_trans (a b c : num) :
  (a <=? b) = true -> (b <=? c) = true -> (a <=? c) = true.
Proof.
  destruct a as [|[]|x], b as [|[]|y], c as [|[]|z]; simpl; try easy.
  rewrite !Qle_bool_iff. apply Qle_trans.
Qed.

Lemma leb_ltb_false (y x t : num) :
  (y <=? x) = true -> (x <? t) = true -> (t <=? y) = false.
Proof.
  destruct y as [|[]|y], x as [|[]|x], t as [|[]|t]; simpl; try easy.
  rewrite Qle_bool_iff, Qltb_iff, <- not_true_iff_false, Qle_bool_iff.
  intros H1 H2 H3. lra.
Qed.

Lemma eqb_refl (a : num) : a <> NaN -> (a =? a) = true.
Proof.
  destruct a as [|[]|x]; simpl; try easy.
  intros _. apply Qeq_bool_iff. reflexivity.
Qed.

#[export] Instance equiv_Equivalence : Equivalence JS.equiv.
Proof.
  split.
  - intros [| |x]; simpl; auto. reflexivity.
  - intros [| |x] [| |y]; simpl; auto. intros H; now symmetry.
  - intros [| |x] [| |y] [| |z]; simpl; try easy.
    + congruence.
    + intros H1 H2; now rewrite H1.
Qed.

#[export] Instance add_Proper : Proper (JS.equiv ==> JS.equiv ==> JS.equiv) JS.add.
Proof.
  intros [|[]|x] [|[]|x'] Hx [|[]|y] [|[]|y'] Hy; cbn [JS.equiv JS.add JS.mul JS.div JS.abs JS.round JS.of_Z] in *; try easy.
  rewrite !Qred_correct, Hx, Hy. reflexivity.
Qed.

Lemma add_comm (a b : num) : a + b ~= b + a.
Proof.
  destruct a as [|[]|x], b as [|[]|y]; cbn [JS.equiv JS.add]; try easy.
  rewrite !Qred_correct. ring.
Qed.

Lemma add_assoc (a b c : num) : a + (b + c) ~= (a + b) + c.
Proof.
  destruct a as [|[]|x], b as [|[]|y], c as [|[]|z]; cbn [JS.equiv JS.add]; try easy.
  rewrite !Qred_correct. ring.
Qed.

Lemma add_0_l (a : num) : of_Z 0 + a ~= a.
Proof.
  destruct a as [|[]|x]; cbn [JS.equiv JS.add JS.of_Z]; try easy.
  rewrite Qred_correct. unfold inject_Z. ring.
Qed.

Lemma add_0_r (a : num) : a + of_Z 0 ~= a.
Proof. rewrite add_comm. apply add_0_l. Qed.

Lemma Qis_zero_Proper (x y : Q) : (x == y)%Q -> Qis_zero x = Qis_zero y.
Proof.
  intros H. apply eq_true_iff_eq. rewrite !Qis_zero_iff. now rewrite H.
Qed.

Lemma Qneg_Proper (x y : Q) : (x == y)%Q -> Qneg x = Qneg y.
Proof.
  intros H. unfold Qneg. apply eq_true_iff_eq. rewrite !Qltb_iff. now rewrite H.
Qed.

Ltac q_tests :=
  repeat match goal with
  | H : (?x == ?y)%Q |- context [Qis_zero ?x] => rewrite (Qis_zero_Proper x y H)
  | H : (?x == ?y)%Q |- context [Qneg ?x] => rewrite (Qneg_Proper x y H)
  end;
  repeat match goal with
  | |- context [Qis_zero ?x] => destruct (Qis_zero x)
  end;
  cbn [JS.equiv]; try easy.

#[export] Instance div_Proper : Proper (JS.equiv ==> JS.equiv ==> JS.equiv) JS.div.
Proof.
  intros [| |x] [| |x'] Hx [| |y] [| |y'] Hy; cbn [JS.equiv JS.add JS.mul JS.div JS.abs JS.round JS.of_Z] in *; try easy; subst; q_tests.
  rewrite !Qred_correct, Hx, Hy. reflexivity.
Qed.

#[export] Instance mul_Proper : Proper (JS.equiv ==> JS.equiv ==> JS.equiv) JS.mul.
Proof.
  intros [| |x] [| |x'] Hx [| |y] [| |y'] Hy; cbn [JS.equiv JS.add JS.mul JS.div JS.abs JS.round JS.of_Z] in *; try easy; subst; q_tests.
  rewrite !Qred_correct, Hx, Hy. reflexivity.
Qed.

#[export] Instance abs_Proper : Proper (JS.equiv ==> JS.equiv) JS.abs.
Proof.
  intros [| |x] [| |x'] Hx; cbn [JS.equiv JS.add JS.mul JS.div JS.abs JS.round JS.of_Z] in *; try easy. now apply Qabs_wd.
Qed.

(** [Math.round] sends equal numbers to the same spelling. *)
Lemma round_equiv (a b : num) : a ~= b -> round a = round b.
Proof.
  destruct a as [| |x], b as [| |y]; cbn [JS.equiv JS.round]; try easy.
  - now intros ->.
  - intros H. f_equal. apply Qfloor_comp. now rewrite H.
Qed.

#[export] Instance opp_Proper : Proper (JS.equiv ==> JS.equiv) JS.opp.
Proof.
  intros [|[]|x] [|[]|y] H; cbn [JS.equiv JS.opp] in *; try easy.
  rewrite !Qred_correct. now rewrite H.
Qed.

#[export] Instance sub_Proper : Proper (JS.equiv ==> JS.equiv ==> JS.equiv) JS.sub.
Proof. intros a a' Ha b b' Hb. unfold JS.sub. now rewrite Ha, Hb. Qed.

Lemma add_sub_cancel (c s : num) : finite c -> finite s -> (c + s) - c ~= s.
Proof.
  destruct c as [| |x], s as [| |y];
    cbn [finite JS.equiv JS.add JS.sub JS.opp]; try easy. intros _ _.
  rewrite !Qred_correct. ring.
Qed.

End NumFacts.

Import NumFacts.

(* ================================================================== *)
(** ** The parser's clock *)
(* ================================================================== *)

Lemma note_chain_app a ns b ns' c :
  note_chain a ns b -> note_chain b ns' c -> note_chain a (ns ++ ns') c.
Proof.
  revert a. induction ns as [|n ns IH]; simpl; intros a.
  - now intros ->.
  - intros [H1 H2] H3. split; [assumption | now apply IH].
Qed.

Lemma contiguous_app a ms b ms' c :
  contiguous a ms b -> contiguous b ms' c -> contiguous a (ms ++ ms') c.
Proof.
  revert a. induction ms as [|m ms IH]; simpl; intros a.
  - now intros ->.
  - intros [H1 H2] H3. split; [assumption | now apply IH].
Qed.

Lemma emitted_by_converted tempo measureNumber divisions n :
  emitted_by tempo measureNumber divisions n -> converted tempo n.
Proof. intros ([txt H] & E & _). exists divisions, txt. now split. Qed.

Section Advances.

Variable P : Note.t -> Prop.

Lemma advances_refl p : advances P p [] p.
Proof.
  unfold advances. simpl. rewrite app_nil_r. repeat split; constructor.
Qed.

Lemma advances_trans p ns p' ns' p'' :
  advances P p ns p' -> advances P p' ns' p'' -> advances P p (ns ++ ns') p''.
Proof.
  intros (N1 & M1 & S1 & C1 & F1 & A1) (N2 & M2 & S2 & C2 & F2 & A2).
  unfold advances. repeat split.
  - now rewrite N2, N1, app_assoc.
  - congruence.
  - congruence.
  - eapply note_chain_app; eassumption.
  - now rewrite fold_left_app, <- F1.
  - apply Forall_app; now split.
Qed.

End Advances.

Section OneMeasure.

Variables (tempo : num) (measureNumber : option Z) (divisions : num).

Lemma process_note_advances p noteEl noteIndex :
  exists ns,
    advances (emitted_by tempo measureNumber divisions) p ns
      (process_note tempo measureNumber divisions p noteEl noteIndex).
Proof.
  unfold process_note.
  destruct (el_rest noteEl); [exists []; apply advances_refl|].
  destruct (truthy_text (el_step noteEl)); [|exists []; apply advances_refl].
  destruct (truthy_text (el_octave noteEl)); [|exists []; apply advances_refl].
  destruct (truthy_text (el_duration noteEl)) as [txt|]; [|exists []; apply advances_refl].
  eexists [_]. unfold advances; cbn. repeat split.
  repeat constructor; cbn; try reflexivity. now exists txt.
Qed.

Lemma process_note_rest p noteEl noteIndex :
  el_rest noteEl = true ->
  process_note tempo measureNumber divisions p noteEl noteIndex = p.
Proof. unfold process_note. now intros ->. Qed.

Lemma forEach_notes_advances els :
  forall i p, exists ns,
    advances (emitted_by tempo measureNumber divisions) p ns
      (forEach_from (process_note tempo measureNumber divisions) els i p).
Proof.
  induction els as [|e els IH]; intros i p; simpl.
  - exists []. apply advances_refl.
  - destruct (process_note_advances p e i) as [ns1 H1].
    destruct (IH (S i) (process_note tempo measureNumber divisions p e i)) as [ns2 H2].
    exists (ns1 ++ ns2)%list. eapply advances_trans; eassumption.
Qed.

Lemma forEach_notes_rests els :
  Forall (fun e => el_rest e = true) els ->
  forall i p, forEach_from (process_note tempo measureNumber divisions) els i p = p.
Proof.
  induction 1 as [|e els He _ IH]; intros i p; simpl; [reflexivity|].
  now rewrite process_note_rest, IH.
Qed.

End OneMeasure.

(** One measure element: the notes it emits and the measure it records. *)
Lemma process_measure_spec tempo p el :
  exists ns,
    notes (process_measure tempo p el) = (notes p ++ ns)%list /\
    measures (process_measure tempo p el) =
      (measures p ++
         [MeasureTimestamp.mk (of_int (measure_number el))
            (currentTime p) (currentTime (process_measure tempo p el))])%list /\
    note_chain (currentTime p) ns (currentTime (process_measure tempo p el)) /\
    currentTime (process_measure tempo p el) =
      fold_left (fun c n => c + Note.duration n) ns (currentTime p) /\
    Forall (emitted_by tempo (measure_number el) (extract_divisions (el_divisions el))) ns /\
    (Forall (fun e => el_rest e = true) (el_notes el) -> ns = []).
Proof.
  unfold process_measure. fold (measure_number el).
  set (p1 := {| currentTime := currentTime p; measureStartTime := currentTime p;
                notes := notes p; measures := measures p |}).
  destruct (forEach_notes_advances tempo (measure_number el)
              (extract_divisions (el_divisions el)) (el_notes el) 0 p1)
    as (ns & N & M & S & C & F & A).
  exists ns. cbn. rewrite N, M, S. repeat split; try assumption.
  intros R. rewrite (forEach_notes_rests _ _ _ _ R) in N. cbn in N.
  apply (app_inv_head (notes p)). now rewrite app_nil_r.
Qed.

(** A run of measure elements: notes end to end, measures end to end. *)
Lemma process_measures_spec tempo els :
  forall p, exists ns ms,
    notes (process_measures tempo els p) = (notes p ++ ns)%list /\
    measures (process_measures tempo els p) = (measures p ++ ms)%list /\
    List.length ms = List.length els /\
    note_chain (currentTime p) ns (currentTime (process_measures tempo els p)) /\
    contiguous (currentTime p) ms (currentTime (process_measures tempo els p)) /\
    Forall (converted tempo) ns.
Proof.
  unfold process_measures.
  induction els as [|el els IH]; intros p; simpl.
  - exists [], []. rewrite !app_nil_r. repeat split; constructor.
  - destruct (process_measure_spec tempo p el) as (ns1 & N1 & M1 & C1 & _ & A1 & _).
    destruct (IH (process_measure tempo p el)) as (ns2 & ms2 & N2 & M2 & L2 & C2 & K2 & A2).
    exists (ns1 ++ ns2)%list,
      (MeasureTimestamp.mk (of_int (measure_number el)) (currentTime p)
         (currentTime (process_measure tempo p el)) :: ms2).
    repeat split.
    + now rewrite N2, N1, app_assoc.
    + rewrite M2, M1, <- app_assoc. reflexivity.
    + simpl. now rewrite L2.
    + eapply note_chain_app; eassumption.
    + assumption.
    + apply Forall_app; split; [|assumption].
      eapply Forall_impl; [|exact A1]. intros n. apply emitted_by_converted.
Qed.



Lemma contiguous_last a ms m b :
  contiguous a (ms ++ [m]) b -> MeasureTimestamp.end_ m = b.
Proof.
  revert a. induction ms as [|m0 ms IH]; simpl; intros a [_ H].
  - exact H.
  - eapply IH; eassumption.
Qed.

(** The parse of a whole document, in the vocabulary above. *)
Lemma parseMusicXML_spec xmlDoc :
  exists finalTime,
    note_chain (of_Z 0) (MusicData.notes (parseMusicXML xmlDoc)) finalTime /\
    contiguous (of_Z 0) (MusicData.measures (parseMusicXML xmlDoc)) finalTime /\
    List.length (MusicData.measures (parseMusicXML xmlDoc)) = List.length (el_measures xmlDoc) /\
    Forall (converted (MusicData.tempo (parseMusicXML xmlDoc)))
           (MusicData.notes (parseMusicXML xmlDoc)).
Proof.
  unfold parseMusicXML; cbn.
  destruct (process_measures_spec (extract_tempo (el_sound_tempo xmlDoc))
              (el_measures xmlDoc) parser_init)
    as (ns & ms & N & M & L & C & K & A).
  cbn in N, M, C, K. rewrite N, M. eauto.
Qed.

Lemma fetch_ok_sets_musicData st statusText body :
  fetchAndParseMusicXML st (Response true statusText body) =
  {| loading := false; error := None; musicData := Some (parseMusicXML body) |}.
Proof. reflexivity. Qed.

(* ------------------------------------------------------------------ *)
(** *** Measures *)

(* ------------------------------------------------------------------ *)
(** *** Active notes *)

Lemma note_chain_ends a ns b :
  note_chain a ns b ->
  Forall (fun n => (Note.start n <=? Note.end_ n) = true) ns ->
  a <> NaN ->
  (a <=? b) = true /\ forall n, In n ns -> (Note.end_ n <=? b) = true.
Proof.
  revert a. induction ns as [|n ns IH]; simpl; intros a.
  - intros <- _ Ha. split; [now apply leb_refl | contradiction].
  - intros [Hs Hc] Hall Ha. inversion Hall as [|? ? Hn Hrest]; subst.
    destruct (IH _ Hc Hrest (leb_not_NaN_r _ _ Hn)) as [Hle Hin].
    split.
    + eapply leb_trans; eassumption.
    + intros n' [<- | Hn']; [exact Hle | now apply Hin].
Qed.

Lemma filter_nil_iff {A} (f : A -> bool) (l : list A) :
  (forall x, In x l -> f x = false) -> filter f l = [].
Proof.
  induction l as [|x l IH]; simpl; intros H; [reflexivity|].
  rewrite (H x (or_introl eq_refl)). apply IH. intros y Hy. apply H. now right.
Qed.

(** C4, as the code has it.  The active notes at [t] are exactly the notes
    with [start <= t <= end], both ends included.  Past the end of the final
    measure nothing is active, provided no parsed note ends before it starts
    (no negative or [NaN] duration). *)
Theorem active_notes_closed_interval :
  (forall (d : MusicData.t) (t : num) (n : Note.t),
     In n (getActiveNotesAtTime (Some d) t) <->
     In n (MusicData.notes d) /\
     (Note.start n <=? t) = true /\ (t <=? Note.end_ n) = true) /\
  (forall (xmlDoc : XmlDoc) (t : num) ms m,
     let d := parseMusicXML xmlDoc in
     (forall n, In n (MusicData.notes d) -> (Note.start n <=? Note.end_ n) = true) ->
     MusicData.measures d = (ms ++ [m])%list ->
     (MeasureTimestamp.end_ m <? t) = true ->
     getActiveNotesAtTime (Some d) t = []).
Proof.
  split.
  - intros d t n. unfold getActiveNotesAtTime, geb.
    rewrite filter_In, andb_true_iff. tauto.
  - intros xmlDoc t ms m d Hok Hms Ht.
    destruct (parseMusicXML_spec xmlDoc) as (T & C & K & _).
    fold d in C, K. rewrite Hms in K.
    apply contiguous_last in K. subst T.
    assert (H0 : of_Z 0 <> NaN) by discriminate.
    destruct (note_chain_ends _ _ _ C (proj2 (Forall_forall _ _) Hok) H0) as [_ Hends].
    unfold getActiveNotesAtTime. apply filter_nil_iff. intros n Hn.
    apply andb_false_iff. right.
    eapply leb_ltb_false; [apply Hends, Hn | exact Ht].
Qed.

Lemma active_notes_closed_interval_witness :
  getActiveNotesAtTime (Some (parseMusicXML two_measures)) (Fin 5) = [].
Proof.
  apply (proj2 active_notes_closed_interval two_measures (Fin 5)
           [MeasureTimestamp.mk (Fin 1) (Fin 0) (Fin 2)]
           (MeasureTimestamp.mk (Fin 2) (Fin 2) (Fin 4))).
  - intros n Hn. vm_compute in Hn.
    destruct Hn as [<- | [<- | [<- | []]]]; reflexivity.
  - reflexivity.
  - reflexivity.
Defined.

(** C4, as written, fails: with a duration of -4 divisions the first note is
    still sounding at t = 1/2 although the only measure ended at 0. *)
Lemma active_notes_past_final_measure_counterexample :
  ~ (forall (xmlDoc : XmlDoc) (t : num) ms m,
       MusicData.measures (parseMusicXML xmlDoc) = (ms ++ [m])%list ->
       (MeasureTimestamp.end_ m <? t) = true ->
       getActiveNotesAtTime (Some (parseMusicXML xmlDoc)) t = []).
Proof.
  intros H.
  specialize (H backwards (Fin (1 # 2)) []
                (MeasureTimestamp.mk (Fin 1) (Fin 0) (Fin 0)) eq_refl eq_refl).
  vm_compute in H. discriminate H.
Qed.

(* ------------------------------------------------------------------ *)
(** *** The tempo *)

(* ------------------------------------------------------------------ *)
(** *** The current measure *)

Lemma getCurrentMeasureAtTime_cases (d : MusicData.t) (time : num) :
  let hit m := (MeasureTimestamp.start m <=? time) && (time <=? MeasureTimestamp.end_ m) in
  (forall m, find hit (MusicData.measures d) = Some m ->
     truthy (MeasureTimestamp.measure m) = true ->
     getCurrentMeasureAtTime (Some d) time = MeasureTimestamp.measure m) /\
  (find hit (MusicData.measures d) = None ->
     getCurrentMeasureAtTime (Some d) time = of_Z 1).
Proof.
  unfold getCurrentMeasureAtTime, geb. split.
  - intros m -> ->. reflexivity.
  - intros ->. reflexivity.
Qed.

(** C9 on a score with a pickup measure.  At t = 1/2 the first measure with
    [start <= t <= end] is the pickup, number 0; [getCurrentMeasureAtTime]
    answers 1, while the sheet viewer's own lookup answers 0. *)
Theorem pickup_measure_reported_as_one :
  let d := parseMusicXML pickup in
  let t := Fin (1 # 2) in
  MusicData.measures d =
    [MeasureTimestamp.mk (Fin 0) (Fin 0) (Fin 1); MeasureTimestamp.mk (Fin 1) (Fin 1) (Fin 2)] /\
  find (fun m => (t >=? MeasureTimestamp.start m) && (t <=? MeasureTimestamp.end_ m))
       (MusicData.measures d) = Some (MeasureTimestamp.mk (Fin 0) (Fin 0) (Fin 1)) /\
  getCurrentMeasureAtTime (Some d) t = Fin 1 /\
  SheetViewer_currentMeasure (Some d) t (Fin 1) = Fin 0.
Proof. repeat split. Qed.

(* ------------------------------------------------------------------ *)
(** *** handleMIDIMessage *)







(** C5 on the scenario of the specification.  The expected note has pitch 60
    and starts at 0; pitch 60 is pressed at transport time 0.  The record is
    correct and its offset is [round((now - 0) * 1000)], [now] being the
    reading of [performance.now()]: five seconds after page load that is
    5,000,000, far beyond the one-second matching window. *)
Theorem exact_press_timing_offset :
  (forall now dateNow st,
     accuracy (handleMIDIMessage at_start now dateNow press_60 st) =
     (accuracy st ++
        [{| noteId := "note-1-0"; expectedNote := Fin 60; actualNote := Fin 60;
            timingOffset := round ((now - Fin 0) * of_Z 1000);
            isCorrect := true |}])%list) /\
  round ((Fin 5000 - Fin 0) * of_Z 1000) = Fin 5000000 /\
  (of_Z 1000 <? abs (Fin 5000000)) = true.
Proof. repeat split. Qed.

(* ------------------------------------------------------------------ *)
(** *** resetStats *)

(** C8.  [resetStats] empties the log; the held notes and every other cell
    of the hook are as before. *)
Theorem resetStats_clears_only_the_log (st : MIDIState) :
  accuracy (resetStats st) = [] /\
  activeNotes (resetStats st) = activeNotes st /\
  midiSupported (resetStats st) = midiSupported st /\
  midiAccess (resetStats st) = midiAccess st /\
  midiInputs (resetStats st) = midiInputs st /\
  selectedInput (resetStats st) = selectedInput st /\
  errorMessage (resetStats st) = errorMessage st.
Proof. repeat split. Qed.

(* ------------------------------------------------------------------ *)
(** *** Aggregates of the log *)

Lemma correctCount_number_correct log : correctCount log = number_correct log.
Proof.
  unfold correctCount. induction log as [|a log IH]; simpl; [reflexivity|].
  destruct (isCorrect a); simpl; now rewrite IH.
Qed.

Lemma of_nat_nonzero n : (0 < n)%nat -> Qis_zero (inject_Z (Z.of_nat n)) = false.
Proof.
  intros H. apply not_true_iff_false. rewrite Qis_zero_iff.
  unfold Qeq; simpl. lia.
Qed.

Lemma press_record_wrong_offset expected t pressed now dateNow :
  isCorrect (press_record expected t pressed now dateNow) = false ->
  timingOffset (press_record expected t pressed now dateNow) = of_Z 0.
Proof. unfold press_record. destruct (find _ _); cbn; [discriminate | reflexivity]. Qed.

Lemma handleMIDIMessage_log options now dateNow data st :
  accuracy (handleMIDIMessage options now dateNow data st) = accuracy st \/
  exists expected t pressed,
    accuracy (handleMIDIMessage options now dateNow data st) =
    (accuracy st ++ [press_record expected t pressed now dateNow])%list.
Proof.
  unfold handleMIDIMessage.
  destruct data as [|command [|pressed [|velocity more]]]; try (left; reflexivity).
  - destruct (in_range 128 143 command); left; reflexivity.
  - destruct (in_range 128 143 command); left; reflexivity.
  - destruct (in_range 144 159 command && (0 <? velocity)%Z).
    + destruct (expectedNotes options) as [expected|]; [|left; reflexivity].
      destruct (opt_currentTime options) as [t|]; [|left; reflexivity].
      right. exists expected, t, pressed. reflexivity.
    + destruct (_ || _); left; reflexivity.
Qed.

Lemma reachable_wrong_offsets st :
  reachable st ->
  forall a, In a (accuracy st) -> isCorrect a = false -> timingOffset a = of_Z 0.
Proof.
  induction 1 as [st E | options now dateNow data st _ IH | st _ _]; intros a Ha Hc.
  - rewrite E in Ha. contradiction.
  - destruct (handleMIDIMessage_log options now dateNow data st)
      as [E | (expected & t & pressed & E)]; rewrite E in Ha.
    + now apply IH.
    + apply in_app_or in Ha. destruct Ha as [Ha | [<- | []]].
      * now apply IH.
      * now apply press_record_wrong_offset.
  - contradiction.
Qed.

(* ------------------------------------------------------------------ *)
(** *** The metronome *)

Lemma tick_effect iv now m a :
  useMetronome.audioRef m = Some a ->
  useMetronome.currentBeat (fst (useMetronome.tick iv now m))
    = Z.rem (useMetronome.currentBeat m + 1) 4 /\
  snd (useMetronome.tick iv now m)
    = useMetronome.PlayClick ::
        (if useMetronome.closed_onTick iv
         then [useMetronome.OnTick (useMetronome.closed_currentBeat iv)]
         else []).
Proof. unfold useMetronome.tick. intros ->. split; reflexivity. Qed.

(** C6 on a metronome started at 120 BPM with an [onTick] callback.  The
    beat after each of the first four ticks is 1, 2, 3, 0 (the code computes
    [(prev + 1) % 4]), where the specification's formula gives 4 after 3;
    the callback receives the beat of the render that created the timer,
    0 on every tick, not the new beat. *)
Theorem metronome_four_ticks :
  let m0 := useMetronome.start true (Fin 0) (useMetronome.init (Fin 120) "click.mp3") in
  useMetronome.isPlaying m0 = true /\
  useMetronome.currentBeat m0 = 0%Z /\
  useMetronome.currentBeat (fst (useMetronome.fires 1 (Fin 500) m0)) = 1%Z /\
  useMetronome.currentBeat (fst (useMetronome.fires 2 (Fin 500) m0)) = 2%Z /\
  useMetronome.currentBeat (fst (useMetronome.fires 3 (Fin 500) m0)) = 3%Z /\
  useMetronome.currentBeat (fst (useMetronome.fires 4 (Fin 500) m0)) = 0%Z /\
  useMetronome.spec_next_beat 4 3 = 4%Z /\
  snd (useMetronome.fires 4 (Fin 500) m0) =
    [useMetronome.PlayClick; useMetronome.OnTick 0;
     useMetronome.PlayClick; useMetronome.OnTick 0;
     useMetronome.PlayClick; useMetronome.OnTick 0;
     useMetronome.PlayClick; useMetronome.OnTick 0].
Proof. repeat split. Qed.

(* ================================================================== *)
(** ** Further properties of the parser *)
(* ================================================================== *)

Lemma process_note_notes tempo mn div p e i :
  notes (process_note tempo mn div p e i) =
  (notes p ++
     notes (process_note tempo mn div
              {| currentTime := currentTime p; measureStartTime := currentTime p;
                 notes := []; measures := [] |} e i))%list.
Proof.
  unfold process_note.
  destruct (el_rest e); [now rewrite app_nil_r|].
  destruct (truthy_text (el_step e)); [|now rewrite app_nil_r].
  destruct (truthy_text (el_octave e)); [|now rewrite app_nil_r].
  destruct (truthy_text (el_duration e)); [|now rewrite app_nil_r].
  reflexivity.
Qed.

Lemma process_note_complete tempo mn div p e i :
  List.length (notes (process_note tempo mn div p e i)) =
  (List.length (notes p) + (if complete e then 1 else 0))%nat.
Proof.
  unfold process_note, complete, present.
  destruct (el_rest e); cbn; [lia|].
  destruct (truthy_text (el_step e)); cbn; [|lia].
  destruct (truthy_text (el_octave e)); cbn; [|lia].
  destruct (truthy_text (el_duration e)); cbn; [|lia].
  rewrite length_app. cbn. lia.
Qed.

Lemma process_note_emits tempo mn div p e i n :
  In n (notes (process_note tempo mn div p e i)) ->
  In n (notes p) \/ emits tempo mn div e i (currentTime p) n.
Proof.
  rewrite process_note_notes. intros H. apply in_app_or in H.
  destruct H as [H | H]; [now left | right].
  unfold emits. revert H. unfold process_note.
  destruct (el_rest e); [contradiction|].
  destruct (truthy_text (el_step e)); [|contradiction].
  destruct (truthy_text (el_octave e)); [|contradiction].
  destruct (truthy_text (el_duration e)); [|contradiction].
  cbn. intros [<- | []]. reflexivity.
Qed.

Lemma forEach_notes_emits tempo mn div els :
  forall i p n,
    In n (notes (forEach_from (process_note tempo mn div) els i p)) ->
    In n (notes p) \/
    exists k e c, nth_error els k = Some e /\ emits tempo mn div e (i + k) c n.
Proof.
  induction els as [|e els IH]; intros i p n H; simpl in H; [now left|].
  destruct (IH _ _ _ H) as [H1 | (k & e' & c & Hk & He)].
  - destruct (process_note_emits _ _ _ _ _ _ _ H1) as [H2 | H2]; [now left|].
    right. exists 0%nat, e, (currentTime p). split; [reflexivity|].
    now rewrite Nat.add_0_r.
  - right. exists (S k), e', c. split; [exact Hk|].
    now replace (i + S k)%nat with (S i + k)%nat by lia.
Qed.

Lemma forEach_notes_length tempo mn div els :
  forall i p,
    List.length (notes (forEach_from (process_note tempo mn div) els i p)) =
    (List.length (notes p) + List.length (filter complete els))%nat.
Proof.
  induction els as [|e els IH]; intros i p; simpl; [lia|].
  rewrite IH, process_note_complete. destruct (complete e); simpl; lia.
Qed.

Lemma process_measures_emits tempo els :
  forall p n,
    In n (notes (process_measures tempo els p)) ->
    In n (notes p) \/
    exists el i e c,
      In el els /\ nth_error (el_notes el) i = Some e /\
      emits tempo (measure_number el) (extract_divisions (el_divisions el)) e i c n.
Proof.
  unfold process_measures.
  induction els as [|el els IH]; intros p n H; simpl in H; [now left|].
  destruct (IH _ _ H) as [H1 | (el' & i & e & c & Hin & Hi & He)].
  - unfold process_measure in H1. cbn [notes] in H1.
    destruct (forEach_notes_emits _ _ _ _ _ _ _ H1) as [H2 | (k & e & c & Hk & He)].
    + now left.
    + right. exists el, k, e, c. split; [now left|]. split; [exact Hk|]. exact He.
  - right. exists el', i, e, c. split; [now right|]. now split.
Qed.

Lemma process_measures_length tempo els :
  forall p,
    List.length (notes (process_measures tempo els p)) =
    (List.length (notes p) + List.length (filter complete (List.concat (map el_notes els))))%nat.
Proof.
  unfold process_measures.
  induction els as [|el els IH]; intros p; simpl; [lia|].
  rewrite IH. unfold process_measure. cbn [notes].
  rewrite forEach_notes_length, filter_app, length_app. cbn [notes]. lia.
Qed.

Lemma process_measures_numbers tempo els :
  forall p,
    map MeasureTimestamp.measure (measures (process_measures tempo els p)) =
    (map MeasureTimestamp.measure (measures p)
       ++ map (fun el => of_int (measure_number el)) els)%list.
Proof.
  unfold process_measures.
  induction els as [|el els IH]; intros p; simpl; [now rewrite app_nil_r|].
  rewrite IH.
  destruct (process_measure_spec tempo p el) as (ns & _ & M & _).
  rewrite M, map_app, <- app_assoc. reflexivity.
Qed.

Lemma parsed_note_source (xmlDoc : XmlDoc) (n : Note.t) :
  In n (MusicData.notes (parseMusicXML xmlDoc)) ->
  exists el i e c,
    In el (el_measures xmlDoc) /\
    nth_error (el_notes el) i = Some e /\
    emits (MusicData.tempo (parseMusicXML xmlDoc)) (measure_number el)
          (extract_divisions (el_divisions el)) e i c n.
Proof.
  intros Hn. unfold parseMusicXML in Hn. cbn in Hn.
  destruct (process_measures_emits _ _ _ _ Hn) as [[] | H]. exact H.
Qed.

(** X1.  Every parsed note comes from a complete, non-rest note entry of
    the document: there are a measure element [el] and an entry [e] at
    position [i] of it such that reading [e] pushes exactly this note.  Rests
    and entries without step, octave or duration never produce a note, and
    the number of parsed notes is the number of complete entries. *)
Theorem every_note_has_a_source (xmlDoc : XmlDoc) :
  let d := parseMusicXML xmlDoc in
  (forall n, In n (MusicData.notes d) ->
     exists el i e c,
       In el (el_measures xmlDoc) /\
       nth_error (el_notes el) i = Some e /\
       complete e = true /\
       emits (MusicData.tempo d) (measure_number el)
             (extract_divisions (el_divisions el)) e i c n) /\
  List.length (MusicData.notes d) =
    List.length (filter complete (all_note_entries xmlDoc)).
Proof.
  intros d. split.
  - intros n Hn. unfold d, parseMusicXML in Hn. cbn in Hn.
    destruct (process_measures_emits _ _ _ _ Hn) as [[] | (el & i & e & c & Hel & Hi & He)].
    exists el, i, e, c. repeat split; try assumption.
    unfold emits in He. pose proof (f_equal (@List.length _) He) as HL.
    rewrite process_note_complete in HL. cbn in HL.
    destruct (complete e); [reflexivity | discriminate].
  - unfold d, parseMusicXML, all_note_entries. cbn.
    now rewrite process_measures_length.
Qed.

Lemma every_note_has_a_source_witness :
  exists el i e c,
    In el (el_measures two_measures) /\
    nth_error (el_notes el) i = Some e /\
    complete e = true /\
    emits (Fin 60) (measure_number el) (extract_divisions (el_divisions el)) e i c
      (Note.mk "note-1-1" (Fin 64) (Fin 1) (Fin 2) (Fin 1) (Fin 1) right None).
Proof.
  apply (proj1 (every_note_has_a_source two_measures)).
  right. left. reflexivity.
Defined.





(** X3.  There is one measure record per measure element, in document
    order, even for an element without notes; its number is what [parseInt]
    reads from the [number] attribute, and 1 when the attribute is missing
    or empty. *)
Theorem one_measure_per_element (xmlDoc : XmlDoc) :
  map MeasureTimestamp.measure (MusicData.measures (parseMusicXML xmlDoc)) =
    map (fun el => of_int (measure_number el)) (el_measures xmlDoc) /\
  (forall el, el_number el = None \/ el_number el = Some "" -> measure_number el = Some 1%Z) /\
  (forall el txt, el_number el = Some txt -> txt <> "" -> measure_number el = parseInt txt).
Proof.
  repeat split.
  - unfold parseMusicXML. cbn. now rewrite process_measures_numbers.
  - intros el [H | H]; unfold measure_number; now rewrite H.
  - intros el txt H Hne. unfold measure_number. rewrite H.
    destruct txt; [contradiction | reflexivity].
Qed.

Lemma one_measure_per_element_witness :
  measure_number {| el_number := None; el_divisions := None; el_notes := [] |} = Some 1%Z /\
  measure_number (measure_el "12" []) = parseInt "12".
Proof.
  split.
  - apply (proj1 (proj2 (one_measure_per_element two_measures))). now left.
  - apply (proj2 (proj2 (one_measure_per_element two_measures)) _ "12");
      [reflexivity | discriminate].
Defined.

Lemma emits_hand tempo mn div e i c n :
  emits tempo mn div e i c n ->
  Note.hand n = if Note.pitch n <? of_Z 60 then left else right.
Proof.
  unfold emits, process_note.
  destruct (el_rest e); [discriminate|].
  destruct (truthy_text (el_step e)); [|discriminate].
  destruct (truthy_text (el_octave e)); [|discriminate].
  destruct (truthy_text (el_duration e)); [|discriminate].
  cbn. intros [= <-]. reflexivity.
Qed.

Lemma filter_two_way {A} (f g : A -> bool) (l : list A) :
  (forall x, In x l -> g x = negb (f x)) ->
  (List.length (filter f l) + List.length (filter g l))%nat = List.length l.
Proof.
  induction l as [|x l IH]; simpl; intros H; [reflexivity|].
  rewrite (H x (or_introl eq_refl)).
  assert (IH' := IH (fun y Hy => H y (or_intror Hy))).
  destruct (f x); simpl; lia.
Qed.

(** X4.  Every parsed note is tagged left or right, never both: left
    exactly when its pitch is below 60 (a [NaN] pitch goes right).  So
    [getNotesByHand] with left and with right splits the parsed notes in
    two, and with both it returns them all. *)
Theorem hands_split_the_parsed_notes (xmlDoc : XmlDoc) :
  let d := parseMusicXML xmlDoc in
  (forall n, In n (MusicData.notes d) ->
     Note.hand n = if Note.pitch n <? of_Z 60 then left else right) /\
  getNotesByHand (Some d) both = MusicData.notes d /\
  (forall n, In n (getNotesByHand (Some d) left) <->
     In n (MusicData.notes d) /\ (Note.pitch n <? of_Z 60) = true) /\
  (forall n, In n (getNotesByHand (Some d) right) <->
     In n (MusicData.notes d) /\ (Note.pitch n <? of_Z 60) = false) /\
  (List.length (getNotesByHand (Some d) left)
   + List.length (getNotesByHand (Some d) right))%nat = List.length (MusicData.notes d).
Proof.
  intros d.
  assert (Hhand : forall n, In n (MusicData.notes d) ->
            Note.hand n = if Note.pitch n <? of_Z 60 then left else right).
  { intros n Hn.
    destruct (parsed_note_source xmlDoc n Hn) as (el & i & e & c & _ & _ & He).
    eapply emits_hand; exact He. }
  split; [exact Hhand|]. split; [reflexivity|].
  unfold getNotesByHand. split; [|split].
  - intros n. rewrite filter_In. split.
    + intros [Hn Hh]. split; [exact Hn|]. rewrite (Hhand n Hn) in Hh.
      destruct (Note.pitch n <? of_Z 60); [reflexivity | discriminate].
    + intros [Hn Hp]. split; [exact Hn|]. rewrite (Hhand n Hn), Hp. reflexivity.
  - intros n. rewrite filter_In. split.
    + intros [Hn Hh]. split; [exact Hn|]. rewrite (Hhand n Hn) in Hh.
      destruct (Note.pitch n <? of_Z 60); [discriminate | reflexivity].
    + intros [Hn Hp]. split; [exact Hn|]. rewrite (Hhand n Hn), Hp. reflexivity.
  - apply filter_two_way. intros n Hn. rewrite (Hhand n Hn).
    destruct (Note.pitch n <? of_Z 60); reflexivity.
Qed.

Lemma hands_split_the_parsed_notes_witness :
  Note.hand (Note.mk "note-2-0" (Fin 55) (Fin 2) (Fin 4) (Fin 2) (Fin 2) left None) =
  (if Fin 55 <? of_Z 60 then left else right).
Proof.
  apply (proj1 (hands_split_the_parsed_notes two_measures)
           (Note.mk "note-2-0" (Fin 55) (Fin 2) (Fin 4) (Fin 2) (Fin 2) left None)).
  right. right. left. reflexivity.
Defined.


Lemma of_Z_mul (a b : Z) : of_Z a * of_Z b ~= of_Z (a * b).
Proof.
  unfold of_Z. cbn [JS.mul JS.equiv]. rewrite Qred_correct, inject_Z_mult.
  reflexivity.
Qed.



(* ------------------------------------------------------------------ *)
(** *** Loading and querying *)

Lemma loads_musicData results :
  forall st, musicData (loads results st) = last_ok results (musicData st).
Proof.
  unfold loads. induction results as [|r rs IH]; intros st; simpl; [reflexivity|].
  rewrite IH. destruct r as [message | [|] statusText body]; reflexivity.
Qed.

Lemma last_ok_keeps results :
  forall acc, acc <> None -> last_ok results acc <> None.
Proof.
  induction results as [|r rs IH]; intros acc H; simpl; [exact H|].
  destruct r as [message | [|] statusText body]; apply IH; [exact H | discriminate | exact H].
Qed.

(** X7.  After any sequence of loads the score is the parse of the last
    response that had [ok] set (the initial one if there was none): a
    rejected fetch or a response without [ok] never discards a score that
    was loaded, it only records its message; and [loading] is off after
    every run. *)
Theorem loads_keep_the_last_good_score (results : list FetchResult) (st : MusicXMLState) :
  musicData (loads results st) = last_ok results (musicData st) /\
  (musicData st <> None -> musicData (loads results st) <> None) /\
  (forall r, loading (fetchAndParseMusicXML st r) = false) /\
  (forall message, error (fetchAndParseMusicXML st (Rejected message)) = Some message) /\
  (forall statusText body,
     error (fetchAndParseMusicXML st (Response false statusText body))
       = Some ("Failed to fetch MusicXML: " ++ statusText)).
Proof.
  split; [apply loads_musicData|]. split.
  - intros H. rewrite loads_musicData. now apply last_ok_keeps.
  - repeat split. intros r. destruct r as [message | [|] statusText body]; reflexivity.
Qed.

Lemma loads_keep_the_last_good_score_witness :
  musicData (loads [Rejected "offline"]
               (fetchAndParseMusicXML useMusicXML_init (Response true "OK" two_measures)))
  <> None.
Proof.
  apply (proj1 (proj2 (loads_keep_the_last_good_score [Rejected "offline"]
           (fetchAndParseMusicXML useMusicXML_init (Response true "OK" two_measures))))).
  discriminate.
Defined.

Lemma leb_NaN_r (a : num) : (a <=? NaN) = false.
Proof. destruct a as [|[]|x]; reflexivity. Qed.

(** X8.  [getCurrentMeasureAtTime] never answers 0 or [NaN]: its result is
    either 1 or the number of a measure whose closed span contains the
    time.  At a [NaN] time, and before a score is loaded, it answers 1 and
    [getActiveNotesAtTime] answers the empty list. *)
Theorem current_measure_is_never_zero (musicData : option MusicData.t) (time : num) :
  truthy (getCurrentMeasureAtTime musicData time) = true /\
  (getCurrentMeasureAtTime musicData time = of_Z 1 \/
   exists d m, musicData = Some d /\ In m (MusicData.measures d) /\
     (MeasureTimestamp.start m <=? time) = true /\
     (time <=? MeasureTimestamp.end_ m) = true /\
     getCurrentMeasureAtTime musicData time = MeasureTimestamp.measure m) /\
  getCurrentMeasureAtTime musicData NaN = of_Z 1 /\
  getActiveNotesAtTime musicData NaN = [] /\
  getCurrentMeasureAtTime None time = of_Z 1 /\
  getActiveNotesAtTime None time = [].
Proof.
  split; [|split; [|split; [|split; [|split]]]]; try reflexivity.
  - unfold getCurrentMeasureAtTime. destruct musicData as [d|]; [|reflexivity].
    destruct (find _ _) as [m|]; [|reflexivity].
    destruct (truthy (MeasureTimestamp.measure m)) eqn:E; [exact E | reflexivity].
  - unfold getCurrentMeasureAtTime. destruct musicData as [d|]; [|now left].
    destruct (find _ _) as [m|] eqn:F; [|now left].
    destruct (truthy (MeasureTimestamp.measure m)) eqn:E; [|now left].
    right. apply find_some in F. destruct F as [Hin Hb].
    apply andb_true_iff in Hb. destruct Hb as [H1 H2].
    exists d, m. repeat split; assumption.
  - unfold getCurrentMeasureAtTime. destruct musicData as [d|]; [|reflexivity].
    replace (find _ (MusicData.measures d)) with (@None MeasureTimestamp.t); [reflexivity|].
    symmetry. induction (MusicData.measures d) as [|m ms IH]; [reflexivity|].
    simpl. unfold geb. rewrite leb_NaN_r. exact IH.
  - unfold getActiveNotesAtTime. destruct musicData as [d|]; [|reflexivity].
    apply filter_nil_iff. intros n _. unfold geb. now rewrite leb_NaN_r.
Qed.

(* ================================================================== *)
(** ** Further properties of useMIDI *)
(* ================================================================== *)

Lemma in_range_iff lo hi x : in_range lo hi x = true <-> (lo <= x <= hi)%Z.
Proof. unfold in_range. rewrite andb_true_iff, !Z.leb_le. tauto. Qed.

Lemma in_range_false lo hi x : (x < lo \/ hi < x)%Z -> in_range lo hi x = false.
Proof.
  intros H. apply not_true_iff_false. rewrite in_range_iff. lia.
Qed.

(** X9.  The log only grows, by one record at a time, and only a note-on
    with positive velocity handled with both an expected-note list and a
    transport time adds a record; every such press also adds exactly one
    held note, whether or not it is scored. *)
Theorem log_only_grows (options : UseMIDIOptions) (now : num) (dateNow : Z)
    (data : list Z) (st : MIDIState) :
  let st' := handleMIDIMessage options now dateNow data st in
  (accuracy st' = accuracy st \/
   exists r command note velocity more expected t,
     data = command :: note :: velocity :: more /\
     (144 <= command <= 159)%Z /\ (0 < velocity)%Z /\
     expectedNotes options = Some expected /\ opt_currentTime options = Some t /\
     accuracy st' = (accuracy st ++ [r])%list) /\
  (forall command note velocity more,
     data = command :: note :: velocity :: more ->
     (144 <= command <= 159)%Z -> (0 < velocity)%Z ->
     activeNotes st' = (activeNotes st ++ [MIDINote.mk note velocity now])%list /\
     (expectedNotes options = None \/ opt_currentTime options = None ->
      accuracy st' = accuracy st)).
Proof.
  intros st'. split.
  - subst st'. unfold handleMIDIMessage.
    destruct data as [|command [|note [|velocity more]]]; try (left; reflexivity).
    + destruct (in_range 128 143 command); left; reflexivity.
    + destruct (in_range 128 143 command); left; reflexivity.
    + destruct (in_range 144 159 command) eqn:Hc; cbn [andb].
      * destruct (0 <? velocity)%Z eqn:Hv.
        -- destruct (expectedNotes options) as [expected|] eqn:He; [|left; reflexivity].
           destruct (opt_currentTime options) as [t|] eqn:Ht; [|left; reflexivity].
           right. exists (press_record expected t note now dateNow),
                    command, note, velocity, more, expected, t.
           apply in_range_iff in Hc. apply Z.ltb_lt in Hv. repeat split; try lia.
        -- destruct (_ || _); left; reflexivity.
      * destruct (_ || _); left; reflexivity.
  - intros command note velocity more -> Hc Hv. subst st'. unfold handleMIDIMessage.
    rewrite (proj2 (in_range_iff 144 159 command) Hc), (proj2 (Z.ltb_lt 0 velocity) Hv).
    cbn [andb]. split.
    + destruct (expectedNotes options); [destruct (opt_currentTime options)|]; reflexivity.
    + intros [-> | H]; [reflexivity|]. rewrite H.
      destruct (expectedNotes options); reflexivity.
Qed.

Lemma log_only_grows_witness :
  activeNotes (handleMIDIMessage {| expectedNotes := None; opt_currentTime := None |}
                 (Fin 5000) 0 press_60 useMIDI_init)
  = [MIDINote.mk 60 100 (Fin 5000)].
Proof.
  apply (proj1 (proj2 (log_only_grows {| expectedNotes := None; opt_currentTime := None |}
                         (Fin 5000) 0 press_60 useMIDI_init)
                      144%Z 60%Z 100%Z [] eq_refl ltac:(lia) ltac:(lia))).
Defined.

Lemma filter_all {A} (f : A -> bool) (l : list A) :
  (forall x, In x l -> f x = true) -> filter f l = l.
Proof.
  induction l as [|x l IH]; simpl; intros H; [reflexivity|].
  rewrite (H x (or_introl eq_refl)). f_equal. apply IH. intros y Hy. apply H. now right.
Qed.

(** X10.  A release (a command 128..143, or a note-on with velocity 0)
    removes every held note of that pitch, keeps all the others, and does
    not touch the log.  A press followed by the release of the same pitch
    gives back the held notes there were, when that pitch was not held. *)
Theorem release_drops_the_pitch (options : UseMIDIOptions) (now : num) (dateNow : Z)
    (command note velocity : Z) (more : list Z) (st : MIDIState) :
  ((128 <= command <= 143)%Z \/ ((144 <= command <= 159)%Z /\ velocity = 0%Z)) ->
  let release := handleMIDIMessage options now dateNow (command :: note :: velocity :: more) in
  accuracy (release st) = accuracy st /\
  (forall n, In n (activeNotes (release st)) <->
     In n (activeNotes st) /\ MIDINote.note n <> note) /\
  (forall options' now' dateNow' v,
     (0 < v)%Z ->
     (forall n, In n (activeNotes st) -> MIDINote.note n <> note) ->
     activeNotes (release (handleMIDIMessage options' now' dateNow' [144; note; v]%Z st))
       = activeNotes st).
Proof.
  intros Hoff release.
  assert (Hrel : forall s, release s =
            setActiveNotes (filter (fun n => negb (MIDINote.note n =? note)%Z)) s).
  { intros s. unfold release, handleMIDIMessage.
    destruct Hoff as [Hc | [Hc ->]].
    - rewrite (in_range_false 144 159 command) by lia.
      rewrite (proj2 (in_range_iff 128 143 command) Hc). reflexivity.
    - rewrite (proj2 (in_range_iff 144 159 command) Hc).
      rewrite (in_range_false 128 143 command) by lia. reflexivity. }
  split; [now rewrite Hrel|]. split.
  - intros n. rewrite Hrel. cbn [activeNotes setActiveNotes].
    rewrite filter_In, negb_true_iff, Z.eqb_neq. tauto.
  - intros options' now' dateNow' v Hv Hnone. rewrite Hrel.
    cbn [activeNotes setActiveNotes].
    assert (Hp : activeNotes (handleMIDIMessage options' now' dateNow' [144; note; v]%Z st)
                 = (activeNotes st ++ [MIDINote.mk note v now'])%list).
    { unfold handleMIDIMessage. cbn [in_range Z.leb andb].
      change (in_range 144 159 144) with true.
      rewrite (proj2 (Z.ltb_lt 0 v) Hv). cbn [andb].
      destruct (expectedNotes options') ; [destruct (opt_currentTime options')|]; reflexivity. }
    rewrite Hp, filter_app. cbn [filter MIDINote.note].
    rewrite Z.eqb_refl. cbn [negb]. rewrite app_nil_r.
    apply filter_all. intros n Hn. apply negb_true_iff, Z.eqb_neq. now apply Hnone.
Qed.

Lemma release_drops_the_pitch_witness :
  activeNotes
    (handleMIDIMessage at_start (Fin 9) 0 [128; 60; 0]%Z
       (handleMIDIMessage at_start (Fin 1) 0 [144; 60; 100]%Z useMIDI_init))
  = activeNotes useMIDI_init.
Proof.
  apply (proj2 (proj2 (release_drops_the_pitch at_start (Fin 9) 0 128 60 0 [] useMIDI_init
                         ltac:(left; lia)))
           at_start (Fin 1) 0%Z 100%Z ltac:(lia)).
  intros n [].
Defined.

Lemma press_record_shape expected t pressed now dateNow :
  let r := press_record expected t pressed now dateNow in
  actualNote r = of_Z pressed /\
  (isCorrect r = true -> (expectedNote r =? actualNote r) = true) /\
  (isCorrect r = false ->
   expectedNote r = of_Z (-1) /\ noteId r = "wrong-" ++ string_of_Z dateNow).
Proof.
  unfold press_record. destruct (find _ _) as [n|] eqn:F; cbn.
  - split; [reflexivity|]. split; [|discriminate]. intros _.
    apply find_some in F. destruct F as [_ F]. unfold matches in F.
    apply andb_true_iff in F. apply F.
  - split; [reflexivity|]. split; [discriminate|]. intros _. now split.
Qed.

Lemma correctCount_le log : (correctCount log <= List.length log)%nat.
Proof. unfold correctCount. apply filter_length_le. Qed.

Lemma accuracyPercentage_value log :
  log <> [] ->
  accuracyPercentage log =
  of_Z (Qfloor (inject_Z (Z.of_nat (correctCount log)) / inject_Z (Z.of_nat (List.length log))
                * 100 + (1 # 2))).
Proof.
  intros Hne.
  assert (Hlen : (0 < List.length log)%nat) by (destruct log; [contradiction | simpl; lia]).
  unfold accuracyPercentage.
  replace (0 <? List.length log)%nat with true by (symmetry; now apply Nat.ltb_lt).
  unfold of_nat, of_Z at 1 2 3. cbn [JS.div].
  rewrite (of_nat_nonzero _ Hlen). cbn [JS.mul JS.round].
  f_equal. apply Qfloor_comp. rewrite !Qred_correct. reflexivity.
Qed.

(** X12.  [accuracyPercentage] is always a whole number from 0 to 100; on a
    non-empty log it is 100 when every record is correct and 0 when none
    is. *)
Theorem accuracyPercentage_range (log : list MIDIAccuracy) :
  (exists k : Z, accuracyPercentage log = of_Z k /\ (0 <= k <= 100)%Z) /\
  (log <> [] -> Forall (fun a => isCorrect a = true) log ->
   accuracyPercentage log = of_Z 100) /\
  (Forall (fun a => isCorrect a = false) log -> accuracyPercentage log = of_Z 0).
Proof.
  destruct log as [|a0 log0] eqn:Elog.
  { split; [exists 0%Z; split; [reflexivity | lia]|]. split; [now intros H|reflexivity]. }
  rewrite <- Elog.
  assert (Hne : log <> []) by (rewrite Elog; discriminate).
  assert (Hlen : (0 < List.length log)%nat) by (rewrite Elog; simpl; lia).
  pose proof (correctCount_le log) as Hle.
  set (c := inject_Z (Z.of_nat (correctCount log))).
  set (n := inject_Z (Z.of_nat (List.length log))).
  assert (Hn : 0 < n) by (unfold n, Qlt; simpl; lia).
  assert (Hc0 : 0 <= c) by (unfold c, Qle; simpl; lia).
  assert (Hcn : c <= n) by (unfold c, n, Qle; simpl; lia).
  assert (Hx0 : 0 <= c / n * 100).
  { apply Qmult_le_0_compat; [|discriminate].
    apply Qle_shift_div_l; [exact Hn|]. now rewrite Qmult_0_l. }
  assert (Hx1 : c / n * 100 <= 100).
  { setoid_replace (100 : Q) with (1 * 100)%Q at 2 by ring.
    apply Qmult_le_compat_r; [|discriminate].
    apply Qle_shift_div_r; [exact Hn|]. now rewrite Qmult_1_l. }
  rewrite (accuracyPercentage_value log Hne). fold c n.
  split; [|split].
  - eexists. split; [reflexivity|]. split.
    + apply Z.le_trans with (Qfloor 0); [reflexivity|]. apply Qfloor_resp_le. lra.
    + apply Z.le_trans with (Qfloor (201 # 2)); [|reflexivity]. apply Qfloor_resp_le. lra.
  - intros _ Hall. f_equal.
    assert (Hcc : correctCount log = List.length log).
    { unfold correctCount. f_equal. apply filter_all.
      now apply Forall_forall. }
    transitivity (Qfloor (201 # 2)); [|reflexivity]. apply Qfloor_comp.
    unfold c, n. rewrite Hcc. fold n. field. lra.
  - intros Hnone. f_equal.
    assert (Hcc : correctCount log = 0%nat).
    { unfold correctCount. rewrite filter_nil_iff; [reflexivity|].
      now apply Forall_forall. }
    transitivity (Qfloor (1 # 2)); [|reflexivity]. apply Qfloor_comp.
    unfold c. rewrite Hcc. change (inject_Z (Z.of_nat 0)) with 0%Q. field. lra.
Qed.

Lemma accuracyPercentage_range_witness :
  accuracyPercentage
    [{| noteId := "note-1-0"; expectedNote := Fin 60; actualNote := Fin 60;
        timingOffset := Fin 12; isCorrect := true |}] = of_Z 100.
Proof.
  apply (proj1 (proj2 (accuracyPercentage_range _))).
  - discriminate.
  - repeat constructor.
Defined.

Lemma nonneg_abs (a : num) : (abs a <? of_Z 0) = false.
Proof.
  destruct a as [|s|x]; try reflexivity. cbn [JS.abs JS.ltb JS.of_Z].
  apply not_true_iff_false. rewrite Qltb_iff.
  change (inject_Z 0) with 0%Q. intros H. apply (Qlt_not_le _ _ H), Qabs_nonneg.
Qed.

Lemma nonneg_add (a b : num) :
  (a <? of_Z 0) = false -> (b <? of_Z 0) = false -> (a + b <? of_Z 0) = false.
Proof.
  destruct a as [|[]|x], b as [|[]|y]; cbn [JS.add JS.ltb JS.of_Z Bool.eqb];
    try easy.
  rewrite <- !not_true_iff_false, !Qltb_iff, Qred_correct.
  change (inject_Z 0) with 0%Q. intros; lra.
Qed.

Lemma nonneg_div_nat (a : num) (n : nat) :
  (0 < n)%nat -> (a <? of_Z 0) = false -> (a / of_nat n <? of_Z 0) = false.
Proof.
  intros Hn. assert (Hq : 0 < inject_Z (Z.of_nat n)) by (unfold Qlt; simpl; lia).
  destruct a as [|[]|x]; unfold of_nat, of_Z; cbn [JS.div JS.ltb]; try easy.
  - intros _. unfold Qneg. replace (Qltb (inject_Z (Z.of_nat n)) 0) with false; [reflexivity|].
    symmetry. apply not_true_iff_false. rewrite Qltb_iff. lra.
  - rewrite (of_nat_nonzero n Hn). cbn [JS.ltb].
    rewrite <- !not_true_iff_false, !Qltb_iff, Qred_correct.
    change (inject_Z 0) with 0%Q. intros H H'. apply Qnot_lt_le in H.
    apply (Qlt_not_le _ _ H').
    apply Qle_shift_div_l; [exact Hq|]. now rewrite Qmult_0_l.
Qed.

Lemma nonneg_round (a : num) : (a <? of_Z 0) = false -> (round a <? of_Z 0) = false.
Proof.
  destruct a as [|[]|x]; cbn [JS.round JS.ltb JS.of_Z]; try easy.
  rewrite <- !not_true_iff_false, !Qltb_iff. change (inject_Z 0) with 0%Q.
  intros H H'. apply Qnot_lt_le in H.
  assert (Hf : (0 <= Qfloor (x + (1 # 2)))%Z).
  { apply Z.le_trans with (Qfloor 0); [reflexivity|]. apply Qfloor_resp_le.
    clear H'. lra. }
  change 0%Q with (inject_Z 0) in H'. rewrite <- Zlt_Qlt in H'. lia.
Qed.

Lemma nonneg_offsets_fold log :
  forall s, (s <? of_Z 0) = false ->
    (fold_left (fun sum a => sum + abs (timingOffset a)) log s <? of_Z 0) = false.
Proof.
  induction log as [|a log IH]; intros s Hs; simpl; [exact Hs|].
  apply IH. apply nonneg_add; [exact Hs | apply nonneg_abs].
Qed.

(** X13.  [averageTimingOffset] is never negative, whatever the log holds:
    it averages absolute values, so early and late presses do not cancel
    and the sign of the offsets is lost. *)
Theorem averageTimingOffset_is_never_negative (log : list MIDIAccuracy) :
  (averageTimingOffset log <? of_Z 0) = false.
Proof.
  unfold averageTimingOffset. destruct (0 <? List.length log)%nat eqn:E; [|reflexivity].
  apply Nat.ltb_lt in E.
  apply nonneg_round, nonneg_div_nat; [exact E|].
  now apply nonneg_offsets_fold.
Qed.

(** X14.  A message whose status byte is outside 128..159, or an empty
    one, changes nothing: no held note, no record. *)
Theorem other_messages_change_nothing (options : UseMIDIOptions) (now : num) (dateNow : Z)
    (data : list Z) (st : MIDIState) :
  (forall command rest, data = command :: rest -> (command < 128 \/ 159 < command)%Z) ->
  handleMIDIMessage options now dateNow data st = st.
Proof.
  intros H. unfold handleMIDIMessage.
  destruct data as [|command rest]; [reflexivity|].
  specialize (H command rest eq_refl).
  rewrite (in_range_false 144 159 command), (in_range_false 128 143 command) by lia.
  destruct rest as [|note [|velocity more]]; reflexivity.
Qed.

Lemma other_messages_change_nothing_witness :
  handleMIDIMessage at_start (Fin 1) 0 [176; 64; 127]%Z useMIDI_init = useMIDI_init.
Proof.
  apply other_messages_change_nothing.
  intros command rest [= <- _]. lia.
Defined.

(** X15.  [selectInput] with an id that no listed input has changes
    nothing; otherwise it selects the first listed input with that id.  It
    never touches the held notes, the log or the list of inputs. *)
Theorem selectInput_picks_a_listed_input (inputId : string) (st : MIDIState) :
  ((forall input, In input (midiInputs st) -> input_id input <> inputId) ->
   selectInput inputId st = st) /\
  (forall before input after,
     midiInputs st = (before ++ input :: after)%list ->
     input_id input = inputId ->
     (forall other, In other before -> input_id other <> inputId) ->
     selectedInput (selectInput inputId st) = Some input) /\
  activeNotes (selectInput inputId st) = activeNotes st /\
  accuracy (selectInput inputId st) = accuracy st /\
  midiInputs (selectInput inputId st) = midiInputs st.
Proof.
  split; [|split].
  - intros H. unfold selectInput.
    replace (find _ (midiInputs st)) with (@None MIDIInput); [reflexivity|].
    symmetry. induction (midiInputs st) as [|x l IH]; [reflexivity|]. simpl.
    destruct (String.eqb (input_id x) inputId) eqn:E.
    + apply String.eqb_eq in E. exfalso. apply (H x); [now left | exact E].
    + apply IH. intros y Hy. apply H. now right.
  - intros before input after Hl Hid Hb. unfold selectInput. rewrite Hl.
    replace (find _ (before ++ input :: after)%list) with (Some input); [reflexivity|].
    symmetry. clear Hl. induction before as [|x l IH]; simpl.
    + now rewrite (proj2 (String.eqb_eq _ _) Hid).
    + destruct (String.eqb (input_id x) inputId) eqn:E.
      * apply String.eqb_eq in E. exfalso. apply (Hb x); [now left | exact E].
      * apply IH. intros y Hy. apply Hb. now right.
  - unfold selectInput. destruct (find _ _); repeat split.
Qed.

Lemma selectInput_picks_a_listed_input_witness :
  selectedInput
    (selectInput "usb-2"
       (setSelectedInput None
          {| midiSupported := true; midiAccess := None;
             midiInputs := [{| input_id := "usb-1" |}; {| input_id := "usb-2" |}];
             selectedInput := None; activeNotes := []; accuracy := [];
             errorMessage := None |}))
  = Some {| input_id := "usb-2" |}.
Proof.
  apply (proj1 (proj2 (selectInput_picks_a_listed_input "usb-2" _))
           [{| input_id := "usb-1" |}] {| input_id := "usb-2" |} []).
  - reflexivity.
  - reflexivity.
  - intros other [<- | []]. discriminate.
Defined.

(* ================================================================== *)
(** ** Further properties of useMetronome *)
(* ================================================================== *)

Lemma fire_running now m a iv :
  useMetronome.audioRef m = Some a ->
  useMetronome.intervalRef m = Some iv ->
  useMetronome.fire now m =
  ({| useMetronome.isPlaying := useMetronome.isPlaying m;
      useMetronome.bpm := useMetronome.bpm m;
      useMetronome.currentBeat := Z.rem (useMetronome.currentBeat m + 1) 4;
      useMetronome.audioRef := Some a;
      useMetronome.intervalRef := Some iv;
      useMetronome.lastTickTimeRef := now |},
   MetronomeRun.tick_effects iv).
Proof.
  intros Ha Hi. unfold useMetronome.fire. rewrite Hi.
  unfold useMetronome.tick. rewrite Ha, Hi. reflexivity.
Qed.

Lemma fires_running (n : nat) :
  forall now m a iv,
    useMetronome.audioRef m = Some a ->
    useMetronome.intervalRef m = Some iv ->
    (0 <= useMetronome.currentBeat m < 4)%Z ->
    useMetronome.currentBeat (fst (useMetronome.fires n now m))
      = ((useMetronome.currentBeat m + Z.of_nat n) mod 4)%Z /\
    snd (useMetronome.fires n now m)
      = List.concat (repeat (MetronomeRun.tick_effects iv) n).
Proof.
  induction n as [|n IH]; intros now m a iv Ha Hi Hb.
  - cbn. split; [|reflexivity]. rewrite Z.add_0_r, Z.mod_small; lia.
  - cbn [useMetronome.fires]. rewrite (fire_running now m a iv Ha Hi).
    assert (Hrem : Z.rem (useMetronome.currentBeat m + 1) 4
                   = ((useMetronome.currentBeat m + 1) mod 4)%Z)
      by (apply Z.rem_mod_nonneg; lia).
    match goal with
    | |- context [useMetronome.fires n now ?m1] =>
        destruct (IH now m1 a iv eq_refl eq_refl
                    ltac:(cbn; rewrite Hrem; apply Z.mod_pos_bound; lia)) as [H1 H2];
        destruct (useMetronome.fires n now m1) as [m2 e2]
    end.
    cbn [fst snd useMetronome.currentBeat] in H1, H2 |- *. subst e2. split.
    + rewrite H1, Hrem, Zplus_mod_idemp_l. f_equal. lia.
    + reflexivity.
Qed.

(** X16.  After [start] on a freshly mounted metronome and [n] firings of
    its timer the beat is [n mod 4]: it runs 1, 2, 3, 0, 1, ... whatever the
    tempo.  Each firing plays one click, and the callback, when there is
    one, is called with 0 every time. *)
Theorem beat_after_n_ticks (n : nat) (onTick : bool) (tempo t0 now : num) (audioSrc : string) :
  let m0 := useMetronome.start onTick t0 (useMetronome.init tempo audioSrc) in
  useMetronome.currentBeat (fst (useMetronome.fires n now m0)) = (Z.of_nat n mod 4)%Z /\
  snd (useMetronome.fires n now m0) =
    List.concat
      (repeat (useMetronome.PlayClick ::
                 (if onTick then [useMetronome.OnTick 0] else [])) n).
Proof.
  intros m0.
  destruct (fires_running n now m0 audioSrc
              {| useMetronome.period :=
                   useMetronome.calculateInterval
                     (useMetronome.bpm (useMetronome.init tempo audioSrc));
                 useMetronome.closed_currentBeat := 0;
                 useMetronome.closed_onTick := onTick |}
              eq_refl eq_refl ltac:(cbn; lia)) as [H1 H2].
  split; [exact H1 | exact H2].
Qed.

Lemma run_invariant ops :
  forall m,
    (useMetronome.isPlaying m = true <-> useMetronome.intervalRef m <> None) ->
    (0 <= useMetronome.currentBeat m < 4)%Z ->
    (forall iv, useMetronome.intervalRef m = Some iv ->
       useMetronome.period iv = useMetronome.calculateInterval (useMetronome.bpm m)) ->
    let m' := MetronomeRun.run ops m in
    (useMetronome.isPlaying m' = true <-> useMetronome.intervalRef m' <> None) /\
    (0 <= useMetronome.currentBeat m' < 4)%Z /\
    (forall iv, useMetronome.intervalRef m' = Some iv ->
       useMetronome.period iv = useMetronome.calculateInterval (useMetronome.bpm m')) /\
    useMetronome.audioRef m' = useMetronome.audioRef m.
Proof.
  unfold MetronomeRun.run.
  induction ops as [|op ops IH]; intros m Hp Hb Hi; [cbn; tauto|].
  cbn [fold_left].
  assert (Hstep :
    (useMetronome.isPlaying (MetronomeRun.step m op) = true <->
     useMetronome.intervalRef (MetronomeRun.step m op) <> None) /\
    (0 <= useMetronome.currentBeat (MetronomeRun.step m op) < 4)%Z /\
    (forall iv, useMetronome.intervalRef (MetronomeRun.step m op) = Some iv ->
       useMetronome.period iv
       = useMetronome.calculateInterval (useMetronome.bpm (MetronomeRun.step m op))) /\
    useMetronome.audioRef (MetronomeRun.step m op) = useMetronome.audioRef m).
  { assert (Hsame : forall m0, m0 = m ->
      (useMetronome.isPlaying m0 = true <-> useMetronome.intervalRef m0 <> None) /\
      (0 <= useMetronome.currentBeat m0 < 4)%Z /\
      (forall iv, useMetronome.intervalRef m0 = Some iv ->
         useMetronome.period iv = useMetronome.calculateInterval (useMetronome.bpm m0)) /\
      useMetronome.audioRef m0 = useMetronome.audioRef m).
    { intros m0 ->. repeat split; try apply Hp; try apply Hb. exact Hi. }
    destruct op as [onTick now | | onTick newTempo now | now]; cbn [MetronomeRun.step].
    - unfold useMetronome.start.
      destruct (useMetronome.isPlaying m) eqn:P; cbn [orb]; [now apply Hsame|].
      destruct (useMetronome.audioRef m) eqn:A; [|now apply Hsame].
      cbn. repeat split; try lia; try discriminate.
      intros iv [= <-]. reflexivity.
    - unfold useMetronome.stop.
      destruct (useMetronome.isPlaying m) eqn:P; cbn [negb]; [|now apply Hsame].
      cbn. repeat split; try lia; try discriminate; try congruence.
    - unfold MetronomeRun.setTempo.
      destruct (useMetronome.isPlaying m) eqn:P; cbn [andb].
      + destruct (useMetronome.intervalRef m) eqn:I.
        * cbn. repeat split; try lia; try discriminate. intros iv [= <-]. reflexivity.
        * exfalso. apply (proj1 Hp eq_refl). reflexivity.
      + cbn. repeat split; try lia; try apply Hp; try exact P.
        intros iv Hiv. exfalso.
        assert (Hn : useMetronome.intervalRef m <> None) by congruence.
        apply Hp in Hn. discriminate.
    - unfold useMetronome.fire.
      destruct (useMetronome.intervalRef m) as [iv0|] eqn:I; [|now apply Hsame].
      unfold useMetronome.tick.
      destruct (useMetronome.audioRef m) eqn:A; [|now apply Hsame].
      cbn. rewrite I.
      assert (Hrem : Z.rem (useMetronome.currentBeat m + 1) 4
                     = ((useMetronome.currentBeat m + 1) mod 4)%Z)
        by (apply Z.rem_mod_nonneg; lia).
      rewrite Hrem. repeat split; try apply Hp; try (apply Z.mod_pos_bound; lia);
        try discriminate.
      intros iv [= <-]. now apply Hi. }
  destruct Hstep as (S1 & S2 & S3 & S4).
  destruct (IH _ S1 S2 S3) as (I1 & I2 & I3 & I4).
  repeat split; try apply I1; try apply I2; try assumption. congruence.
Qed.

(** X17.  Whatever sequence of [start], [stop], [setTempo] and timer
    firings a mounted metronome goes through, it is playing exactly when a
    timer is installed, the installed timer's period is [60000 / bpm] for
    the current [bpm], and the beat stays within 0..3. *)
Theorem metronome_run_invariant (tempo : num) (audioSrc : string)
    (ops : list MetronomeRun.Op) :
  let m := MetronomeRun.run ops (useMetronome.init tempo audioSrc) in
  (useMetronome.isPlaying m = true <-> useMetronome.intervalRef m <> None) /\
  (0 <= useMetronome.currentBeat m < 4)%Z /\
  (forall iv, useMetronome.intervalRef m = Some iv ->
     useMetronome.period iv = of_Z 60000 / useMetronome.bpm m).
Proof.
  intros m.
  destruct (run_invariant ops (useMetronome.init tempo audioSrc)) as (H1 & H2 & H3 & _).
  - cbn. split; [discriminate | intros H; now contradiction H].
  - cbn. lia.
  - cbn. discriminate.
  - repeat split; try apply H1; try apply H2. exact H3.
Qed.

Lemma metronome_run_invariant_witness :
  useMetronome.period
    {| useMetronome.period := Fin 750; useMetronome.closed_currentBeat := 1;
       useMetronome.closed_onTick := false |}
  = of_Z 60000 / Fin 80.
Proof.
  apply (proj2 (proj2 (metronome_run_invariant (Fin 120) "click.mp3"
           [MetronomeRun.Start false (Fin 0); MetronomeRun.Fire (Fin 500);
            MetronomeRun.SetTempo false (Fin 80) (Fin 600)]))).
  reflexivity.
Defined.

(** X18.  [stop] silences the metronome and keeps the beat: after it a
    firing of the old timer does nothing, the beat is what it was, and a
    second [stop] changes nothing; the next [start] puts the beat back to
    0.  [start] on a metronome that is already playing changes nothing. *)
Theorem stop_silences_and_keeps_the_beat (tempo : num) (audioSrc : string)
    (ops : list MetronomeRun.Op) (now : num) (onTick : bool) :
  let m := MetronomeRun.run ops (useMetronome.init tempo audioSrc) in
  useMetronome.fire now (useMetronome.stop m) = (useMetronome.stop m, []) /\
  useMetronome.currentBeat (useMetronome.stop m) = useMetronome.currentBeat m /\
  useMetronome.stop (useMetronome.stop m) = useMetronome.stop m /\
  useMetronome.currentBeat (useMetronome.start onTick now (useMetronome.stop m)) = 0%Z /\
  (useMetronome.isPlaying m = true -> useMetronome.start onTick now m = m).
Proof.
  intros m.
  destruct (run_invariant ops (useMetronome.init tempo audioSrc)) as (H1 & _ & _ & H4).
  - cbn. split; [discriminate | intros H; now contradiction H].
  - cbn. lia.
  - cbn. discriminate.
  - fold m in H1, H4. cbn in H4.
    assert (Hnone : useMetronome.intervalRef (useMetronome.stop m) = None).
    { unfold useMetronome.stop. destruct (useMetronome.isPlaying m) eqn:P; cbn [negb].
      - reflexivity.
      - destruct (useMetronome.intervalRef m) eqn:I; [|reflexivity].
        exfalso. assert (Hn : Some i <> None) by discriminate.
        apply H1 in Hn. discriminate. }
    repeat split.
    + unfold useMetronome.fire. now rewrite Hnone.
    + unfold useMetronome.stop. destruct (useMetronome.isPlaying m); reflexivity.
    + unfold useMetronome.stop. destruct (useMetronome.isPlaying m) eqn:P; cbn [negb].
      * reflexivity.
      * now rewrite P.
    + unfold useMetronome.start.
      replace (useMetronome.isPlaying (useMetronome.stop m)) with false
        by (unfold useMetronome.stop; destruct (useMetronome.isPlaying m) eqn:P; cbn;
            congruence).
      replace (useMetronome.audioRef (useMetronome.stop m)) with (Some audioSrc)
        by (unfold useMetronome.stop; destruct (useMetronome.isPlaying m); cbn; congruence).
      reflexivity.
    + intros P. unfold useMetronome.start. now rewrite P.
Qed.

Lemma stop_silences_and_keeps_the_beat_witness :
  let m := MetronomeRun.run [MetronomeRun.Start true (Fin 0); MetronomeRun.Fire (Fin 500)]
             (useMetronome.init (Fin 120) "click.mp3") in
  useMetronome.start true (Fin 600) m = m.
Proof.
  apply (proj2 (proj2 (proj2 (proj2
           (stop_silences_and_keeps_the_beat (Fin 120) "click.mp3"
              [MetronomeRun.Start true (Fin 0); MetronomeRun.Fire (Fin 500)]
              (Fin 600) true))))).
  reflexivity.
Defined.

(* ================================================================== *)
(** ** Properties of useYouTube *)
(* ================================================================== *)

Lemma youtube_run_app PLAYING options es e y :
  fst (useYouTube.run PLAYING options (es ++ [e])%list y) =
  fst (useYouTube.step PLAYING options (fst (useYouTube.run PLAYING options es y)) e).
Proof.
  revert y. induction es as [|e0 es IH]; intros y; cbn [app useYouTube.run fst].
  - destruct (useYouTube.step PLAYING options y e). reflexivity.
  - destruct (useYouTube.step PLAYING options y e0) as [y1 o1].
    specialize (IH y1).
    destruct (useYouTube.run PLAYING options (es ++ [e]) y1).
    destruct (useYouTube.run PLAYING options es y1). cbn [fst] in IH |- *. exact IH.
Qed.

Lemma clear_poller id l :
  l = [] \/ l = [id] -> useYouTube.clear id l = [].
Proof.
  intros [-> | ->]; [reflexivity|]. unfold useYouTube.clear. simpl.
  now rewrite Nat.eqb_refl.
Qed.

Lemma truthy_ref_some r id :
  useYouTube.truthy_ref r = Some id -> r = Some id.
Proof. destruct r as [[|k]|]; simpl; congruence. Qed.

Lemma truthy_ref_none r :
  useYouTube.truthy_ref r = None -> r = None \/ r = Some 0%nat.
Proof. destruct r as [[|k]|]; simpl; auto; discriminate. Qed.

Lemma one_poller_no_truthy_ref y :
  useYouTube.one_poller y ->
  useYouTube.truthy_ref (useYouTube.timeUpdateInterval y) = None ->
  useYouTube.live y = [].
Proof.
  intros (Hl & _ & Hid) Hr. destruct Hl as [H | (id & Href & H)]; [exact H|].
  apply truthy_ref_none in Hr. destruct Hr as [Hr | Hr]; [congruence|].
  specialize (Hid 0%nat Hr). lia.
Qed.

Lemma one_poller_truthy_ref y old :
  useYouTube.one_poller y ->
  useYouTube.truthy_ref (useYouTube.timeUpdateInterval y) = Some old ->
  useYouTube.clear old (useYouTube.live y) = [].
Proof.
  intros (Hl & _ & _) Hr. apply truthy_ref_some in Hr. apply clear_poller.
  destruct Hl as [H | (id & Href & H)]; [now left | right]. congruence.
Qed.

Lemma step_one_poller PLAYING options y e :
  useYouTube.one_poller y ->
  useYouTube.one_poller (fst (useYouTube.step PLAYING options y e)).
Proof.
  intros Inv. pose proof Inv as (Hl & Hn & Hid).
  destruct e; cbn [useYouTube.step]; try exact Inv.
  - unfold useYouTube.onReady. destruct (useYouTube.playerRef y); exact Inv.
  - unfold useYouTube.onStateChange.
    destruct (data =? of_Z PLAYING).
    + cbn [fst]. unfold useYouTube.one_poller. cbn. split; [|split; [lia|]].
      * right. exists (useYouTube.next y). split; [reflexivity|]. f_equal.
        destruct (useYouTube.truthy_ref (useYouTube.timeUpdateInterval y)) eqn:R; cbn [fst].
        -- now apply one_poller_truthy_ref.
        -- now apply one_poller_no_truthy_ref.
      * intros id [= <-]. lia.
    + destruct (useYouTube.truthy_ref (useYouTube.timeUpdateInterval y)) eqn:R; cbn [fst].
      * unfold useYouTube.one_poller. cbn. split; [|split; [lia | discriminate]].
        left. now apply one_poller_truthy_ref.
      * exact Inv.
  - unfold useYouTube.poll. destruct (_ && _); exact Inv.
  - unfold useYouTube.playVideo. destruct (useYouTube.playerRef y); exact Inv.
  - unfold useYouTube.pauseVideo. destruct (useYouTube.playerRef y); exact Inv.
  - unfold useYouTube.seekTo. destruct (useYouTube.playerRef y); exact Inv.
  - unfold useYouTube.setPlaybackRate. destruct (useYouTube.playerRef y); exact Inv.
  - unfold useYouTube.toggleMute. destruct (useYouTube.playerRef y); [|exact Inv].
    destruct (useYouTube.isMuted y); exact Inv.
  - unfold useYouTube.setVolume. destruct (useYouTube.playerRef y); exact Inv.
  - unfold useYouTube.loadVideoById. destruct (useYouTube.playerRef y); exact Inv.
  - unfold useYouTube.cleanup. cbn [fst]. unfold useYouTube.one_poller. cbn.
    split; [|split; [exact Hn | exact Hid]].
    left. destruct (useYouTube.truthy_ref (useYouTube.timeUpdateInterval y)) eqn:R; cbn [fst].
    + now apply one_poller_truthy_ref.
    + now apply one_poller_no_truthy_ref.
Qed.

Lemma run_one_poller PLAYING options es :
  forall y, useYouTube.one_poller y ->
    useYouTube.one_poller (fst (useYouTube.run PLAYING options es y)).
Proof.
  induction es as [|e es IH]; intros y Inv; cbn [useYouTube.run]; [exact Inv|].
  pose proof (step_one_poller PLAYING options y e Inv) as H1.
  destruct (useYouTube.step PLAYING options y e) as [y1 o1]. cbn [fst] in H1.
  specialize (IH y1 H1).
  destruct (useYouTube.run PLAYING options es y1). exact IH.
Qed.

(** X19.  The hook never leaks a polling timer.  Whatever happens to it
    (player events in any order, calls, cleanups), at most one timer it has
    set is alive and the ref holds that one.  Right after a state change to
    PLAYING exactly one timer is alive; right after a state change to any
    other state, and right after a cleanup, none is. *)
Theorem polling_timer_is_never_leaked (PLAYING : Z) (options : useYouTube.Options)
    (first_id : nat) (events : list useYouTube.Event) :
  (1 <= first_id)%nat ->
  let after es := fst (useYouTube.run PLAYING options es (useYouTube.init first_id)) in
  useYouTube.one_poller (after events) /\
  (forall data,
     (data =? of_Z PLAYING) = true ->
     exists id,
       useYouTube.timeUpdateInterval (after (events ++ [useYouTube.StateChange data])%list)
         = Some id /\
       useYouTube.live (after (events ++ [useYouTube.StateChange data])%list) = [id]) /\
  (forall data,
     (data =? of_Z PLAYING) = false ->
     useYouTube.timeUpdateInterval (after (events ++ [useYouTube.StateChange data])%list) = None /\
     useYouTube.live (after (events ++ [useYouTube.StateChange data])%list) = []) /\
  useYouTube.live (after (events ++ [useYouTube.Cleanup])%list) = [].
Proof.
  intros Hfirst after.
  assert (Inv0 : useYouTube.one_poller (useYouTube.init first_id)).
  { unfold useYouTube.one_poller. cbn. split; [now left|]. split; [exact Hfirst | discriminate]. }
  assert (Inv : useYouTube.one_poller (after events)) by (now apply run_one_poller).
  assert (Hstep : forall e, after (events ++ [e])%list
                    = fst (useYouTube.step PLAYING options (after events) e))
    by (intros e; unfold after; apply youtube_run_app).
  split; [exact Inv|]. rewrite !Hstep.
  split; [|split].
  - intros data Hd. rewrite !Hstep. cbn [useYouTube.step].
    unfold useYouTube.onStateChange. rewrite Hd.
    cbn [fst useYouTube.timeUpdateInterval useYouTube.live].
    exists (useYouTube.next (after events)). split; [reflexivity|]. f_equal.
    destruct (useYouTube.truthy_ref _) eqn:R; cbn [fst].
    + now apply one_poller_truthy_ref.
    + now apply one_poller_no_truthy_ref.
  - intros data Hd. rewrite !Hstep. cbn [useYouTube.step].
    unfold useYouTube.onStateChange. rewrite Hd.
    destruct (useYouTube.truthy_ref _) eqn:R;
      cbn [fst useYouTube.timeUpdateInterval useYouTube.live].
    + split; [reflexivity | now apply one_poller_truthy_ref].
    + split; [|now apply one_poller_no_truthy_ref].
      pose proof Inv as (_ & _ & Hid).
      apply truthy_ref_none in R. destruct R as [R | R]; [exact R|].
      specialize (Hid 0%nat R). lia.
  - cbn [useYouTube.step]. unfold useYouTube.cleanup. cbn [fst useYouTube.live].
    destruct (useYouTube.truthy_ref _) eqn:R; cbn [fst].
    + now apply one_poller_truthy_ref.
    + now apply one_poller_no_truthy_ref.
Qed.

Lemma polling_timer_is_never_leaked_witness :
  useYouTube.live
    (fst (useYouTube.run 1 {| useYouTube.has_onStateChange := false;
                              useYouTube.has_onReady := false;
                              useYouTube.has_onTimeUpdate := true;
                              useYouTube.has_onError := false |}
            ([useYouTube.Created; useYouTube.Ready (Fin 240);
              useYouTube.StateChange (Fin 1); useYouTube.StateChange (Fin 3);
              useYouTube.StateChange (Fin 1)] ++ [useYouTube.Cleanup])%list
            (useYouTube.init 1))) = [].
Proof.
  apply (proj2 (proj2 (proj2 (polling_timer_is_never_leaked 1 _ 1 _ ltac:(lia))))).
Defined.

(** X20.  Without a player in the ref every call on the hook ([playVideo],
    [pauseVideo], [seekTo], [setPlaybackRate], [toggleMute], [setVolume],
    [loadVideoById]) does nothing at all.  With one, [toggleMute] twice
    gives back the same state, sending mute and unmute one after the other,
    and [seekTo] sets [currentTime] to its target at once and reports that
    very value. *)
Theorem calls_need_a_player (PLAYING : Z) (options : useYouTube.Options) (y : useYouTube.t) :
  (useYouTube.playerRef y = false ->
   forall e, useYouTube.is_call e = true ->
     useYouTube.step PLAYING options y e = (y, [])) /\
  (useYouTube.playerRef y = true ->
   let once := useYouTube.toggleMute y in
   let twice := useYouTube.toggleMute (fst once) in
   fst twice = y /\
   useYouTube.isMuted (fst once) = negb (useYouTube.isMuted y) /\
   (snd once ++ snd twice)%list =
     if useYouTube.isMuted y
     then [useYouTube.ToPlayer useYouTube.UnMute; useYouTube.ToPlayer useYouTube.Mute]
     else [useYouTube.ToPlayer useYouTube.Mute; useYouTube.ToPlayer useYouTube.UnMute]) /\
  (useYouTube.playerRef y = true ->
   forall seconds,
     useYouTube.currentTime (fst (useYouTube.seekTo options seconds y)) = seconds /\
     snd (useYouTube.seekTo options seconds y) =
       useYouTube.ToPlayer (useYouTube.SeekTo seconds true)
         :: (if useYouTube.has_onTimeUpdate options
             then [useYouTube.OnTimeUpdate seconds] else [])).
Proof.
  split; [|split].
  - intros Hp e He. destruct e; try discriminate He; cbn [useYouTube.step];
      unfold useYouTube.playVideo, useYouTube.pauseVideo, useYouTube.seekTo,
        useYouTube.setPlaybackRate, useYouTube.toggleMute, useYouTube.setVolume,
        useYouTube.loadVideoById; now rewrite Hp.
  - intros Hp. destruct y as [p ps ct d r m v ti pr l n]. cbn in Hp. subst pr.
    unfold useYouTube.toggleMute. cbn. destruct m; cbn; repeat split.
  - intros Hp seconds. unfold useYouTube.seekTo. rewrite Hp. split; reflexivity.
Qed.

Lemma calls_need_a_player_witness :
  useYouTube.step 1 {| useYouTube.has_onStateChange := false; useYouTube.has_onReady := false;
                       useYouTube.has_onTimeUpdate := true; useYouTube.has_onError := false |}
    (useYouTube.init 1) (useYouTube.CallSeek (Fin 30))
  = (useYouTube.init 1, []).
Proof.
  apply (proj1 (calls_need_a_player 1 _ (useYouTube.init 1))); reflexivity.
Defined.

Lemma max_zero_lower (b : num) : b <> NaN -> (of_Z 0 <=? JSMath.max (of_Z 0) b) = true.
Proof.
  intros Hb. destruct b as [|s|x]; [contradiction| |].
  - unfold JSMath.max, of_Z. destruct s; reflexivity.
  - unfold JSMath.max, of_Z. destruct (Fin (inject_Z 0) <=? Fin x) eqn:E; [exact E|].
    reflexivity.
Qed.

Lemma min_upper (a b : num) : a <> NaN -> b <> NaN -> (JSMath.min a b <=? a) = true.
Proof.
  intros Ha Hb. unfold JSMath.min.
  destruct a as [|sa|x]; [contradiction| |]; (destruct b as [|sb|y]; [contradiction| |]).
  - destruct sa, sb; reflexivity.
  - destruct sa; reflexivity.
  - destruct sb; cbn; [reflexivity|]. apply Qle_bool_iff, Qle_refl.
  - destruct (Fin x <=? Fin y) eqn:E; [apply Qle_bool_iff, Qle_refl|].
    cbn in E |- *. apply Qle_bool_iff. apply not_true_iff_false in E.
    rewrite Qle_bool_iff in E. apply Qlt_le_weak, Qnot_le_lt, E.
Qed.

Lemma add_finite_not_NaN (a : num) (z : Z) : a <> NaN -> a + of_Z z <> NaN.
Proof. destruct a as [|s|x]; [contradiction| |]; intros _; discriminate. Qed.

Lemma sub_finite_not_NaN (a : num) (z : Z) : a <> NaN -> a - of_Z z <> NaN.
Proof. destruct a as [|s|x]; [contradiction| |]; intros _; discriminate. Qed.

(** X21.  On a player that exists, the left arrow never seeks before 0 and
    the right arrow never seeks past the duration: afterwards [currentTime]
    is at least 0, respectively at most [duration].  Space sends pause when
    the state is PLAYING and play otherwise, and no key does anything while
    the focus is on an element outside the player. *)
Theorem arrow_keys_seek_within_bounds (PLAYING : Z) (options : useYouTube.Options)
    (y : useYouTube.t) :
  useYouTube.playerRef y = true ->
  useYouTube.currentTime y <> NaN ->
  (of_Z 0 <=? useYouTube.currentTime
                (fst (YouTubePlayer.keyDown PLAYING options false "ArrowLeft" y))) = true /\
  (useYouTube.duration y <> NaN ->
   (useYouTube.currentTime
      (fst (YouTubePlayer.keyDown PLAYING options false "ArrowRight" y))
    <=? useYouTube.duration y) = true) /\
  snd (YouTubePlayer.keyDown PLAYING options false " " y) =
    [useYouTube.ToPlayer
       (match useYouTube.playerState y with
        | Some s => if s =? of_Z PLAYING then useYouTube.PauseVideo else useYouTube.PlayVideo
        | None => useYouTube.PlayVideo
        end)] /\
  (forall key, YouTubePlayer.keyDown PLAYING options true key y = (y, [])).
Proof.
  intros Hp Ht. unfold YouTubePlayer.keyDown, YouTubePlayer.handleKeyDown.
  split; [|split; [|split]].
  - cbn. unfold useYouTube.seekTo. rewrite Hp. cbn.
    apply max_zero_lower. now apply sub_finite_not_NaN.
  - intros Hd. cbn. unfold useYouTube.seekTo. rewrite Hp. cbn.
    apply min_upper; [exact Hd | now apply add_finite_not_NaN].
  - cbn [String.eqb Ascii.eqb Bool.eqb].
    destruct (useYouTube.playerState y) as [s|]; [destruct (s =? of_Z PLAYING)|];
      cbn; unfold useYouTube.pauseVideo, useYouTube.playVideo; now rewrite Hp.
  - intros key. reflexivity.
Qed.

Lemma arrow_keys_seek_within_bounds_witness :
  let y := fst (useYouTube.run 1 {| useYouTube.has_onStateChange := false;
                                    useYouTube.has_onReady := false;
                                    useYouTube.has_onTimeUpdate := false;
                                    useYouTube.has_onError := false |}
                  [useYouTube.Created; useYouTube.Ready (Fin 240);
                   useYouTube.CallSeek (Fin 3)] (useYouTube.init 1)) in
  (of_Z 0 <=? useYouTube.currentTime
                (fst (YouTubePlayer.keyDown 1 {| useYouTube.has_onStateChange := false;
                                                 useYouTube.has_onReady := false;
                                                 useYouTube.has_onTimeUpdate := false;
                                                 useYouTube.has_onError := false |}
                        false "ArrowLeft" y))) = true.
Proof.
  intros y.
  apply (proj1 (arrow_keys_seek_within_bounds 1 _ y eq_refl ltac:(discriminate))).
Defined.

Lemma Qfloor_unique (x : Q) (z : Z) :
  inject_Z z <= x -> x < inject_Z (z + 1) -> Qfloor x = z.
Proof.
  intros H1 H2. apply Z.le_antisymm.
  - apply Z.lt_succ_r. rewrite Zlt_Qlt. unfold Z.succ.
    eapply Qle_lt_trans; [apply Qfloor_le | exact H2].
  - rewrite <- (Qfloor_Z z). now apply Qfloor_resp_le.
Qed.

Lemma Qfloor_div_60 (q : Q) : Qfloor (q / 60) = (Qfloor q / 60)%Z.
Proof.
  pose proof (Qfloor_le q) as Hlo. pose proof (Qlt_floor q) as Hhi.
  pose proof (Z.mul_div_le (Qfloor q) 60 ltac:(lia)) as H1.
  pose proof (Z.mul_succ_div_gt (Qfloor q) 60 ltac:(lia)) as H2.
  set (f := Qfloor q) in *. set (z := (f / 60)%Z) in *.
  assert (L1 : inject_Z (60 * z) <= inject_Z f) by (rewrite <- Zle_Qle; exact H1).
  assert (L2 : inject_Z (f + 1) <= inject_Z (60 * (z + 1)))
    by (rewrite <- Zle_Qle; unfold Z.succ in H2; lia).
  rewrite inject_Z_mult in L1, L2. rewrite inject_Z_plus in L2, Hhi.
  rewrite inject_Z_plus in L2.
  change (inject_Z 60) with 60%Q in *. change (inject_Z 1) with 1%Q in *.
  apply Qfloor_unique.
  - apply Qle_shift_div_l; [reflexivity|]. lra.
  - apply Qlt_shift_div_r; [reflexivity|]. rewrite inject_Z_plus.
    change (inject_Z 1) with 1%Q. lra.
Qed.

Lemma Qfloor_sub_Z (q : Q) (k : Z) : Qfloor (q - inject_Z k) = (Qfloor q - k)%Z.
Proof.
  pose proof (Qfloor_le q) as Hlo. pose proof (Qlt_floor q) as Hhi.
  apply Qfloor_unique.
  - unfold Z.sub. rewrite inject_Z_plus, inject_Z_opp. lra.
  - replace (Qfloor q - k + 1)%Z with ((Qfloor q + 1) - k)%Z by lia.
    unfold Z.sub. rewrite inject_Z_plus, inject_Z_opp. lra.
Qed.

Lemma string_of_whole_of_Z (k : Z) : JSMath.string_of_whole (of_Z k) = string_of_Z k.
Proof. unfold JSMath.string_of_whole, of_Z. now rewrite Qfloor_Z. Qed.

Lemma ltb_of_Z (a b : Z) : (of_Z a <? of_Z b) = (a <? b)%Z.
Proof.
  unfold of_Z. cbn [JS.ltb]. apply eq_true_iff_eq.
  rewrite Qltb_iff, Z.ltb_lt, Zlt_Qlt. reflexivity.
Qed.

(** X22.  For a time of [q >= 0] seconds [formatTime] shows the whole
    seconds [T = floor q] as [T div 60], a colon, and [T mod 60] with a 0
    in front when it is below 10.  [NaN] is shown as "NaN:NaN". *)
Theorem formatTime_minutes_and_seconds (q : Q) :
  0 <= q ->
  let total := Qfloor q in
  YouTubePlayer.formatTime (Fin q) =
    string_of_Z (total / 60) ++ ":"
      ++ (if (total mod 60 <? 10)%Z then "0" else "") ++ string_of_Z (total mod 60)
  /\ (0 <= total mod 60 < 60)%Z
  /\ YouTubePlayer.formatTime NaN = "NaN:NaN".
Proof.
  intros Hq total. subst total.
  split; [|split; [apply Z.mod_pos_bound; lia | reflexivity]].
  unfold YouTubePlayer.formatTime.
  assert (Hmins : JSMath.floor (Fin q / of_Z 60) = of_Z (Qfloor q / 60)).
  { unfold of_Z. cbn [JS.div]. change (Qis_zero (inject_Z 60)) with false.
    cbn [JSMath.floor]. unfold of_Z. f_equal. f_equal.
    rewrite <- Qfloor_div_60. apply Qfloor_comp. now rewrite Qred_correct. }
  assert (Hsecs : JSMath.floor (JSMath.rem (Fin q) (of_Z 60)) = of_Z (Qfloor q mod 60)).
  { unfold of_Z. cbn [JSMath.rem]. change (Qis_zero (inject_Z 60)) with false.
    cbn [JSMath.floor]. unfold of_Z. f_equal. f_equal.
    assert (Hneg : Qneg (q / inject_Z 60) = false).
    { apply not_true_iff_false. unfold Qneg. rewrite Qltb_iff.
      apply Qle_not_lt. apply Qle_shift_div_l; [reflexivity|]. now rewrite Qmult_0_l. }
    unfold JSMath.Qtrunc. rewrite Hneg.
    change (inject_Z 60) with 60%Q. rewrite Qfloor_div_60.
    transitivity (Qfloor (q - inject_Z (60 * (Qfloor q / 60)))).
    - apply Qfloor_comp. rewrite Qred_correct, inject_Z_mult. reflexivity.
    - rewrite Qfloor_sub_Z. rewrite Z.mod_eq by lia. reflexivity. }
  rewrite Hmins, Hsecs, !string_of_whole_of_Z, ltb_of_Z. reflexivity.
Qed.

Lemma formatTime_minutes_and_seconds_witness :
  YouTubePlayer.formatTime (Fin (1255 # 10)) = "2:05".
Proof.
  apply (proj1 (formatTime_minutes_and_seconds (1255 # 10) ltac:(discriminate))).
Defined.

(** X23.  The player's progress bar is a percentage: for a time within
    [0 .. duration] and a positive duration it lies between 0 and 100, and
    it is 0 when the duration is 0, negative or [NaN].  The practice
    controls compute the same ratio without that guard, so while the
    duration is 0 their position is never a finite number. *)
Theorem progress_is_a_percentage :
  (forall t d : Q, 0 <= t -> t <= d -> 0 < d ->
     exists p, YouTubePlayer.progressPercentage (Fin t) (Fin d) = Fin p /\
               0 <= p /\ p <= 100) /\
  (forall t d, (of_Z 0 <? d) = false -> YouTubePlayer.progressPercentage t d = of_Z 0) /\
  (forall t, ~ finite (PracticeControls_currentPercent t (of_Z 0))).
Proof.
  split; [|split].
  - intros t d Ht Htd Hd. unfold YouTubePlayer.progressPercentage, of_Z.
    cbn [JS.ltb]. replace (Qltb (inject_Z 0) d) with true
      by (symmetry; apply Qltb_iff; exact Hd).
    cbn [JS.div]. replace (Qis_zero d) with false
      by (symmetry; apply not_true_iff_false; rewrite Qis_zero_iff; lra).
    cbn [JS.mul]. eexists. split; [reflexivity|].
    rewrite !Qred_correct. change (inject_Z 100) with 100%Q.
    assert (H0 : 0 <= t / d) by (apply Qle_shift_div_l; [exact Hd | lra]).
    assert (H1 : t / d <= 1) by (apply Qle_shift_div_r; [exact Hd | lra]).
    split; [apply Qmult_le_0_compat; [exact H0 | discriminate]|].
    setoid_replace 100%Q with (1 * 100)%Q at 2 by ring.
    apply Qmult_le_compat_r; [exact H1 | discriminate].
  - intros t d Hd. unfold YouTubePlayer.progressPercentage. now rewrite Hd.
  - intros t. unfold PracticeControls_currentPercent, of_Z.
    destruct t as [|s|x]; cbn; try easy.
    destruct (Qis_zero x); cbn; easy.
Qed.

Lemma progress_is_a_percentage_witness :
  exists p, YouTubePlayer.progressPercentage (Fin 60) (Fin 240) = Fin p /\
            0 <= p /\ p <= 100.
Proof.
  apply (proj1 progress_is_a_percentage 60 240); [discriminate | discriminate | reflexivity].
Defined.

(* ================================================================== *)
(** ** Properties of the components *)
(* ================================================================== *)

Lemma leb_not_gt (a b : num) : (a <=? b) = true -> (b <? a) = false.
Proof.
  destruct a as [|[]|x], b as [|[]|y]; cbn; try easy.
  rewrite Qle_bool_iff, <- not_true_iff_false, Qltb_iff. intros H H'. lra.
Qed.

Lemma ltb_leb (a b : num) : (a <? b) = true -> (a <=? b) = true.
Proof.
  destruct a as [|[]|x], b as [|[]|y]; cbn; try easy.
  rewrite Qltb_iff, Qle_bool_iff. intros H. lra.
Qed.

Lemma ltb_trans (a b c : num) : (a <? b) = true -> (b <? c) = true -> (a <? c) = true.
Proof.
  destruct a as [|[]|x], b as [|[]|y], c as [|[]|z]; cbn; try easy.
  rewrite !Qltb_iff. intros; lra.
Qed.

Lemma ltb_asym (a b : num) : (a <? b) = true -> (b <? a) = false.
Proof.
  destruct a as [|[]|x], b as [|[]|y]; cbn; try easy.
  rewrite Qltb_iff, <- not_true_iff_false, Qltb_iff. intros H H'. lra.
Qed.

(** X24.  The tips box is empty unless a device is connected and more than
    10 notes were played.  The "you are late" and "you are early" tips never
    appear together; and when the praise appears it is the only tip, and
    both figures of the panel are shown in green. *)
Theorem tips_do_not_contradict (isConnected : bool) (notesPlayed accuracy timingOffset : num) :
  let shown := StatsPanel.tips isConnected notesPlayed accuracy timingOffset in
  (isConnected = false \/ (of_Z 10 <? notesPlayed) = false -> shown = []) /\
  ~ (In StatsPanel.PlayEarlier shown /\ In StatsPanel.Relax shown) /\
  (In StatsPanel.RaiseTempo shown ->
   shown = [StatsPanel.RaiseTempo] /\
   StatsPanel.getAccuracyColor accuracy = "text-green-500" /\
   StatsPanel.getTimingColor timingOffset = "text-green-500").
Proof.
  intros shown. unfold shown, StatsPanel.tips. split; [|split].
  - intros [-> | H]; [reflexivity|]. rewrite H. now rewrite andb_false_r.
  - destruct (isConnected && _); [|intros [[] _]].
    destruct (of_Z 0 <? timingOffset) eqn:Hpos.
    + rewrite (ltb_asym _ _ Hpos), andb_false_r.
      intros [_ H]. repeat (apply in_app_or in H; destruct H as [H | H]);
        repeat match goal with
               | H : In _ (if ?c then _ else _) |- _ => destruct c
               | H : In _ [] |- _ => destruct H
               | H : In _ [_] |- _ => destruct H as [H | []]; try discriminate H
               end.
    + rewrite andb_false_r.
      intros [H _]. repeat (apply in_app_or in H; destruct H as [H | H]);
        repeat match goal with
               | H : In _ (if ?c then _ else _) |- _ => destruct c
               | H : In _ [] |- _ => destruct H
               | H : In _ [_] |- _ => destruct H as [H | []]; try discriminate H
               end.
  - destruct (isConnected && _); [|intros []].
    destruct ((of_Z 90 <? accuracy) && (abs timingOffset <=? of_Z 50)) eqn:Hp.
    + intros _. apply andb_true_iff in Hp. destruct Hp as [Ha Ht].
      assert (H80 : (accuracy <? of_Z 80) = false).
      { apply ltb_asym. eapply ltb_trans; [|exact Ha]. reflexivity. }
      rewrite H80, (leb_not_gt _ _ Ht). cbn [andb app].
      split; [reflexivity|]. split.
      * unfold StatsPanel.getAccuracyColor, geb. now rewrite (ltb_leb _ _ Ha).
      * unfold StatsPanel.getTimingColor. now rewrite Ht.
    + intros H. exfalso.
      repeat (apply in_app_or in H; destruct H as [H | H]);
        repeat match goal with
               | H : In _ (if ?c then _ else _) |- _ => destruct c
               | H : In _ [] |- _ => destruct H
               | H : In _ [_] |- _ => destruct H as [H | []]; try discriminate H
               end.
Qed.

Lemma tips_do_not_contradict_witness :
  StatsPanel.tips true (Fin 24) (Fin 96) (Fin 12) = [StatsPanel.RaiseTempo].
Proof.
  apply (proj2 (proj2 (tips_do_not_contradict true (Fin 24) (Fin 96) (Fin 12)))).
  left. reflexivity.
Defined.

(** X25.  Given the hook's own average, the panel never says "Early" and
    never shows the "you are early" tip: [averageTimingOffset] has lost the
    sign of the offsets. *)
Theorem panel_never_reports_early (log : list MIDIAccuracy)
    (isConnected : bool) (notesPlayed accuracy : num) :
  (forall ms, StatsPanel.getTimingDescription (averageTimingOffset log) <> StatsPanel.Early ms) /\
  ~ In StatsPanel.Relax
       (StatsPanel.tips isConnected notesPlayed accuracy (averageTimingOffset log)).
Proof.
  assert (Hn : (averageTimingOffset log <? of_Z 0) = false).
  { unfold averageTimingOffset. destruct (0 <? List.length log)%nat eqn:E; [|reflexivity].
    apply Nat.ltb_lt in E.
    apply nonneg_round, nonneg_div_nat; [exact E|]. now apply nonneg_offsets_fold. }
  split.
  - intros ms. unfold StatsPanel.getTimingDescription. rewrite Hn.
    destruct (_ =? _); discriminate.
  - unfold StatsPanel.tips. rewrite Hn, andb_false_r.
    destruct (isConnected && _); [|intros []].
    intros H. repeat (apply in_app_or in H; destruct H as [H | H]);
      repeat match goal with
             | H : In _ (if ?c then _ else _) |- _ => destruct c
             | H : In _ [] |- _ => destruct H
             | H : In _ [_] |- _ => destruct H as [H | []]; try discriminate H
             end.
Qed.

Lemma pitchMap_steps step semitone :
  pitchMap step = Some semitone ->
  (step = "C" /\ semitone = 0%Z) \/ (step = "D" /\ semitone = 2%Z) \/
  (step = "E" /\ semitone = 4%Z) \/ (step = "F" /\ semitone = 5%Z) \/
  (step = "G" /\ semitone = 7%Z) \/ (step = "A" /\ semitone = 9%Z) \/
  (step = "B" /\ semitone = 11%Z).
Proof.
  unfold pitchMap.
  destruct (String.eqb step "C") eqn:EC;
    [apply String.eqb_eq in EC; intros [= <-]; tauto|].
  destruct (String.eqb step "D") eqn:ED;
    [apply String.eqb_eq in ED; intros [= <-]; tauto|].
  destruct (String.eqb step "E") eqn:EE;
    [apply String.eqb_eq in EE; intros [= <-]; tauto|].
  destruct (String.eqb step "F") eqn:EF;
    [apply String.eqb_eq in EF; intros [= <-]; tauto|].
  destruct (String.eqb step "G") eqn:EG;
    [apply String.eqb_eq in EG; intros [= <-]; tauto|].
  destruct (String.eqb step "A") eqn:EA;
    [apply String.eqb_eq in EA; intros [= <-]; tauto|].
  destruct (String.eqb step "B") eqn:EB;
    [apply String.eqb_eq in EB; intros [= <-]; tauto|].
  discriminate.
Qed.

Lemma rem_div_12 (p o : Z) :
  (0 <= p < 12)%Z -> (0 <= o)%Z ->
  Z.rem (p + 12 * o) 12 = p /\ ((p + 12 * o) / 12 = o)%Z.
Proof.
  intros Hp Ho. split.
  - rewrite Z.rem_mod_nonneg by lia.
    replace (p + 12 * o)%Z with (p + o * 12)%Z by lia.
    rewrite Z_mod_plus_full. apply Z.mod_small. lia.
  - replace (p + 12 * o)%Z with (p + o * 12)%Z by lia.
    rewrite Z.div_add by lia. rewrite (Z.div_small p 12) by lia. lia.
Qed.

(** X26.  The keyboard names a key one octave below the octave the parser
    read: a natural note parsed from step [s] and octave [o >= 0] has pitch
    [pitchMap[s] + 12 * o], and the key of that pitch is the white key
    labelled [s] followed by [o - 1]. *)
Theorem keyboard_labels_one_octave_below (step : string) (semitone o : Z) :
  pitchMap step = Some semitone ->
  (0 <= o)%Z ->
  PianoKeyboard.key_of (semitone + 12 * o) =
  Some {| PianoKeyboard.note := (semitone + 12 * o)%Z;
          PianoKeyboard.noteName := step ++ string_of_Z (o - 1);
          PianoKeyboard.isBlackKey := false |}.
Proof.
  intros Hs Ho.
  assert (Hcase := pitchMap_steps step semitone Hs).
  assert (Hp : (0 <= semitone < 12)%Z) by (decompose [or and] Hcase; subst; lia).
  destruct (rem_div_12 semitone o Hp Ho) as [Hr Hd].
  unfold PianoKeyboard.key_of. rewrite Hr, Hd.
  replace (semitone <? 0)%Z with false by (symmetry; apply Z.ltb_ge; lia).
  decompose [or and] Hcase; subst; reflexivity.
Qed.

Lemma keyboard_labels_one_octave_below_witness :
  PianoKeyboard.key_of (0 + 12 * 5) =
  Some {| PianoKeyboard.note := (0 + 12 * 5)%Z;
          PianoKeyboard.noteName := "C" ++ string_of_Z (5 - 1);
          PianoKeyboard.isBlackKey := false |}.
Proof.
  apply (keyboard_labels_one_octave_below "C" 0 5); [reflexivity | lia].
Defined.

Lemma key_of_note n key : PianoKeyboard.key_of n = Some key -> PianoKeyboard.note key = n.
Proof.
  unfold PianoKeyboard.key_of. destruct (Z.rem n 12 <? 0)%Z; [discriminate|].
  destruct (nth_error _ _); [|discriminate]. now intros [= <-].
Qed.

Lemma key_of_nonneg n : (0 <= n)%Z -> PianoKeyboard.key_of n <> None.
Proof.
  intros Hn. unfold PianoKeyboard.key_of.
  pose proof (Z.rem_bound_pos n 12 Hn ltac:(lia)) as Hr.
  replace (Z.rem n 12 <? 0)%Z with false by (symmetry; apply Z.ltb_ge; lia).
  destruct (nth_error PianoKeyboard.noteNames (Z.to_nat (Z.rem n 12))) eqn:E; [discriminate|].
  apply nth_error_None in E. cbn in E. lia.
Qed.

Lemma keys_from_lower c :
  forall n ks, PianoKeyboard.keys_from n c = Some ks ->
    List.length ks = c /\ forall k, In k ks -> (n <= PianoKeyboard.note k)%Z.
Proof.
  induction c as [|c IH]; intros n ks H; cbn in H.
  - injection H as <-. split; [reflexivity | intros k []].
  - destruct (PianoKeyboard.key_of n) as [key|] eqn:K; [|discriminate].
    destruct (PianoKeyboard.keys_from (n + 1) c) as [rest|] eqn:R; [|discriminate].
    injection H as <-. destruct (IH _ _ R) as [HL HB]. split; [cbn; now rewrite HL|].
    intros k [<- | Hk].
    + rewrite (key_of_note _ _ K). lia.
    + specialize (HB k Hk). lia.
Qed.

Lemma keys_from_succeeds c :
  forall n, (0 <= n)%Z -> PianoKeyboard.keys_from n c <> None.
Proof.
  induction c as [|c IH]; intros n Hn; cbn; [discriminate|].
  destruct (PianoKeyboard.key_of n) eqn:K; [|now apply key_of_nonneg in K].
  destruct (PianoKeyboard.keys_from (n + 1) c) eqn:R; [discriminate|].
  exfalso. apply (IH (n + 1)%Z); [lia | exact R].
Qed.

Lemma white_keys_before c :
  forall n ks, PianoKeyboard.keys_from n c = Some ks ->
    forall i key, nth_error (PianoKeyboard.whiteKeys ks) i = Some key ->
      List.length
        (filter (fun k => negb (PianoKeyboard.isBlackKey k)
                          && (PianoKeyboard.note k <? PianoKeyboard.note key)%Z) ks) = i.
Proof.
  induction c as [|c IH]; intros n ks H i key Hi; cbn in H.
  - injection H as <-. destruct i; discriminate.
  - destruct (PianoKeyboard.key_of n) as [k0|] eqn:K; [|discriminate].
    destruct (PianoKeyboard.keys_from (n + 1) c) as [rest|] eqn:R; [|discriminate].
    injection H as <-.
    pose proof (key_of_note _ _ K) as Hk0.
    destruct (keys_from_lower _ _ _ R) as [_ HB].
    unfold PianoKeyboard.whiteKeys in Hi. cbn [filter] in Hi |- *.
    destruct (PianoKeyboard.isBlackKey k0) eqn:B; cbn [negb andb] in Hi |- *.
    + eapply IH; eassumption.
    + destruct i as [|j]; cbn in Hi.
      * injection Hi as <-. rewrite Z.ltb_irrefl.
        rewrite filter_nil_iff; [reflexivity|].
        intros k Hk. specialize (HB k Hk). rewrite Hk0.
        replace (PianoKeyboard.note k <? n)%Z with false
          by (symmetry; apply Z.ltb_ge; lia).
        apply andb_false_r.
      * assert (Hin : In key rest).
        { apply nth_error_In in Hi. apply filter_In in Hi. apply Hi. }
        specialize (HB key Hin).
        replace (PianoKeyboard.note k0 <? PianoKeyboard.note key)%Z with true
          by (symmetry; apply Z.ltb_lt; lia).
        cbn [List.length]. f_equal. eapply IH; eassumption.
Qed.

(** X27.  For a keyboard that starts at a note [>= 0] the keys are built
    without failure, one per note of the range, and the white keys stand
    side by side: the [i]-th white key from the left has [left = 24 * i],
    so neighbours neither overlap nor leave a gap, and the total width is
    the right edge of the last white key. *)
Theorem white_keys_stand_side_by_side (startNote endNote : Z) :
  (0 <= startNote)%Z ->
  exists ks,
    PianoKeyboard.keys startNote endNote = Some ks /\
    List.length ks = Z.to_nat (endNote - startNote + 1) /\
    (forall i key, nth_error (PianoKeyboard.whiteKeys ks) i = Some key ->
       PianoKeyboard.whiteKeyLeft ks key = (24 * Z.of_nat i)%Z) /\
    PianoKeyboard.totalWidth ks
      = (24 * Z.of_nat (List.length (PianoKeyboard.whiteKeys ks)))%Z.
Proof.
  intros Hs. unfold PianoKeyboard.keys.
  destruct (PianoKeyboard.keys_from startNote (Z.to_nat (endNote - startNote + 1)))
    as [ks|] eqn:E; [|now apply keys_from_succeeds in E].
  exists ks. split; [reflexivity|]. split; [apply (keys_from_lower _ _ _ E)|]. split.
  - intros i key Hi. unfold PianoKeyboard.whiteKeyLeft.
    rewrite (white_keys_before _ _ _ E i key Hi).
    unfold PianoKeyboard.WHITE_KEY_WIDTH. lia.
  - unfold PianoKeyboard.totalWidth, PianoKeyboard.WHITE_KEY_WIDTH. lia.
Qed.

Lemma white_keys_stand_side_by_side_witness :
  exists ks,
    PianoKeyboard.keys 21 108 = Some ks /\
    List.length ks = 88%nat /\
    PianoKeyboard.totalWidth ks = (24 * 52)%Z.
Proof.
  destruct (white_keys_stand_side_by_side 21 108 ltac:(lia)) as (ks & E & L & _ & W).
  exists ks. split; [exact E|]. split; [exact L|].
  rewrite W. vm_compute in E. injection E as <-. reflexivity.
Defined.

Lemma staves_of_line_numbers total l :
  forall k c,
    map SheetViewer.measureNumber (SheetViewer.staves_of_line total l (seq c k)) =
    seq (l * 4 + c + 1) (Nat.min k (total - (l * 4 + c))).
Proof.
  induction k as [|k IH]; intros c; [reflexivity|].
  cbn [seq SheetViewer.staves_of_line]. unfold SheetViewer.measuresPerLine.
  destruct (total <? l * 4 + c + 1)%nat eqn:E.
  - apply Nat.ltb_lt in E. replace (Nat.min (S k) (total - (l * 4 + c))) with 0%nat by lia.
    reflexivity.
  - apply Nat.ltb_ge in E. cbn [map SheetViewer.measureNumber].
    rewrite IH.
    replace (Nat.min (S k) (total - (l * 4 + c)))
      with (S (Nat.min k (total - (l * 4 + S c)))) by lia.
    cbn [seq]. f_equal. f_equal. lia.
Qed.

Lemma staves_of_line_places total l columns :
  Forall (fun i => (i < 4)%nat) columns ->
  Forall (fun s => SheetViewer.measureNumber s
                   = (4 * SheetViewer.line s + SheetViewer.column s + 1)%nat
                   /\ (SheetViewer.column s < 4)%nat)
         (SheetViewer.staves_of_line total l columns).
Proof.
  induction 1 as [|i rest Hi _ IH]; cbn [SheetViewer.staves_of_line]; [constructor|].
  destruct (total <? l * SheetViewer.measuresPerLine + i + 1)%nat; [constructor|].
  constructor; [|exact IH].
  cbn. unfold SheetViewer.measuresPerLine. split; lia.
Qed.

Lemma lines_bound total :
  (total <= 4 * SheetViewer.lines total)%nat /\
  (forall l, (l < SheetViewer.lines total)%nat -> (4 * l + 1 <= total)%nat).
Proof.
  unfold SheetViewer.lines, SheetViewer.measuresPerLine. cbn [Nat.sub].
  pose proof (Nat.div_mod_eq (total + 3) 4) as H.
  pose proof (Nat.mod_upper_bound (total + 3) 4 ltac:(lia)) as Hm.
  split; [lia|]. intros l Hl. lia.
Qed.

Lemma staves_numbers_upto total L :
  (L <= SheetViewer.lines total)%nat ->
  map SheetViewer.measureNumber
      (flat_map (fun line => SheetViewer.staves_of_line total line (seq 0 4)) (seq 0 L))
  = seq 1 (Nat.min total (4 * L)).
Proof.
  induction L as [|L IH]; intros HL; [now rewrite Nat.mul_0_r, Nat.min_0_r|].
  rewrite (seq_S L 0), flat_map_app, map_app, IH by lia. cbn [flat_map Nat.add].
  rewrite app_nil_r, staves_of_line_numbers.
  pose proof (proj2 (lines_bound total) L ltac:(lia)) as Hfit.
  replace (Nat.min total (4 * L)) with (4 * L)%nat by lia.
  replace (L * 4 + 0 + 1)%nat with (1 + 4 * L)%nat by lia.
  rewrite <- seq_app. f_equal. lia.
Qed.

Lemma geb_threshold (dq : Q) (T : Z) (k : positive) :
  (0 < T)%Z -> (dq == 60 / inject_Z T)%Q ->
  (Fin dq >=? Fin (1 # k)) = (T <=? 60 * Z.pos k)%Z.
Proof.
  intros HT Hd. unfold geb. cbn [JS.leb]. apply eq_true_iff_eq.
  rewrite Qle_bool_iff, Z.leb_le, Hd.
  assert (HTq : (0 < inject_Z T)%Q)
    by (change 0%Q with (inject_Z 0); now rewrite <- Zlt_Qlt).
  rewrite Zle_Qle, inject_Z_mult. change (inject_Z 60) with 60%Q.
  set (t := inject_Z T) in *. set (kq := inject_Z (Z.pos k)).
  assert (Hk : (kq * (1 # k) == 1)%Q).
  { unfold kq, Qeq, Qmult, inject_Z. simpl. lia. }
  assert (Hkpos : (0 < kq)%Q) by reflexivity.
  assert (Hcancel : (60 / t * t == 60)%Q) by (field; lra).
  split.
  - intros H.
    assert (H1 : ((1 # k) * t <= 60)%Q).
    { rewrite <- Hcancel. apply Qmult_le_compat_r; [exact H | lra]. }
    assert (H2 : (kq * ((1 # k) * t) <= kq * 60)%Q).
    { rewrite !(Qmult_comm kq). apply Qmult_le_compat_r; [exact H1 | lra]. }
    setoid_replace (kq * ((1 # k) * t))%Q with ((kq * (1 # k)) * t)%Q in H2 by ring.
    rewrite Hk in H2. lra.
  - intros H. apply Qle_shift_div_l; [exact HTq|].
    assert (H2 : ((1 # k) * t <= (1 # k) * (60 * kq))%Q).
    { rewrite !(Qmult_comm (1 # k)). apply Qmult_le_compat_r; [exact H | discriminate]. }
    setoid_replace ((1 # k) * (60 * kq))%Q with (60 * (kq * (1 # k)))%Q in H2 by ring.
    rewrite Hk in H2. lra.
Qed.

Lemma quarter_in_seconds (T : Z) :
  (0 < T)%Z ->
  exists dq, durationInSeconds (of_Z T) (of_Z 4) "4" = Fin dq /\ (dq == 60 / inject_Z T)%Q.
Proof.
  intros HT. unfold durationInSeconds, of_int, of_Z. cbn [parseInt].
  assert (ZT : Qis_zero (inject_Z T) = false).
  { apply not_true_iff_false. rewrite Qis_zero_iff. unfold Qeq. simpl. lia. }
  change (parseInt "4") with (Some 4%Z). cbn [JS.div]. rewrite ZT.
  change (Qis_zero (inject_Z 4)) with false. cbn [JS.mul].
  eexists. split; [reflexivity|]. rewrite !Qred_correct.
  change (inject_Z 4) with 4%Q. change (inject_Z 60) with 60%Q. field.
  intros E. apply Qis_zero_iff in E. congruence.
Qed.

(** X29.  The sheet viewer picks the symbol of a note by its length in
    seconds, so the symbol of a quarter note depends on the tempo: at a
    tempo [T > 0] it is drawn as a whole note up to 60, a half note up to
    120, a quarter up to 240, an eighth up to 480 and a sixteenth above. *)
Theorem quarter_note_symbol_depends_on_tempo (T : Z) :
  (0 < T)%Z ->
  SheetViewer.vexDuration (durationInSeconds (of_Z T) (of_Z 4) "4") =
    if (T <=? 60)%Z then "w"
    else if (T <=? 120)%Z then "h"
    else if (T <=? 240)%Z then "q"
    else if (T <=? 480)%Z then "8"
    else "16".
Proof.
  intros HT. destruct (quarter_in_seconds T HT) as (dq & -> & Hd).
  unfold SheetViewer.vexDuration.
  change (of_Z 1) with (Fin (1 # 1)).
  rewrite !(geb_threshold dq T _ HT Hd). reflexivity.
Qed.

Lemma quarter_note_symbol_depends_on_tempo_witness :
  SheetViewer.vexDuration (durationInSeconds (of_Z 74) (of_Z 4) "4") = "h".
Proof.
  apply (quarter_note_symbol_depends_on_tempo 74). lia.
Defined.

(* ================================================================== *)
(** ** Facts about doubles *)
(* ================================================================== *)
Module Binary64Facts.
Import Binary64.

Local Open Scope Q_scope.

Lemma two_neq_0 : ~ 2 == 0.
Proof. discriminate. Qed.

Lemma pow2_pos e : 0 < pow2 e.
Proof. apply Qpower_0_lt. reflexivity. Qed.

Lemma pow2_add a b : pow2 (a + b) == pow2 a * pow2 b.
Proof. apply Qpower_plus, two_neq_0. Qed.

Lemma pow2_sub a b : pow2 (a - b) == pow2 a / pow2 b.
Proof. apply Qpower_minus, two_neq_0. Qed.

Lemma pow2_lt a b : (a < b)%Z -> pow2 a < pow2 b.
Proof. intros H. apply Qpower_lt_compat_l; [exact H | reflexivity]. Qed.

Lemma pow2_le a b : (a <= b)%Z -> pow2 a <= pow2 b.
Proof. intros H. apply Qpower_le_compat_l; [exact H | discriminate]. Qed.

Lemma pow2_lt_inv a b : pow2 a < pow2 b -> (a < b)%Z.
Proof. intros H. eapply Qpower_lt_compat_l_inv; [exact H | reflexivity]. Qed.

Lemma pow2_Z n : (0 <= n)%Z -> pow2 n == inject_Z (2 ^ n).
Proof. intros H. unfold pow2. now rewrite Zpower_Qpower. Qed.

Lemma pow2_succ a : pow2 (a + 1) == 2 * pow2 a.
Proof. rewrite pow2_add. change (pow2 1) with 2. ring. Qed.

(** The integer logarithm brackets its argument. *)
Lemma ilog2_spec a : 0 < a -> pow2 (ilog2 a) <= a /\ a < pow2 (ilog2 a + 1).
Proof.
  intros Ha. destruct a as [n d].
  assert (Hn : (0 < n)%Z) by (unfold Qlt in Ha; simpl in Ha; lia).
  unfold ilog2. cbn [Qnum Qden].
  set (ln := Z.log2 n). set (ld := Z.log2 (Z.pos d)).
  assert (Hln : (0 <= ln)%Z) by apply Z.log2_nonneg.
  assert (Hld : (0 <= ld)%Z) by apply Z.log2_nonneg.
  destruct (Z.log2_spec n Hn) as [Ln Un]. fold ln in Ln, Un.
  destruct (Z.log2_spec (Z.pos d) ltac:(lia)) as [Ld Ud]. fold ld in Ld, Ud.
  assert (Ln' : pow2 ln <= inject_Z n) by (rewrite pow2_Z by lia; now rewrite <- Zle_Qle).
  assert (Un' : inject_Z n < pow2 (ln + 1))
    by (rewrite pow2_Z by lia; rewrite <- Zlt_Qlt; replace (ln + 1)%Z with (Z.succ ln) by lia; exact Un).
  assert (Ld' : pow2 ld <= inject_Z (Z.pos d)) by (rewrite pow2_Z by lia; now rewrite <- Zle_Qle).
  assert (Ud' : inject_Z (Z.pos d) < pow2 (ld + 1))
    by (rewrite pow2_Z by lia; rewrite <- Zlt_Qlt; replace (ld + 1)%Z with (Z.succ ld) by lia; exact Ud).
  assert (E : n # d == inject_Z n / inject_Z (Z.pos d)) by apply Qmake_Qdiv.
  assert (Dpos : 0 < inject_Z (Z.pos d)) by reflexivity.
  pose proof (pow2_pos ln) as P1. pose proof (pow2_pos ld) as P2.
  assert (Up : n # d < pow2 (ln - ld + 1)).
  { rewrite E. apply Qlt_shift_div_r; [exact Dpos|].
    assert (EX : pow2 (ln - ld + 1) * pow2 ld == pow2 (ln + 1))
      by (rewrite <- pow2_add; now replace (ln - ld + 1 + ld)%Z with (ln + 1)%Z by lia).
    pose proof (pow2_pos (ln - ld + 1)) as P3.
    revert EX P3 Un' Ld' P2. generalize (pow2 (ln - ld + 1)) (pow2 (ln + 1)) (pow2 ld)
      (inject_Z n) (inject_Z (Z.pos d)). intros x q p A D EX P3 Un' Ld' P2. nra. }
  assert (Lo : pow2 (ln - ld - 1) <= n # d).
  { rewrite E. apply Qle_shift_div_l; [exact Dpos|].
    assert (EX : pow2 (ln - ld - 1) * pow2 (ld + 1) == pow2 ln)
      by (rewrite <- pow2_add; now replace (ln - ld - 1 + (ld + 1))%Z with ln by lia).
    pose proof (pow2_pos (ln - ld - 1)) as P3.
    revert EX P3 Ln' Ud'. generalize (pow2 (ln - ld - 1)) (pow2 ln) (pow2 (ld + 1))
      (inject_Z n) (inject_Z (Z.pos d)). intros x q p A D EX P3 Ln' Ud'. nra. }
  destruct (Qle_bool (pow2 (ln - ld)) (n # d)) eqn:B.
  - apply Qle_bool_iff in B. split; [exact B | exact Up].
  - split; [exact Lo|].
    replace (ln - ld - 1 + 1)%Z with (ln - ld)%Z by lia.
    apply Qnot_le_lt. intros C. apply Qle_bool_iff in C. congruence.
Qed.

Lemma nearest_even_spec q :
  inject_Z (nearest_even q) - q <= 1 # 2 /\ q - inject_Z (nearest_even q) <= 1 # 2.
Proof.
  unfold nearest_even.
  pose proof (Qfloor_le q) as L. pose proof (Qlt_floor q) as U.
  rewrite inject_Z_plus in U. change (inject_Z 1) with 1 in U.
  assert (H1 : inject_Z (Qfloor q + 1) == inject_Z (Qfloor q) + 1)
    by (rewrite inject_Z_plus; reflexivity).
  destruct (Qcompare (q - inject_Z (Qfloor q)) (1 # 2)) eqn:C.
  - apply Qeq_alt in C. destruct (Z.even (Qfloor q)); [|rewrite H1]; split; lra.
  - apply Qlt_alt in C. split; lra.
  - apply Qgt_alt in C. rewrite H1. split; lra.
Qed.

Lemma nearest_even_comp q q' : q == q' -> nearest_even q = nearest_even q'.
Proof.
  intros E. unfold nearest_even. rewrite (Qfloor_comp _ _ E).
  assert (C : Qcompare (q - inject_Z (Qfloor q')) (1 # 2)
              = Qcompare (q' - inject_Z (Qfloor q')) (1 # 2)).
  { apply Qcompare_comp; [now rewrite E | reflexivity]. }
  now rewrite C.
Qed.

Lemma nearest_even_Z z : nearest_even (inject_Z z) = z.
Proof.
  unfold nearest_even. rewrite Qfloor_Z.
  assert (C : Qcompare (inject_Z z - inject_Z z) (1 # 2) = Lt).
  { rewrite <- Qlt_alt. setoid_replace (inject_Z z - inject_Z z) with 0 by ring. reflexivity. }
  now rewrite C.
Qed.

Lemma Qred_pos q : 0 < q -> exists p d, Qred q = Z.pos p # d.
Proof.
  intros H. pose proof (Qred_correct q) as E. destruct (Qred q) as [n d].
  rewrite <- E in H. unfold Qlt in H. simpl in H.
  destruct n as [|p|p]; try lia. eauto.
Qed.

(** [round64] on a positive number, unfolded. *)
Lemma round64_pos q :
  0 < q ->
  exists a, a == q /\ 
    let e := Z.max (ilog2 a) (-1022) in
    let ulp := pow2 (e - 52) in
    let r := inject_Z (nearest_even (a / ulp)) * ulp in
    round64 q = if Qle_bool (pow2 1024) r then Inf false else Fin (Qred r).
Proof.
  intros H. destruct (Qred_pos q H) as (p & d & E).
  exists (Z.pos p # d). split; [rewrite <- E; apply Qred_correct|].
  unfold round64. rewrite E. reflexivity.
Qed.

Lemma round64_zero q : q == 0 -> round64 q = Fin 0.
Proof.
  intros H. unfold round64. rewrite (Qred_complete _ _ H). reflexivity.
Qed.

Lemma round64_comp q q' : q == q' -> round64 q = round64 q'.
Proof. intros H. unfold round64. now rewrite (Qred_complete _ _ H). Qed.

(** The relative error of rounding is at most 2^-53, away from the
    subnormal range and from overflow. *)
Lemma round64_error q :
  pow2 (-1022) <= q -> q <= pow2 1023 ->
  exists r, round64 q = Fin r /\ r - q <= q * pow2 (-53) /\ q - r <= q * pow2 (-53).
Proof.
  intros Lq Uq.
  assert (Hq : 0 < q) by (eapply Qlt_le_trans; [apply (pow2_pos (-1022)) | exact Lq]).
  destruct (round64_pos q Hq) as (a & Ea & R). cbn zeta in R.
  assert (Ha : 0 < a) by now rewrite Ea.
  destruct (ilog2_spec a Ha) as [Le Ue].
  assert (Hmax : Z.max (ilog2 a) (-1022) = ilog2 a).
  { apply Z.max_l. assert (pow2 (-1022) < pow2 (ilog2 a + 1)).
    { eapply Qle_lt_trans; [exact Lq|]. now rewrite <- Ea. }
    apply pow2_lt_inv in H. lia. }
  rewrite Hmax in R. set (e := ilog2 a) in *.
  set (ulp := pow2 (e - 52)) in *.
  set (m := nearest_even (a / ulp)) in *.
  assert (Hulp : 0 < ulp) by apply pow2_pos.
  destruct (nearest_even_spec (a / ulp)) as [M1 M2]. fold m in M1, M2.
  assert (Eu : ulp == pow2 e * pow2 (-52))
    by (unfold ulp; rewrite <- pow2_add; now replace (e + -52)%Z with (e - 52)%Z by lia).
  assert (Ediv : a / ulp * ulp == a) by (field; lra).
  assert (B1 : inject_Z m * ulp - a <= ulp * (1 # 2)).
  { rewrite <- Ediv at 1. 
    setoid_replace (inject_Z m * ulp - a / ulp * ulp) with ((inject_Z m - a / ulp) * ulp) by ring.
    rewrite (Qmult_comm ulp). apply Qmult_le_compat_r; lra. }
  assert (B2 : a - inject_Z m * ulp <= ulp * (1 # 2)).
  { rewrite <- Ediv at 1. 
    setoid_replace (a / ulp * ulp - inject_Z m * ulp) with ((a / ulp - inject_Z m) * ulp) by ring.
    rewrite (Qmult_comm ulp). apply Qmult_le_compat_r; lra. }
  assert (Ehalf : ulp * (1 # 2) == pow2 e * pow2 (-53)).
  { rewrite Eu. change (pow2 (-53)) with (pow2 (-52) * (1 # 2)). ring. }
  assert (B3 : ulp * (1 # 2) <= a * pow2 (-53)).
  { rewrite Ehalf. apply Qmult_le_compat_r; [exact Le | apply Qlt_le_weak, pow2_pos]. }
  assert (Hno : Qle_bool (pow2 1024) (inject_Z m * ulp) = false).
  { apply not_true_iff_false. intros C. apply Qle_bool_iff in C.
    assert (a <= pow2 1023) by now rewrite Ea.
    assert (K : a * pow2 (-53) <= pow2 1023 * pow2 (-53))
      by (apply Qmult_le_compat_r; [assumption | apply Qlt_le_weak, pow2_pos]).
    assert (K2 : pow2 1023 + pow2 1023 * pow2 (-53) < pow2 1024) by reflexivity.
    lra. }
  rewrite Hno in R. exists (Qred (inject_Z m * ulp)). split; [exact R|].
  rewrite Qred_correct, <- Ea. lra.
Qed.

(** A number with at most 53 significant bits, inside the range, is a double. *)
Lemma round64_exact (m k : Z) :
  (0 < m < 2 ^ 53)%Z -> (-1074 <= k)%Z -> inject_Z m * pow2 k < pow2 1024 ->
  round64 (inject_Z m * pow2 k) = Fin (Qred (inject_Z m * pow2 k)).
Proof.
  intros Hm Hk Hr. set (q := inject_Z m * pow2 k).
  assert (Mpos : 0 < inject_Z m) by (change (inject_Z 0 < inject_Z m); rewrite <- Zlt_Qlt; lia).
  assert (Hq : 0 < q).
  { unfold q. pose proof (pow2_pos k). nra. }
  destruct (round64_pos q Hq) as (a & Ea & R). cbn zeta in R.
  assert (Ha : 0 < a) by now rewrite Ea.
  destruct (ilog2_spec a Ha) as [Le _].
  set (e := Z.max (ilog2 a) (-1022)) in *.
  assert (He : (e <= k + 52)%Z).
  { assert (Hlt : pow2 (ilog2 a) < pow2 (k + 53)).
    { eapply Qle_lt_trans; [exact Le|]. rewrite Ea. unfold q.
      rewrite (Z.add_comm k 53), pow2_add.
      apply Qmult_lt_compat_r; [apply pow2_pos|].
      rewrite pow2_Z by lia. rewrite <- Zlt_Qlt. lia. }
    apply pow2_lt_inv in Hlt. unfold e. lia. }
  set (j := (k - (e - 52))%Z).
  assert (Hj : (0 <= j)%Z) by (unfold j; lia).
  assert (Ek : pow2 k == pow2 j * pow2 (e - 52)).
  { rewrite <- pow2_add. now replace (j + (e - 52))%Z with k by (unfold j; lia). }
  pose proof (pow2_pos (e - 52)) as Hulp.
  assert (Ediv : a / pow2 (e - 52) == inject_Z (m * 2 ^ j)).
  { rewrite Ea. unfold q. rewrite Ek, inject_Z_mult, <- (pow2_Z j Hj).
    field. lra. }
  rewrite (nearest_even_comp _ _ Ediv), nearest_even_Z in R.
  assert (Er : inject_Z (m * 2 ^ j) * pow2 (e - 52) == q).
  { unfold q. rewrite Ek, inject_Z_mult, <- (pow2_Z j Hj). ring. }
  assert (Hno : Qle_bool (pow2 1024) (inject_Z (m * 2 ^ j) * pow2 (e - 52)) = false).
  { apply not_true_iff_false. intros C. apply Qle_bool_iff in C.
    rewrite Er in C. apply (Qlt_not_le _ _ Hr C). }
  rewrite Hno in R. rewrite R. f_equal. apply Qred_complete. exact Er.
Qed.

Lemma Qred_inject_Z z : Qred (inject_Z z) = inject_Z z.
Proof.
  unfold Qred, inject_Z.
  pose proof (Z.ggcd_gcd z 1) as G. pose proof (Z.ggcd_correct_divisors z 1) as D.
  destruct (Z.ggcd z 1) as [g [a b]]. cbn [fst snd] in *.
  rewrite Z.gcd_1_r in G. subst g. destruct D as [D1 D2].
  replace a with z by lia. replace b with 1%Z by lia. reflexivity.
Qed.

(** A non-negative integer below 2^53 is a double. *)
Lemma round64_Z (z : Z) :
  (0 <= z < 2 ^ 53)%Z -> round64 (inject_Z z) = Fin (inject_Z z).
Proof.
  intros Hz. destruct (Z.eq_dec z 0) as [->|Hne]; [reflexivity|].
  assert (E : inject_Z z == inject_Z z * pow2 0) by (change (pow2 0) with 1; ring).
  rewrite (round64_comp _ _ E), round64_exact.
  - f_equal. rewrite <- (Qred_complete _ _ E). apply Qred_inject_Z.
  - lia.
  - lia.
  - rewrite <- E. apply Qlt_trans with (pow2 53); [|now apply pow2_lt].
    rewrite pow2_Z by lia. rewrite <- Zlt_Qlt. lia.
Qed.

(** So is an odd multiple of one half below 2^52. *)
Lemma round64_half (z : Z) :
  (0 < z < 2 ^ 53)%Z -> round64 (inject_Z z / 2) = Fin (Qred (inject_Z z / 2)).
Proof.
  intros Hz.
  assert (E : inject_Z z / 2 == inject_Z z * pow2 (-1)) by (change (pow2 (-1)) with (/ 2); reflexivity).
  rewrite (round64_comp _ _ E), round64_exact.
  - f_equal; apply Qred_complete; now symmetry.
  - lia.
  - lia.
  - apply Qlt_trans with (pow2 53 * pow2 (-1)); [|reflexivity].
    apply Qmult_lt_compat_r; [reflexivity|].
    rewrite pow2_Z by lia. rewrite <- Zlt_Qlt. lia.
Qed.

End Binary64Facts.

(** The rounding above against the kernel's binary64 floats, on the
    operations the counterexamples below run through. *)
Module HardwareCheck.
Import PrimFloat FloatOps SpecFloat.

Example tenth_is_the_hardware_tenth :
  Binary64.of_spec_float (Prim2SF (1 / 10)%float) = Binary64.div (Fin 1) (Fin 10).
Proof. vm_compute. reflexivity. Qed.

Example tenth_plus_fifth_as_in_hardware :
  Binary64.of_spec_float (Prim2SF (1 / 10 + 2 / 10)%float)
  = Binary64.add (Binary64.div (Fin 1) (Fin 10)) (Binary64.div (Fin 2) (Fin 10)).
Proof. vm_compute. reflexivity. Qed.

Example clock_difference_as_in_hardware :
  Binary64.of_spec_float (Prim2SF ((1 / 10 + 2 / 10) - 1 / 10)%float)
  = Binary64.sub
      (Binary64.add (Binary64.div (Fin 1) (Fin 10)) (Binary64.div (Fin 2) (Fin 10)))
      (Binary64.div (Fin 1) (Fin 10)).
Proof. vm_compute. reflexivity. Qed.

Example percentage_as_in_hardware :
  Binary64.of_spec_float (Prim2SF (23 / 40 * 100)%float)
  = Binary64.mul (Binary64.div (Fin 23) (Fin 40)) (Fin 100).
Proof. vm_compute. reflexivity. Qed.

Example sixty_over_150_as_in_hardware :
  Binary64.of_spec_float (Prim2SF (1 / 4 * (60 / 150))%float)
  = Binary64.mul (Binary64.div (Fin 1) (Fin 4)) (Binary64.div (Fin 60) (Fin 150)).
Proof. vm_compute. reflexivity. Qed.

Example overflow_as_in_hardware :
  Binary64.of_spec_float (Prim2SF (Z.ldexp 1 1023 * 2)%float)
  = Binary64.mul (Fin (Binary64.pow2 1023)) (Fin 2).
Proof. vm_compute. reflexivity. Qed.

Example underflow_as_in_hardware :
  Binary64.of_spec_float (Prim2SF (Z.ldexp 3 (-1074) / 2)%float)
  = Binary64.div (Fin (3 * Binary64.pow2 (-1074))) (Fin 2).
Proof. vm_compute. reflexivity. Qed.

Example tie_goes_to_even_as_in_hardware :
  Binary64.of_spec_float (Prim2SF (Z.ldexp 1 53 + 1)%float)
  = Binary64.add (Fin (Binary64.pow2 53)) (Fin 1)
  /\ Binary64.of_spec_float (Prim2SF (Z.ldexp 1 53 + 3)%float)
    = Binary64.add (Fin (Binary64.pow2 53)) (Fin 3).
Proof. split; vm_compute; reflexivity. Qed.

Example negative_as_in_hardware :
  Binary64.of_spec_float (Prim2SF (1 / 10 - 3 / 10)%float)
  = Binary64.sub (Binary64.div (Fin 1) (Fin 10)) (Binary64.div (Fin 3) (Fin 10)).
Proof. vm_compute. reflexivity. Qed.

(** The four operations on pseudo-random pairs of doubles: 200 pairs of
    moderate size, and 60 pairs whose exponents run over the whole range,
    subnormal numbers and overflow included. *)
Example operations_as_in_hardware :
  Binary64Sample.disagreements 200 (-80) 41 12345 = 0%nat /\
  Binary64Sample.disagreements 60 (-1152) 2200 777 = 0%nat.
Proof. split; vm_compute; reflexivity. Qed.

End HardwareCheck.

(* ================================================================== *)
(** ** The aggregates of the accuracy log in double arithmetic *)
(* ================================================================== *)

Module AggregateFacts.
Import Binary64 Binary64Facts.
Local Open Scope Q_scope.

Lemma Fin_inj (q q' : Q) : Fin q = Fin q' -> q = q'.
Proof. now intros [= ->]. Qed.

Lemma inject_Z_pos z : (0 < z)%Z -> 0 < inject_Z z.
Proof. intros H. change (inject_Z 0 < inject_Z z). now rewrite <- Zlt_Qlt. Qed.

Lemma Qis_zero_pos q : 0 < q -> Qis_zero q = false.
Proof.
  intros H. unfold Qis_zero. apply not_true_iff_false. intros E.
  apply Qeq_bool_iff in E. rewrite E in H. discriminate H.
Qed.

(** An integer is within one half of a fraction with denominator [n] as
    soon as it is within one half plus less than [1 / (2 n)]. *)
Lemma nearest_by_denominator (k c n : Z) (d : Q) :
  (0 < n)%Z ->
  d * inject_Z n < 1 # 2 ->
  inject_Z k - inject_Z c / inject_Z n <= (1 # 2) + d ->
  inject_Z c / inject_Z n - inject_Z k <= (1 # 2) + d ->
  inject_Z k - inject_Z c / inject_Z n <= 1 # 2 /\
  inject_Z c / inject_Z n - inject_Z k <= 1 # 2.
Proof.
  intros Hn Hd H1 H2.
  pose proof (inject_Z_pos n Hn) as HN.
  set (t := (k * n - c)%Z).
  assert (Et : inject_Z t == (inject_Z k - inject_Z c / inject_Z n) * inject_Z n).
  { unfold t. unfold Z.sub. rewrite inject_Z_plus, inject_Z_opp, inject_Z_mult. field. lra. }
  assert (B1 : inject_Z t <= ((1 # 2) + d) * inject_Z n)
    by (rewrite Et; apply Qmult_le_compat_r; lra).
  assert (B2 : - inject_Z t <= ((1 # 2) + d) * inject_Z n).
  { setoid_replace (- inject_Z t) with ((inject_Z c / inject_Z n - inject_Z k) * inject_Z n)
      by (rewrite Et; ring).
    apply Qmult_le_compat_r; lra. }
  assert (Z1 : (2 * t < n + 1)%Z).
  { rewrite Zlt_Qlt, inject_Z_mult, inject_Z_plus. change (inject_Z 2) with 2.
    change (inject_Z 1) with 1. lra. }
  assert (Z2 : (2 * - t < n + 1)%Z).
  { rewrite Zlt_Qlt, inject_Z_mult, inject_Z_opp, inject_Z_plus. change (inject_Z 2) with 2.
    change (inject_Z 1) with 1. lra. }
  assert (Q1 : 2 * inject_Z t <= inject_Z n).
  { change 2 with (inject_Z 2). rewrite <- inject_Z_mult, <- Zle_Qle. lia. }
  assert (Q2 : 2 * - inject_Z t <= inject_Z n).
  { change 2 with (inject_Z 2). rewrite <- inject_Z_opp, <- inject_Z_mult, <- Zle_Qle. lia. }
  assert (Ek : inject_Z k - inject_Z c / inject_Z n == inject_Z t / inject_Z n)
    by (rewrite Et; field; lra).
  split.
  - rewrite Ek. apply Qle_shift_div_r; [exact HN | lra].
  - setoid_replace (inject_Z c / inject_Z n - inject_Z k) with (- inject_Z t / inject_Z n)
      by (rewrite Et; field; lra).
    apply Qle_shift_div_r; [exact HN | lra].
Qed.

(** [Math.round((c / n) * 100)] in doubles is an integer within one half of
    the exact percentage. *)
Lemma percentage_nearest (c n : Z) :
  (0 <= c <= n)%Z -> (0 < n < 2 ^ 32)%Z ->
  exists k : Z,
    JS.round (mul (div (of_Z c) (of_Z n)) (of_Z 100)) = of_Z k /\
    inject_Z k - inject_Z (100 * c) / inject_Z n <= 1 # 2 /\
    inject_Z (100 * c) / inject_Z n - inject_Z k <= 1 # 2.
Proof.
  intros Hc Hn.
  pose proof (inject_Z_pos n ltac:(lia)) as HN.
  assert (HN32 : inject_Z n < inject_Z (2 ^ 32)) by (rewrite <- Zlt_Qlt; lia).
  change (inject_Z (2 ^ 32)) with 4294967296 in HN32.
  unfold div, mul, of_Z. cbn [JS.div]. rewrite (Qis_zero_pos _ HN). cbn [rnd JS.mul].
  destruct (Z.eq_dec c 0) as [->|Hc0].
  - exists 0%Z.
    assert (E1 : Qred (inject_Z 0 / inject_Z n) == 0) by (rewrite Qred_correct; field; lra).
    rewrite (round64_zero _ E1). cbn [JS.mul rnd].
    split; [reflexivity|].
    change (inject_Z (100 * 0)) with 0. change (inject_Z 0) with 0.
    split.
    + setoid_replace (0 - 0 / inject_Z n) with 0 by (field; lra). discriminate.
    + setoid_replace (0 / inject_Z n - 0) with 0 by (field; lra). discriminate.
  - assert (HC : 1 <= inject_Z c) by (change 1 with (inject_Z 1); rewrite <- Zle_Qle; lia).
    assert (HCN : inject_Z c <= inject_Z n) by (rewrite <- Zle_Qle; lia).
    set (x := inject_Z c / inject_Z n).
    assert (Ex : x * inject_Z n == inject_Z c) by (unfold x; field; lra).
    assert (Hx1 : x <= 1) by (unfold x; apply Qle_shift_div_r; lra).
    assert (Hx0 : 1 # 4294967296 <= x).
    { unfold x. apply Qle_shift_div_l; [exact HN|]. lra. }
    assert (Eq1 : Qred x == x) by apply Qred_correct.
    destruct (round64_error (Qred x)) as (r1 & R1 & A1 & B1).
    { rewrite Eq1. apply Qle_trans with (1 # 4294967296); [discriminate | exact Hx0]. }
    { rewrite Eq1. apply Qle_trans with 1; [exact Hx1 | discriminate]. }
    rewrite R1. cbn [JS.mul rnd].
    rewrite Eq1 in A1, B1.
    change (pow2 (-53)) with (1 # 9007199254740992) in A1, B1.
    assert (Eq2 : Qred (r1 * inject_Z 100) == r1 * 100) by (rewrite Qred_correct; reflexivity).
    destruct (round64_error (Qred (r1 * inject_Z 100))) as (r2 & R2 & A2 & B2).
    { rewrite Eq2. apply Qle_trans with (1 # 4294967296); [discriminate | lra]. }
    { rewrite Eq2. apply Qle_trans with 200; [lra | discriminate]. }
    rewrite R2. cbn [JS.round].
    rewrite Eq2 in A2, B2.
    change (pow2 (-53)) with (1 # 9007199254740992) in A2, B2.
    set (k := Qfloor (r2 + (1 # 2))).
    pose proof (Qfloor_le (r2 + (1 # 2))) as F1.
    pose proof (Qlt_floor (r2 + (1 # 2))) as F2.
    fold k in F1, F2. rewrite inject_Z_plus in F2. change (inject_Z 1) with 1 in F2.
    exists k. split; [reflexivity|].
    assert (Ey : inject_Z (100 * c) / inject_Z n == 100 * x).
    { rewrite inject_Z_mult. unfold x. change (inject_Z 100) with 100. field. lra. }
    rewrite Ey.
    assert (G : inject_Z k - inject_Z (100 * c) / inject_Z n <= (1 # 2) + (1 # 17179869184)
                /\ inject_Z (100 * c) / inject_Z n - inject_Z k <= (1 # 2) + (1 # 17179869184)).
    { rewrite Ey. split; lra. }
    destruct (nearest_by_denominator k (100 * c) n (1 # 17179869184) ltac:(lia) ltac:(lra)
                (proj1 G) (proj2 G)) as [G1 G2].
    rewrite Ey in G1, G2. split; assumption.
Qed.

(** Being within one half of [c / n], counted in whole numbers. *)
Lemma within_half_Z (k c n : Z) :
  (0 < n)%Z ->
  inject_Z k - inject_Z c / inject_Z n <= 1 # 2 ->
  inject_Z c / inject_Z n - inject_Z k <= 1 # 2 ->
  (2 * (k * n - c) <= n /\ 2 * (c - k * n) <= n)%Z.
Proof.
  intros Hn H1 H2. pose proof (inject_Z_pos n Hn) as HN.
  assert (E : inject_Z (k * n - c) == (inject_Z k - inject_Z c / inject_Z n) * inject_Z n).
  { unfold Z.sub. rewrite inject_Z_plus, inject_Z_opp, inject_Z_mult. field. lra. }
  assert (B1 : (inject_Z k - inject_Z c / inject_Z n) * inject_Z n <= (1 # 2) * inject_Z n)
    by (apply Qmult_le_compat_r; lra).
  assert (B2 : (inject_Z c / inject_Z n - inject_Z k) * inject_Z n <= (1 # 2) * inject_Z n)
    by (apply Qmult_le_compat_r; lra).
  split.
  - rewrite Zle_Qle, inject_Z_mult, E. change (inject_Z 2) with 2. lra.
  - replace (c - k * n)%Z with (- (k * n - c))%Z by lia.
    rewrite Zle_Qle, inject_Z_mult, inject_Z_opp, E. change (inject_Z 2) with 2. lra.
Qed.

(** [Math.round] of the exact quotient [c / n], in whole numbers. *)
Lemma round_quotient_Z (c n k : Z) :
  (0 < n)%Z -> (2 * k * n <= 2 * c + n < 2 * (k + 1) * n)%Z ->
  JS.round (JS.div (of_Z c) (of_Z n)) = of_Z k.
Proof.
  intros Hn Hk. pose proof (inject_Z_pos n Hn) as HN.
  unfold of_Z. cbn [JS.div]. rewrite (Qis_zero_pos _ HN). cbn [JS.round].
  unfold of_Z. f_equal. f_equal. rewrite Qred_correct.
  assert (E : (inject_Z c / inject_Z n + (1 # 2)) * (2 * inject_Z n)
              == inject_Z (2 * c + n)).
  { rewrite inject_Z_plus, inject_Z_mult. change (inject_Z 2) with 2. field. lra. }
  apply Qfloor_unique.
  - apply Qmult_le_r with (2 * inject_Z n); [lra|]. rewrite E.
    change 2 with (inject_Z 2). rewrite <- !inject_Z_mult, <- Zle_Qle. lia.
  - apply Qmult_lt_r with (2 * inject_Z n); [lra|]. rewrite E.
    change 2 with (inject_Z 2). rewrite <- !inject_Z_mult, <- Zlt_Qlt. lia.
Qed.

(** Away from an exact half the double percentage is the rounded exact one. *)
Lemma percentage_exact_off_ties (c n : Z) :
  (0 <= c <= n)%Z -> (0 < n < 2 ^ 32)%Z ->
  (forall j : Z, 2 * (100 * c) <> (2 * j + 1) * n)%Z ->
  JS.round (mul (div (of_Z c) (of_Z n)) (of_Z 100))
  = JS.round (JS.div (of_Z (100 * c)) (of_Z n)).
Proof.
  intros Hc Hn Htie.
  destruct (percentage_nearest c n Hc Hn) as (k & -> & K1 & K2).
  destruct (within_half_Z k (100 * c) n ltac:(lia) K1 K2) as [Z1 Z2].
  symmetry. apply round_quotient_Z; [lia|].
  specialize (Htie k). lia.
Qed.

(** The rounded mean of whole numbers below 2^52 is exact in doubles. *)
Lemma mean_rounds_exactly (S n : Z) :
  (0 <= S < 2 ^ 52)%Z -> (0 < n < 2 ^ 32)%Z ->
  JS.round (div (of_Z S) (of_Z n)) = JS.round (JS.div (of_Z S) (of_Z n)).
Proof.
  intros HS Hn. pose proof (inject_Z_pos n ltac:(lia)) as HN.
  assert (HN1 : 1 <= inject_Z n) by (change 1 with (inject_Z 1); rewrite <- Zle_Qle; lia).
  unfold div, of_Z. cbn [JS.div]. rewrite (Qis_zero_pos _ HN). cbn [rnd JS.round].
  set (x := inject_Z S / inject_Z n).
  assert (Eq : Qred x == x) by apply Qred_correct.
  assert (Ex : x * inject_Z n == inject_Z S) by (unfold x; field; lra).
  destruct (Z.eq_dec S 0) as [->|HS0].
  - assert (E0 : Qred x == 0) by (rewrite Eq; unfold x; field; lra).
    rewrite (round64_zero _ E0). cbn [JS.round].
    f_equal; apply Qfloor_comp; now rewrite E0.
  - assert (HS1 : 1 <= inject_Z S) by (change 1 with (inject_Z 1); rewrite <- Zle_Qle; lia).
    assert (HS52 : inject_Z S < inject_Z (2 ^ 52)) by (rewrite <- Zlt_Qlt; lia).
    change (inject_Z (2 ^ 52)) with 4503599627370496 in HS52.
    assert (HN32 : inject_Z n < inject_Z (2 ^ 32)) by (rewrite <- Zlt_Qlt; lia).
    change (inject_Z (2 ^ 32)) with 4294967296 in HN32.
    assert (Hx0 : 1 # 4294967296 <= x) by (unfold x; apply Qle_shift_div_l; lra).
    assert (Hx1 : x < 4503599627370496) by (unfold x; apply Qlt_shift_div_r; nra).
    destruct (round64_error (Qred x)) as (r & R & A & B).
    { rewrite Eq. apply Qle_trans with (1 # 4294967296); [discriminate | exact Hx0]. }
    { rewrite Eq. apply Qle_trans with 4503599627370496; [lra | discriminate]. }
    rewrite R. cbn [JS.round]. f_equal.
    rewrite Eq in A, B. change (pow2 (-53)) with (1 # 9007199254740992) in A, B.
    set (k0 := Qfloor (Qred x + (1 # 2))).
    pose proof (Qfloor_le (Qred x + (1 # 2))) as F1.
    pose proof (Qlt_floor (Qred x + (1 # 2))) as F2.
    fold k0 in F1, F2. rewrite inject_Z_plus in F2. change (inject_Z 1) with 1 in F2.
    rewrite Eq in F1, F2.
    assert (E2 : (x + (1 # 2)) * (2 * inject_Z n) == inject_Z (2 * S + n)).
    { rewrite inject_Z_plus, inject_Z_mult. change (inject_Z 2) with 2. unfold x. field. lra. }
    assert (Z1 : (2 * k0 * n <= 2 * S + n)%Z).
    { rewrite Zle_Qle, <- E2, !inject_Z_mult. change (inject_Z 2) with 2.
      setoid_replace (2 * inject_Z k0 * inject_Z n) with (inject_Z k0 * (2 * inject_Z n)) by ring.
      apply Qmult_le_compat_r; lra. }
    assert (Z2 : (2 * S + n < 2 * (k0 + 1) * n)%Z).
    { rewrite Zlt_Qlt, <- E2, !inject_Z_mult, inject_Z_plus. change (inject_Z 2) with 2.
      change (inject_Z 1) with 1.
      setoid_replace (2 * (inject_Z k0 + 1) * inject_Z n)
        with ((inject_Z k0 + 1) * (2 * inject_Z n)) by ring.
      apply Qmult_lt_compat_r; lra. }
    apply Qfloor_unique; rewrite ?inject_Z_plus; change (inject_Z 1) with 1.
    + destruct (Z.eq_dec (2 * k0 * n) (2 * S + n)) as [Tie|NoTie].
      * (* the mean is an odd multiple of one half: it is a double *)
        assert (Ez : x == inject_Z (2 * k0 - 1) / 2).
        { assert (E3 : (x + (1 # 2)) * (2 * inject_Z n) == inject_Z k0 * (2 * inject_Z n)).
          { rewrite E2, <- Tie, !inject_Z_mult. change (inject_Z 2) with 2. ring. }
          assert (E4 : x + (1 # 2) == inject_Z k0).
          { apply Qmult_inj_r with (2 * inject_Z n); [lra | exact E3]. }
          unfold Z.sub. rewrite inject_Z_plus, inject_Z_mult, inject_Z_opp.
          change (inject_Z 2) with 2. change (inject_Z 1) with 1.
          rewrite <- E4. field. }
        assert (Ez2 : inject_Z (2 * k0 - 1) == 2 * x) by (rewrite Ez; field).
        assert (Hz : (0 < 2 * k0 - 1 < 2 ^ 53)%Z).
        { split.
          - rewrite Zlt_Qlt, Ez2. change (inject_Z 0) with 0. lra.
          - rewrite Zlt_Qlt, Ez2. change (inject_Z (2 ^ 53)) with 9007199254740992. lra. }
        assert (Er : round64 (Qred x) = Fin (Qred (inject_Z (2 * k0 - 1) / 2))).
        { rewrite <- (round64_half _ Hz). apply round64_comp. now rewrite Eq. }
        rewrite R in Er. apply Fin_inj in Er.
        rewrite Er, Qred_correct, <- Ez. exact F1.
      * assert (T : 1 <= (x + (1 # 2) - inject_Z k0) * (2 * inject_Z n)).
        { setoid_replace ((x + (1 # 2) - inject_Z k0) * (2 * inject_Z n))
            with (inject_Z (2 * S + n - 2 * k0 * n))
            by (unfold Z.sub; rewrite inject_Z_plus, inject_Z_opp, <- E2, !inject_Z_mult;
                change (inject_Z 2) with 2; ring).
          change 1 with (inject_Z 1). rewrite <- Zle_Qle. lia. }
        nra.
    + assert (T : 1 <= (inject_Z k0 + 1 - (x + (1 # 2))) * (2 * inject_Z n)).
      { setoid_replace ((inject_Z k0 + 1 - (x + (1 # 2))) * (2 * inject_Z n))
          with (inject_Z (2 * (k0 + 1) * n - (2 * S + n)))
          by (unfold Z.sub; rewrite inject_Z_plus, inject_Z_opp, <- E2, !inject_Z_mult,
                inject_Z_plus; change (inject_Z 2) with 2; change (inject_Z 1) with 1; ring).
        change 1 with (inject_Z 1). rewrite <- Zle_Qle. lia. }
      nra.
Qed.

End AggregateFacts.

Import Binary64Facts AggregateFacts.

Example tenths_in_doubles :
  MusicData.measures (InDoubles.parseMusicXML tenths)
  = [MeasureTimestamp.mk (Fin 1) (Fin 0) (Fin (3602879701896397 # 36028797018963968));
     MeasureTimestamp.mk (Fin 2) (Fin (3602879701896397 # 36028797018963968))
       (Fin (1351079888211149 # 4503599627370496))].
Proof. vm_compute. reflexivity. Qed.

Lemma fold_offsets_whole log :
  (forall a, In a log -> exists z : Z, timingOffset a = of_Z z) ->
  exists S : Z,
    (0 <= S)%Z /\
    sum_abs_offsets log = of_Z S /\
    forall s0 : Z, (0 <= s0)%Z -> (s0 + S < 2 ^ 53)%Z ->
      fold_left (fun sum a => Binary64.add sum (abs (timingOffset a))) log (of_Z s0)
      = of_Z (s0 + S).
Proof.
  induction log as [|a log IH]; intros Hall.
  - exists 0%Z. split; [lia|]. split; [reflexivity|].
    intros s0 _ _. cbn. now rewrite Z.add_0_r.
  - destruct (Hall a (or_introl eq_refl)) as [z Hz].
    destruct (IH (fun b Hb => Hall b (or_intror Hb))) as (S & HS & Esum & Efold).
    exists (Z.abs z + S)%Z. split; [lia|]. split.
    + cbn [sum_abs_offsets]. rewrite Hz, Esum. unfold of_Z. cbn [JS.abs JS.add]. f_equal.
      rewrite <- (Qred_inject_Z (Z.abs z + S)). apply Qred_complete.
      rewrite inject_Z_plus. reflexivity.
    + intros s0 Hs0 Hb. cbn [fold_left]. rewrite Hz.
      assert (Estep : Binary64.add (of_Z s0) (abs (of_Z z)) = of_Z (s0 + Z.abs z)).
      { unfold Binary64.add, of_Z. cbn [JS.abs JS.add Binary64.rnd].
        assert (E : Qred (inject_Z s0 + Qabs (inject_Z z)) == inject_Z (s0 + Z.abs z)).
        { rewrite Qred_correct, inject_Z_plus. reflexivity. }
        rewrite (round64_comp _ _ E). apply round64_Z. lia. }
      rewrite Estep, Efold by lia. f_equal. lia.
Qed.

Lemma of_Z_ltb (a b : Z) : (of_Z a <? of_Z b) = true -> (a < b)%Z.
Proof.
  unfold of_Z. cbn [JS.ltb]. unfold Qltb. intros H.
  apply negb_true_iff in H. rewrite Zlt_Qlt. apply Qnot_le_lt. intros C.
  apply Qle_bool_iff in C. congruence.
Qed.

Lemma presses_reachable n data st : reachable st -> reachable (presses n data st).
Proof.
  intros H. unfold presses. induction n as [|n IH]; simpl; [exact H|].
  now apply reach_message.
Qed.

(** C2, as the code has it.  The two aggregates are computed in doubles.
    Both are 0 on the empty log.  On a non-empty log (an array holds fewer
    than 2^32 entries) the percentage is a whole number within one half of
    [100 * correct / total]; it is [round(100 * correct / total)] unless
    that quotient lies exactly half way between two whole numbers, where the
    double product can fall on either side.  The average offset is the
    rounded mean of [|timingOffset|] over all entries when the offsets are
    whole numbers with a sum below 2^52.  In the logs the hook produces an
    entry that is not correct has offset 0, and such an entry adds nothing
    to the sum while it counts in the total. *)
Theorem aggregates_of_the_log :
  (InDoubles.accuracyPercentage [] = of_Z 0 /\ InDoubles.averageTimingOffset [] = of_Z 0) /\
  (forall log, log <> [] -> (Z.of_nat (List.length log) < 2 ^ 32)%Z ->
     let c := Z.of_nat (number_correct log) in
     let n := Z.of_nat (List.length log) in
     (exists k : Z,
        InDoubles.accuracyPercentage log = of_Z k /\
        (Qabs (inject_Z k - inject_Z (100 * c) / inject_Z n) <= 1 # 2)%Q) /\
     ((forall j : Z, 2 * (100 * c) <> (2 * j + 1) * n)%Z ->
      InDoubles.accuracyPercentage log
      = round (of_Z 100 * of_nat (number_correct log) / of_nat (List.length log)))) /\
  (forall log, log <> [] -> (Z.of_nat (List.length log) < 2 ^ 32)%Z ->
     (forall a, In a log -> exists z : Z, timingOffset a = of_Z z) ->
     (sum_abs_offsets log <? of_Z (2 ^ 52)) = true ->
     InDoubles.averageTimingOffset log
     = round (sum_abs_offsets log / of_nat (List.length log))) /\
  (forall st, reachable st ->
     forall a, In a (accuracy st) -> isCorrect a = false -> timingOffset a = of_Z 0) /\
  (forall a log, timingOffset a = of_Z 0 ->
     sum_abs_offsets (a :: log) ~= sum_abs_offsets log).
Proof.
  split; [split; reflexivity|].
  split; [|split; [|split]].
  - intros log Hne Hlen c n.
    assert (Hpos : (0 < List.length log)%nat) by (destruct log; [congruence | simpl; lia]).
    assert (Hc : (0 <= c <= n)%Z).
    { unfold c, n. rewrite <- correctCount_number_correct.
      pose proof (correctCount_le log). lia. }
    assert (Hn : (0 < n < 2 ^ 32)%Z) by (unfold n; lia).
    assert (Eacc : InDoubles.accuracyPercentage log
                   = round (Binary64.mul (Binary64.div (of_Z c) (of_Z n)) (of_Z 100))).
    { unfold InDoubles.accuracyPercentage.
      rewrite (proj2 (Nat.ltb_lt _ _) Hpos), correctCount_number_correct.
      unfold of_nat, c, n. reflexivity. }
    split.
    + destruct (percentage_nearest c n Hc Hn) as (k & Hk & K1 & K2).
      exists k. split; [now rewrite Eacc|].
      apply Qabs_Qle_condition.
      assert (K3 : (- (inject_Z k - inject_Z (100 * c) / inject_Z n) <= 1 # 2)%Q)
        by (setoid_replace (- (inject_Z k - inject_Z (100 * c) / inject_Z n))%Q
              with (inject_Z (100 * c) / inject_Z n - inject_Z k)%Q by ring; exact K2).
      revert K1 K3. generalize (inject_Z k - inject_Z (100 * c) / inject_Z n)%Q.
      intros d K1 K3. split; lra.
    + intros Htie. rewrite Eacc, (percentage_exact_off_ties c n Hc Hn Htie).
      apply round_equiv. apply div_Proper; [|reflexivity].
      symmetry. apply of_Z_mul.
  - intros log Hne Hlen Hwhole Hsum.
    assert (Hpos : (0 < List.length log)%nat) by (destruct log; [congruence | simpl; lia]).
    destruct (fold_offsets_whole log Hwhole) as (S & HS & Esum & Efold).
    rewrite Esum in Hsum. apply of_Z_ltb in Hsum.
    unfold InDoubles.averageTimingOffset.
    rewrite (proj2 (Nat.ltb_lt _ _) Hpos).
    rewrite (Efold 0%Z ltac:(lia) ltac:(lia)), Z.add_0_l, Esum.
    apply mean_rounds_exactly; lia.
  - exact reachable_wrong_offsets.
  - intros a log E. simpl. rewrite E. apply add_0_l.
Qed.

Lemma aggregates_of_the_log_witness :
  InDoubles.accuracyPercentage (accuracy session_1_of_3) = of_Z 33 /\
  InDoubles.averageTimingOffset (accuracy session_1_of_3) = of_Z 1666667.
Proof.
  split.
  - apply (proj2 (proj1 (proj2 aggregates_of_the_log) (accuracy session_1_of_3)
                    ltac:(discriminate) ltac:(vm_compute; reflexivity))).
    intros j. change (2 * (100 * 1) <> (2 * j + 1) * 3)%Z. lia.
  - apply (proj1 (proj2 (proj2 aggregates_of_the_log)) (accuracy session_1_of_3)
             ltac:(discriminate) ltac:(vm_compute; reflexivity)).
    + intros a Ha. vm_compute in Ha.
      destruct Ha as [<- | [<- | [<- | []]]]; [exists 5000000%Z | exists 0%Z | exists 0%Z];
        reflexivity.
    + reflexivity.
Defined.

(** C2, as written, fails on a tie: after 23 correct presses out of 40 the
    exact percentage is 57.5 and [round(100 * 23 / 40)] is 58, but the
    double [(23 / 40) * 100] is 57.49999999999999 and the hook reports 57. *)
Lemma aggregates_of_the_log_counterexample :
  ~ (forall st, reachable st ->
       InDoubles.accuracyPercentage (accuracy st)
       = match accuracy st with
         | [] => of_Z 0
         | _ => round (of_Z 100 * of_nat (number_correct (accuracy st))
                       / of_nat (List.length (accuracy st)))
         end).
Proof.
  intros H.
  specialize (H session_23_of_40).
  assert (R : reachable session_23_of_40).
  { unfold session_23_of_40. apply presses_reachable, presses_reachable.
    apply reach_mount. reflexivity. }
  specialize (H R). vm_compute in H. discriminate H.
Qed.

(* ================================================================== *)
(** ** The parser's clock in double arithmetic *)
(* ================================================================== *)

Section OneMeasureInDoubles.

Variables (tempo : num) (measureNumber : option Z) (divisions : num).

Lemma process_note_in_doubles p e i :
  let p' := InDoubles.process_note tempo measureNumber divisions p e i in
  p' = p \/
  exists n,
    InDoubles.from_entry tempo measureNumber divisions e n /\
    notes p' = (notes p ++ [n])%list /\
    measures p' = measures p /\
    measureStartTime p' = measureStartTime p /\
    Note.start n = currentTime p /\
    Note.end_ n = currentTime p' /\
    currentTime p' = currentTime p ⊕ Note.duration n.
Proof.
  unfold InDoubles.process_note.
  destruct (el_rest e) eqn:R; [now left|].
  destruct (truthy_text (el_step e)); [|now left].
  destruct (truthy_text (el_octave e)); [|now left].
  destruct (truthy_text (el_duration e)) as [txt|] eqn:D; [|now left].
  right. eexists. split; [|cbn; repeat split].
  split; [exact R|]. exists txt. cbn. repeat split. exact D.
Qed.


Lemma forEach_notes_in_doubles els :
  forall i p,
    let p' := forEach_from (InDoubles.process_note tempo measureNumber divisions) els i p in
    exists ns,
      notes p' = (notes p ++ ns)%list /\
      measures p' = measures p /\
      measureStartTime p' = measureStartTime p /\
      note_chain (currentTime p) ns (currentTime p') /\
      currentTime p' = fold_left (fun c n => c ⊕ Note.duration n) ns (currentTime p) /\
      Forall (fun n => exists e,
                In e els /\ InDoubles.from_entry tempo measureNumber divisions e n) ns /\
      (Forall (fun e => el_rest e = true) els -> ns = []).
Proof.
  induction els as [|e els IH]; intros i p; cbn zeta.
  - exists []. cbn. rewrite app_nil_r. repeat split; constructor.
  - cbn [forEach_from].
    destruct (IH (S i) (InDoubles.process_note tempo measureNumber divisions p e i))
      as (ns2 & N2 & M2 & S2 & C2 & F2 & A2 & R2).
    assert (A2' : Forall (fun n => exists e',
                    In e' (e :: els)
                    /\ InDoubles.from_entry tempo measureNumber divisions e' n) ns2).
    { eapply Forall_impl; [|exact A2]. intros n (e' & He' & Hn). exists e'. split; [now right|exact Hn]. }
    destruct (process_note_in_doubles p e i) as [E | (n & Hn & N1 & M1 & S1 & St & En & T1)];
      cbn zeta in *.
    + rewrite E in *. exists ns2. repeat split; try assumption.
      intros HR. apply R2. now inversion HR.
    + exists (n :: ns2). split; [|split; [|split; [|split; [|split; [|split]]]]].
      * rewrite N2, N1, <- app_assoc. reflexivity.
      * congruence.
      * congruence.
      * cbn. split; [exact St|]. now rewrite En.
      * cbn [fold_left]. now rewrite <- T1.
      * constructor; [|exact A2']. exists e. split; [now left | exact Hn].
      * intros HR. inversion HR as [|? ? He _]; subst.
        destruct Hn as [Hrest _]. congruence.
Qed.

End OneMeasureInDoubles.

(** One measure element, in doubles: the notes it emits and the measure it
    records. *)
Lemma process_measure_in_doubles tempo p el :
  let p' := InDoubles.process_measure tempo p el in
  exists ns,
    notes p' = (notes p ++ ns)%list /\
    measures p' =
      (measures p ++
         [MeasureTimestamp.mk (Binary64.of_int (measure_number el))
            (currentTime p) (currentTime p')])%list /\
    note_chain (currentTime p) ns (currentTime p') /\
    currentTime p' = fold_left (fun c n => c ⊕ Note.duration n) ns (currentTime p) /\
    Forall (fun n => exists e, InDoubles.converted_from tempo el e n) ns /\
    (Forall (fun e => el_rest e = true) (el_notes el) -> ns = []).
Proof.
  cbn zeta. unfold InDoubles.process_measure. fold (measure_number el).
  set (p1 := {| currentTime := currentTime p; measureStartTime := currentTime p;
                notes := notes p; measures := measures p |}).
  destruct (forEach_notes_in_doubles tempo (measure_number el)
              (InDoubles.extract_divisions (el_divisions el)) (el_notes el) 0 p1)
    as (ns & N & M & S & C & F & A & R).
  cbn zeta in *. exists ns. cbn. rewrite N, M, S. repeat split; assumption.
Qed.

(** A run of measure elements, in doubles. *)
Lemma process_measures_in_doubles tempo els :
  forall p,
    let p' := InDoubles.process_measures tempo els p in
    exists ns ms,
      notes p' = (notes p ++ ns)%list /\
      measures p' = (measures p ++ ms)%list /\
      List.length ms = List.length els /\
      note_chain (currentTime p) ns (currentTime p') /\
      contiguous (currentTime p) ms (currentTime p') /\
      Forall (fun n => exists el e, In el els /\ InDoubles.converted_from tempo el e n) ns.
Proof.
  unfold InDoubles.process_measures.
  induction els as [|el els IH]; intros p; cbn zeta; cbn [fold_left].
  - exists [], []. rewrite !app_nil_r. repeat split; constructor.
  - destruct (process_measure_in_doubles tempo p el) as (ns1 & N1 & M1 & C1 & _ & A1 & _).
    destruct (IH (InDoubles.process_measure tempo p el))
      as (ns2 & ms2 & N2 & M2 & L2 & C2 & K2 & A2).
    cbn zeta in *.
    exists (ns1 ++ ns2)%list,
      (MeasureTimestamp.mk (Binary64.of_int (measure_number el)) (currentTime p)
         (currentTime (InDoubles.process_measure tempo p el)) :: ms2).
    repeat split.
    + now rewrite N2, N1, app_assoc.
    + rewrite M2, M1, <- app_assoc. reflexivity.
    + simpl. now rewrite L2.
    + eapply note_chain_app; eassumption.
    + assumption.
    + apply Forall_app; split.
      * eapply Forall_impl; [|exact A1]. intros n (e & He). exists el, e.
        split; [now left | exact He].
      * eapply Forall_impl; [|exact A2]. intros n (el' & e & Hel & He). exists el', e.
        split; [now right | exact He].
Qed.





Lemma eqb_NaN_l (b : num) : (NaN =? b) = false.
Proof. reflexivity. Qed.

(* ------------------------------------------------------------------ *)
(** *** Measures *)




(* ------------------------------------------------------------------ *)
(** *** The span of a measure *)




(* ------------------------------------------------------------------ *)
(** *** The tempo *)

(** C7, as the code has it.  The tempo is 74 when there is no tempo
    declaration or its attribute is empty; otherwise it is what [parseInt]
    reads from the attribute.  Every parsed note comes from a note entry of
    some measure element of the document, and its duration is the
    conversion of that entry's duration text at that one tempo, with the
    divisions of that measure element. *)
Theorem tempo_default_and_uniform (xmlDoc : XmlDoc) :
  let d := InDoubles.parseMusicXML xmlDoc in
  (el_sound_tempo xmlDoc = None -> MusicData.tempo d = of_Z 74) /\
  (el_sound_tempo xmlDoc = Some "" -> MusicData.tempo d = of_Z 74) /\
  (forall attr, el_sound_tempo xmlDoc = Some attr -> attr <> "" ->
     MusicData.tempo d = Binary64.of_int (parseInt attr)) /\
  (forall n, In n (MusicData.notes d) ->
     exists el e,
       In el (el_measures xmlDoc) /\
       InDoubles.converted_from (MusicData.tempo d) el e n).
Proof.
  intros d. split; [|split; [|split]].
  - unfold d, InDoubles.parseMusicXML; cbn. now intros ->.
  - unfold d, InDoubles.parseMusicXML; cbn. now intros ->.
  - unfold d, InDoubles.parseMusicXML; cbn. intros attr -> Hne.
    destruct attr; [contradiction|reflexivity].
  - destruct (process_measures_in_doubles
                (InDoubles.extract_tempo (el_sound_tempo xmlDoc))
                (el_measures xmlDoc) parser_init)
      as (ns & ms & N & _ & _ & _ & _ & A).
    cbn zeta in *. cbn in N.
    intros n Hn. unfold d, InDoubles.parseMusicXML in Hn; cbn in Hn.
    rewrite N in Hn. exact (proj1 (Forall_forall _ _) A n Hn).
Qed.

Lemma tempo_default_and_uniform_witness :
  MusicData.tempo (InDoubles.parseMusicXML (score None [])) = of_Z 74 /\
  MusicData.tempo (InDoubles.parseMusicXML (score (Some "") [])) = of_Z 74 /\
  MusicData.tempo (InDoubles.parseMusicXML scenario_doc) = Binary64.of_int (parseInt "72").
Proof.
  split; [|split].
  - exact (proj1 (tempo_default_and_uniform (score None [])) eq_refl).
  - exact (proj1 (proj2 (tempo_default_and_uniform (score (Some "") []))) eq_refl).
  - apply (proj1 (proj2 (proj2 (tempo_default_and_uniform scenario_doc))) "72").
    + reflexivity.
    + discriminate.
Defined.

(** C7, as written, fails: a tempo attribute that is not a number gives
    [NaN], not 74. *)
Lemma tempo_malformed_counterexample :
  ~ (forall (xmlDoc : XmlDoc) attr,
       el_sound_tempo xmlDoc = Some attr ->
       parseInt attr = None ->
       MusicData.tempo (InDoubles.parseMusicXML xmlDoc) = of_Z 74).
Proof.
  intros H. specialize (H tempo_abc "abc" eq_refl eq_refl). discriminate H.
Qed.

(* ================================================================== *)
(** ** The accuracy log and the presses behind it *)
(* ================================================================== *)

Lemma midi_run_reachable evs :
  forall st, reachable st -> reachable (midi_run evs st).
Proof.
  unfold midi_run. induction evs as [|ev evs IH]; intros st H; cbn [fold_left]; [exact H|].
  apply IH. destruct ev; cbn [midi_step]; [now apply reach_message | now apply reach_reset].
Qed.

Lemma reachable_record_shape (st : MIDIState) :
  reachable st ->
  forall a, In a (accuracy st) ->
    (isCorrect a = true -> (expectedNote a =? actualNote a) = true) /\
    (isCorrect a = false ->
     expectedNote a = of_Z (-1) /\ timingOffset a = of_Z 0 /\
     exists token, noteId a = "wrong-" ++ token).
Proof.
  induction 1 as [st E | options now dateNow data st _ IH | st _ _]; intros a Ha.
  - rewrite E in Ha. contradiction.
  - destruct (handleMIDIMessage_log options now dateNow data st)
      as [E | (expected & t & pressed & E)]; rewrite E in Ha.
    + now apply IH.
    + apply in_app_or in Ha. destruct Ha as [Ha | [<- | []]]; [now apply IH|].
      destruct (press_record_shape expected t pressed now dateNow) as (H1 & H2 & H3).
      split; [exact H2|].
      intros Hc. destruct (H3 Hc) as [H4 H5]. split; [exact H4|].
      split; [now apply press_record_wrong_offset | eauto].
  - contradiction.
Qed.

(** The actual pitches in the log after one event. *)
Lemma midi_step_actual_notes st ev :
  map actualNote (accuracy (midi_step st ev)) =
  match ev with
  | ResetStats => []
  | _ =>
      match scored_press ev with
      | Some pressed => (map actualNote (accuracy st) ++ [of_Z pressed])%list
      | None => map actualNote (accuracy st)
      end
  end.
Proof.
  destruct ev as [options now dateNow data|]; [|reflexivity].
  cbn [midi_step scored_press]. unfold handleMIDIMessage.
  destruct data as [|command [|note [|velocity more]]]; try reflexivity.
  - destruct (in_range 128 143 command); reflexivity.
  - destruct (in_range 128 143 command); reflexivity.
  - destruct (in_range 144 159 command && (0 <? velocity)%Z).
    + destruct (expectedNotes options) as [expected|]; [|reflexivity].
      destruct (opt_currentTime options) as [t|]; [|reflexivity].
      cbn [accuracy setAccuracy setActiveNotes].
      rewrite map_app. cbn [map]. f_equal. f_equal.
      apply (proj1 (press_record_shape expected t note now dateNow)).
    + destruct (_ || _); reflexivity.
Qed.

Lemma midi_run_actual_notes evs :
  forall st acc,
    map actualNote (accuracy st) = map of_Z acc ->
    map actualNote (accuracy (midi_run evs st)) = map of_Z (scored_since_reset evs acc).
Proof.
  unfold midi_run. induction evs as [|ev evs IH]; intros st acc H; cbn [fold_left]; [exact H|].
  pose proof (midi_step_actual_notes st ev) as E.
  destruct ev as [options now dateNow data|].
  - cbn [scored_since_reset]. apply IH. rewrite E.
    destruct (scored_press _) as [pressed|]; [|exact H].
    now rewrite map_app, H.
  - cbn [scored_since_reset]. apply IH. now rewrite E.
Qed.

(** X11.  The log holds the scored presses made since the last reset, one
    record for each and in their order: the actual pitches of its records
    are the pitch bytes of those presses.  A record marked correct has an
    expected pitch equal to the actual one; a record marked not correct has
    expected pitch -1, offset 0 and an id that starts with "wrong-". *)
Theorem log_records_are_consistent (evs : list MIDIEvent) (st : MIDIState) :
  accuracy st = [] ->
  let log := accuracy (midi_run evs st) in
  map actualNote log = map of_Z (scored_since_reset evs []) /\
  forall a, In a log ->
    (isCorrect a = true -> (expectedNote a =? actualNote a) = true) /\
    (isCorrect a = false ->
     expectedNote a = of_Z (-1) /\ timingOffset a = of_Z 0 /\
     exists token, noteId a = "wrong-" ++ token).
Proof.
  intros E log. split.
  - apply midi_run_actual_notes. now rewrite E.
  - apply reachable_record_shape, midi_run_reachable, reach_mount, E.
Qed.

Lemma log_records_are_consistent_witness :
  map actualNote (accuracy (midi_run a_session useMIDI_init)) = [of_Z 62].
Proof.
  exact (proj1 (log_records_are_consistent a_session useMIDI_init eq_refl)).
Defined.

(* ================================================================== *)
(** ** The sheet: which staves are drawn *)
(* ================================================================== *)

Section DrawingFacts.

Variables (stave_ok notes_ok : nat -> bool) (notes : list Note.t) (activeHand : Hand).

Lemma draw_prefix turns : exists rest, turns = (SheetRender.draw stave_ok notes_ok notes activeHand turns ++ rest)%list.
Proof.
  induction turns as [|s turns [rest IH]]; [now exists []|].
  cbn [SheetRender.draw].
  destruct (stave_ok _); [|now exists (s :: turns)].
  destruct (SheetRender.block_completes _ _ _ _).
  - exists rest. cbn. now rewrite <- IH.
  - now exists turns.
Qed.

Lemma draw_all turns :
  (forall s, In s turns ->
     stave_ok (SheetViewer.measureNumber s) = true /\
     SheetRender.block_completes notes_ok notes activeHand (SheetViewer.measureNumber s) = true) ->
  SheetRender.draw stave_ok notes_ok notes activeHand turns = turns.
Proof.
  induction turns as [|s turns IH]; intros H; [reflexivity|].
  cbn [SheetRender.draw].
  destruct (H s (or_introl eq_refl)) as [-> ->].
  f_equal. apply IH. intros s' Hs'. apply H. now right.
Qed.

Lemma draw_stops before s after :
  (forall s', In s' before ->
     stave_ok (SheetViewer.measureNumber s') = true /\
     SheetRender.block_completes notes_ok notes activeHand (SheetViewer.measureNumber s') = true) ->
  stave_ok (SheetViewer.measureNumber s) = true ->
  SheetRender.block_completes notes_ok notes activeHand (SheetViewer.measureNumber s) = false ->
  SheetRender.draw stave_ok notes_ok notes activeHand (before ++ s :: after) = (before ++ [s])%list.
Proof.
  induction before as [|s0 before IH]; intros H Hs Hc.
  - cbn. now rewrite Hs, Hc.
  - cbn [app SheetRender.draw].
    destruct (H s0 (or_introl eq_refl)) as [-> ->].
    f_equal. apply IH; [|assumption|assumption]. intros s' Hs'. apply H. now right.
Qed.

End DrawingFacts.

Lemma staves_numbers (totalMeasures : nat) :
  map SheetViewer.measureNumber (SheetViewer.staves totalMeasures) = seq 1 totalMeasures.
Proof.
  unfold SheetViewer.staves, SheetViewer.measuresPerLine.
  rewrite staves_numbers_upto by lia.
  f_equal. pose proof (proj1 (lines_bound totalMeasures)). lia.
Qed.

Lemma staves_places (totalMeasures : nat) :
  Forall (fun s => SheetViewer.measureNumber s
                   = (4 * SheetViewer.line s + SheetViewer.column s + 1)%nat
                   /\ (SheetViewer.column s < 4)%nat)
         (SheetViewer.staves totalMeasures).
Proof.
  unfold SheetViewer.staves. apply Forall_flat_map, Forall_forall. intros l _.
  apply staves_of_line_places. unfold SheetViewer.measuresPerLine.
  repeat constructor.
Qed.

Lemma seq_prefix_from (l r : list nat) :
  forall a n, (l ++ r)%list = seq a n -> l = seq a (List.length l) /\ (List.length l <= n)%nat.
Proof.
  induction l as [|x l IH]; intros a n H; [split; [reflexivity | cbn; lia]|].
  destruct n as [|n]; [discriminate|]. cbn in H. injection H as -> H.
  destruct (IH _ _ H) as [E L]. cbn. split; [now rewrite <- E | lia].
Qed.

Lemma seq_prefix (l r : list nat) (n : nat) :
  (l ++ r)%list = seq 1 n -> l = seq 1 (List.length l) /\ (List.length l <= n)%nat.
Proof. apply seq_prefix_from. Qed.

(** The turns of the loops up to the measure numbered [k]. *)
Lemma staves_split (totalMeasures k : nat) :
  (1 <= k <= totalMeasures)%nat ->
  exists before s after,
    SheetViewer.staves totalMeasures = (before ++ s :: after)%list /\
    SheetViewer.measureNumber s = k /\
    map SheetViewer.measureNumber before = seq 1 (k - 1).
Proof.
  intros Hk. pose proof (staves_numbers totalMeasures) as E.
  set (l := SheetViewer.staves totalMeasures) in *.
  assert (Hlen : List.length l = totalMeasures)
    by (rewrite <- (length_map SheetViewer.measureNumber), E; apply length_seq).
  destruct (nth_error l (k - 1)) as [s|] eqn:N;
    [|apply nth_error_None in N; lia].
  destruct (nth_error_split l (k - 1) N) as (before & after & El & Lb).
  exists before, s, after. split; [exact El|].
  rewrite El, map_app in E. cbn [map] in E.
  destruct (seq_prefix _ _ _ E) as [Eb _]. rewrite length_map, Lb in Eb.
  split; [|exact Eb].
  assert (Es : nth_error (seq 1 totalMeasures) (k - 1) = Some (SheetViewer.measureNumber s)).
  { rewrite <- E, nth_error_app2 by (rewrite length_map; lia).
    rewrite length_map, Lb, Nat.sub_diag. reflexivity. }
  rewrite nth_error_seq in Es.
  destruct (Nat.ltb_spec (k - 1) totalMeasures); [|lia].
  injection Es as Es. lia.
Qed.

(** X28.  The staves are drawn in the order of the measure positions and
    the drawing stops at the first exception, so the staves on the page are
    those of the positions 1..k for some k, each at line [(k - 1) / 4] and
    column [(k - 1) mod 4].  When no call into VexFlow or the DOM throws: if
    every shown note can be named, all staves are drawn; if position k is
    the first that holds a shown note that cannot be named (a pitch that is
    [NaN], negative or not whole), the staves 1..k are drawn and none after
    them. *)
Theorem staves_cover_every_measure
    (setup_ok : bool) (stave_ok notes_ok : nat -> bool) (notes : list Note.t)
    (activeHand : Hand) (totalMeasures : nat) :
  let drawn := SheetRender.drawn setup_ok stave_ok notes_ok notes activeHand totalMeasures in
  let unnamed k :=
    existsb (fun note => negb (SheetRender.nameable (Note.pitch note)))
            (SheetRender.notesByMeasure notes activeHand k) in
  (exists k, (k <= totalMeasures)%nat /\ map SheetViewer.measureNumber drawn = seq 1 k) /\
  Forall (fun s => SheetViewer.measureNumber s
                   = (4 * SheetViewer.line s + SheetViewer.column s + 1)%nat
                   /\ (SheetViewer.column s < 4)%nat) drawn /\
  (setup_ok = true -> (forall k, stave_ok k = true) -> (forall k, notes_ok k = true) ->
   ((forall k, (1 <= k <= totalMeasures)%nat -> unnamed k = false) ->
    map SheetViewer.measureNumber drawn = seq 1 totalMeasures) /\
   (forall k, (1 <= k <= totalMeasures)%nat ->
      (forall j, (1 <= j < k)%nat -> unnamed j = false) ->
      unnamed k = true ->
      map SheetViewer.measureNumber drawn = seq 1 k)).
Proof.
  intros drawn unnamed.
  assert (Hcomp : forall k, notes_ok k = true ->
            SheetRender.block_completes notes_ok notes activeHand k = negb (unnamed k)).
  { intros k Hk. unfold SheetRender.block_completes, unnamed.
    destruct (SheetRender.notesByMeasure notes activeHand k) as [|n ns]; [reflexivity|].
    rewrite Hk, andb_true_r. generalize (n :: ns). intros l. induction l as [|x l IH]; [reflexivity|].
    cbn [forallb existsb]. rewrite IH, negb_orb, negb_involutive. reflexivity. }
  assert (Hpre : exists rest, SheetViewer.staves totalMeasures = (drawn ++ rest)%list).
  { unfold drawn, SheetRender.drawn. destruct setup_ok; [apply draw_prefix|].
    now exists (SheetViewer.staves totalMeasures). }
  destruct Hpre as [rest Hrest].
  split; [|split].
  - pose proof (staves_numbers totalMeasures) as E.
    rewrite Hrest, map_app in E. destruct (seq_prefix _ _ _ E) as [E1 E2].
    exists (List.length (map SheetViewer.measureNumber drawn)). split; assumption.
  - pose proof (staves_places totalMeasures) as P. rewrite Hrest in P.
    apply Forall_app in P. apply P.
  - intros -> Hs Hn. split.
    + intros Hall. unfold drawn, SheetRender.drawn.
      rewrite draw_all; [apply staves_numbers|].
      intros s Hin. split; [apply Hs|]. rewrite Hcomp by apply Hn.
      apply negb_true_iff, Hall.
      pose proof (staves_numbers totalMeasures) as E.
      assert (Hin' : In (SheetViewer.measureNumber s) (seq 1 totalMeasures))
        by (rewrite <- E; now apply in_map).
      apply in_seq in Hin'. lia.
    + intros k Hk Hbefore Hbad.
      destruct (staves_split totalMeasures k Hk) as (before & s & after & El & Es & Eb).
      unfold drawn, SheetRender.drawn. rewrite El, draw_stops.
      * rewrite map_app, Eb. cbn [map]. rewrite Es.
        replace k with ((k - 1) + 1)%nat at 3 by lia.
        rewrite seq_app. cbn [seq]. do 2 f_equal. lia.
      * intros s' Hin. split; [apply Hs|]. rewrite Hcomp by apply Hn.
        apply negb_true_iff, Hbefore.
        assert (Hin' : In (SheetViewer.measureNumber s') (seq 1 (k - 1)))
          by (rewrite <- Eb; now apply in_map).
        apply in_seq in Hin'. lia.
      * apply Hs.
      * rewrite Hcomp by apply Hn. rewrite Es, Hbad. reflexivity.
Qed.

Lemma staves_cover_every_measure_witness :
  map SheetViewer.measureNumber
      (SheetRender.drawn true (fun _ => true) (fun _ => true) three_measure_notes both 3)
  = [1; 2]%nat.
Proof.
  refine (proj2 (proj2 (proj2 (staves_cover_every_measure true (fun _ => true)
                                 (fun _ => true) three_measure_notes both 3))
                   eq_refl (fun _ => eq_refl) (fun _ => eq_refl))
            2%nat _ _ _).
  - lia.
  - intros j Hj. assert (j = 1%nat) as -> by lia. reflexivity.
  - reflexivity.
Defined.
